(** * Resonance v2: the Application main loop

    A shallow embedding of [src/projects/Resonance v2/src/Application/Application.cpp]:
    the layer dispatchers, the scene transition, the per-frame loop of
    [Application::_Run], the timing update, scene loading and the settings
    resolution, followed by the properties of the engine specification that
    concern them. *)

From stdpp Require Import gmap strings list fin_maps sorting pretty.
From Stdlib Require Import ZArith Lia Ascii Floats.SpecFloat.

Local Open Scope string_scope.
Local Open Scope list_scope.
Local Open Scope Z_scope.

#[global] Unset Elimination Schemes.

(** ** JSON documents (nlohmann::json) *)

(** The values of the JSON library the program links against. An object is
    a map keyed by strings (std::map in the library). *)
Inductive json :=
| JNull
| JBool (b : bool)
| JNum (n : Z)
| JStr (s : string)
| JArr (l : list json)
| JObj (m : gmap string json).

#[global] Set Elimination Schemes.

Definition is_object (j : json) : bool :=
  match j with JObj _ => true | _ => false end.

Definition is_null (j : json) : bool :=
  match j with JNull => true | _ => false end.

(** The members of an object; a value that is not an object has none. *)
Definition members (j : json) : gmap string json :=
  match j with JObj m => m | _ => ∅ end.

(** [blob.find(key)]: the member stored under [key], if any. *)
Definition json_find (key : string) (j : json) : option json := members j !! key.

(** One step of the loop of [merge_patch]: a null member of the patch erases
    the key, any other member is merged into [operator[](key)], which is
    null when the key was absent. *)
Definition patch_member (rec : json → json → json)
    (k : string) (v : json) (acc : gmap string json) : gmap string json :=
  if is_null v then delete k acc
  else <[k := rec (default JNull (acc !! k)) v]> acc.

(** Modelled from the spec: [nlohmann::json::merge_patch] belongs to the JSON
    library, which is not under src/. The specification names it "patch"
    semantics; this is the library's JSON Merge Patch: an object patch is
    applied member by member to the target (first turned into an empty object
    when it is not one), and any other patch replaces the target. *)
Fixpoint merge_patch (target patch : json) {struct patch} : json :=
  match patch with
  | JObj ps => JObj (map_fold (patch_member merge_patch) (members target) ps)
  | _ => patch
  end.

(** Modelled from the spec: [operator[](key) = v] of the JSON library. A null
    value becomes an object first; a value that is neither null nor an object
    makes the library throw, which is [None] here. *)
Definition json_set (key : string) (v : json) (j : json) : option json :=
  match j with
  | JNull => Some (JObj {[ key := v ]})
  | JObj m => Some (JObj (<[key := v]> m))
  | _ => None
  end.

(** Modelled from the spec: the text form of a document belongs to the JSON
    library ([dump] and [parse]), which is not under src/; the
    specification only speaks of a persisted settings document. [dump] is
    [None] where the library throws (a string that is not UTF-8), [parse]
    where the text is not a document. *)
Class JsonText := {
  dump : json → option string;
  parse : string → option json
}.

(** ** Arithmetic of the timing values *)

(** The timing values are C++ [float]s. The model is written over an
    interface, so that it can be run both on IEEE binary32 and on an exact
    arithmetic. *)
Class Arith (F : Type) := {
  fzero : F;
  fadd : F → F → F;
  fmul : F → F → F;
  fle : F → F → Prop
}.

(** IEEE 754 binary32, the C++ [float]: 24 bits of precision, emax 128. *)
Definition binary32 : Type := spec_float.

Definition b32 (m : Z) (e : Z) : binary32 := binary_normalize 24 128 m e false.

#[global] Instance binary32_arith : Arith binary32 := {
  fzero := S754_zero false;
  fadd := SFadd 24 128;
  fmul := SFmul 24 128;
  fle := λ x y, SFleb x y = true
}.

(** Exact integer arithmetic (think of fixed-point ticks). *)
Definition Z_arith : Arith Z := {|
  fzero := 0; fadd := Z.add; fmul := Z.mul; fle := Z.le
|}.

(** ** The layer interface *)

(** The hooks a layer may override (enum [AppLayerFunctions]). *)
Inductive AppLayerFunctions :=
| OnAppLoad | OnAppUnload | OnSceneLoad | OnSceneUnload
| OnUpdate | OnLateUpdate | OnPreRender | OnRender | OnPostRender
| OnWindowResize.

#[global] Instance AppLayerFunctions_eq_dec : EqDecision AppLayerFunctions.
Proof. solve_decision. Defined.

(** Modelled from the spec: the header that declares [AppLayerFunctions] is
    not under src/. The specification describes a bitmask with one bit per
    hook; the position of each hook's bit is left as a parameter. *)
Class FlagLayout := bitOf : AppLayerFunctions → N.

(** The enumerator of a hook: the value with only the hook's bit set. *)
Definition flag `{FlagLayout} (f : AppLayerFunctions) : Z :=
  Z.shiftl 1 (Z.of_N (bitOf f)).

Record Framebuffer := {
  fbId : nat;
  GetWidth : Z;
  GetHeight : Z
}.

#[global] Instance Framebuffer_eq_dec : EqDecision Framebuffer.
Proof. solve_decision. Defined.

(** What a hook does to the Application while it runs, through the public
    entry points [Quit] and [LoadScene(const Scene::Sptr&)]. *)
Inductive ApiCall :=
| ApiQuit
| ApiLoadScene (scene : option nat).

(** A layer ([ApplicationLayer]). The bodies of the virtual hooks belong to
    the concrete layers; [Hooks] lists the entry points of the Application a
    hook calls, and the two output fields are what [GetRenderOutput] and
    [GetPostRenderOutput] return once the corresponding hook has run. *)
Record ApplicationLayer := {
  Name : string;
  Enabled : bool;
  Overrides : Z;
  GetDefaultConfig : json;
  GetRenderOutput : option Framebuffer;
  GetPostRenderOutput : option Framebuffer;
  Hooks : AppLayerFunctions → list ApiCall
}.

(** [layer->Enabled && *(layer->Overrides & AppLayerFunctions::f)] *)
Definition overrides `{FlagLayout} (f : AppLayerFunctions) (l : ApplicationLayer) : bool :=
  Enabled l && negb (Z.land (Overrides l) (flag f) =? 0).

(** ** Scenes *)

(** A game object, as far as the main loop looks into it: its name and the
    components the loop asks for with [Get<T>()]. A component the object does
    not have is [None] (a null pointer in the source); for the two components
    whose [IsEnabled] flag the loop writes, the flag is the payload.
    [awakeCalls] counts how often [Awake] has run on the components of the
    object. *)
Record GameObject := {
  goName : string;
  RenderComponent : option bool;
  GuiPanel : option bool;
  AudioManager : bool;
  awakeCalls : nat
}.

Record Scene := {
  Objects : list GameObject;
  IsPlaying : bool;
  requestSceneReload : bool;
  audioManager : option GameObject
}.

(** Modelled from the spec: [Scene::FindObjectByName] is not under src/; the
    specification gives the Scene a lookup by name. The result is the position
    of the first object of that name, the handle through which the loop then
    writes to the object. *)
Definition FindObjectByName (name : string) (s : Scene) : option nat :=
  fst <$> list_find (λ o, goName o = name) (Objects s).

Definition withObjects (os : list GameObject) (s : Scene) : Scene :=
  {| Objects := os; IsPlaying := IsPlaying s;
     requestSceneReload := requestSceneReload s; audioManager := audioManager s |}.

Definition withIsPlaying (b : bool) (s : Scene) : Scene :=
  {| Objects := Objects s; IsPlaying := b;
     requestSceneReload := requestSceneReload s; audioManager := audioManager s |}.

Definition withRenderEnabled (b : bool) (o : GameObject) : GameObject :=
  {| goName := goName o; RenderComponent := Some b;
     GuiPanel := GuiPanel o; AudioManager := AudioManager o;
     awakeCalls := awakeCalls o |}.

Definition withPanelEnabled (b : bool) (o : GameObject) : GameObject :=
  {| goName := goName o; RenderComponent := RenderComponent o;
     GuiPanel := Some b; AudioManager := AudioManager o;
     awakeCalls := awakeCalls o |}.

(** One more [Awake] on the components of an object. *)
Definition awaken (o : GameObject) : GameObject :=
  {| goName := goName o; RenderComponent := RenderComponent o;
     GuiPanel := GuiPanel o; AudioManager := AudioManager o;
     awakeCalls := S (awakeCalls o) |}.

(** Modelled from the spec: [Scene::Awake] is not under src/. By the
    specification it invokes [Awake] exactly once on every contained
    Component. *)
Definition Scene_Awake (s : Scene) : Scene :=
  {| Objects := awaken <$> Objects s; IsPlaying := IsPlaying s;
     requestSceneReload := requestSceneReload s;
     audioManager := awaken <$> audioManager s |}.

(** ** Observable events *)

(** The arguments a hook is called with. *)
Inductive HookArgs :=
| NoArgs
| AppLoadArgs (settings : json)
| RenderArgs (prevLayer : option Framebuffer)
| ResizeArgs (oldSize newSize : Z * Z).

Definition Rect : Type := Z * Z * Z * Z.

(** The calls that leave the Application, in the order they are made. A hook
    call is recorded with the layer's position in [_layers], its arguments,
    and the current scene the hook finds if it asks the Application for it;
    a call of [Scene::Awake] with what the components of the scene find
    while it runs: the [IsPlaying] flag of the scene and the target slot of
    the Application. A file is written as text. *)
Inductive Event :=
| EvHook (f : AppLayerFunctions) (layer : nat) (args : HookArgs) (scene : option nat)
| EvSceneAwake (scene : nat) (isPlaying : bool) (target : option nat)
| EvLoadManifest (path : string)
| EvSceneLoad (path : string)
| EvCreateDirectory (path : string)
| EvWriteFile (path : string) (content : string)
| EvLogWarn
| EvRegisterClasses
| EvSwapInterval (n : Z)
| EvInputInit
| EvImGuiInit
| EvGuiBatcherSetWindowSize (size : Z * Z)
| EvImGuiCleanup
| EvPollEvents
| EvImGuiStartFrame
| EvInputEndFrame
| EvImGuiEndFrame
| EvSwapBuffers
| EvViewport (r : Rect)
| EvScissor (r : Rect)
| EvClear
| EvUnbind (fb : Framebuffer)
| EvBindRead (fb : Framebuffer)
| EvBindWriteDefault
| EvBlit (src dst : Rect)
| EvUnloadSound (name : string)
| EvPlaySound (name : string).

(** The layers of hook [f] called in a run of events, in call order. *)
Definition hookCalls (f : AppLayerFunctions) (evs : list Event) : list nat :=
  omap (λ e, match e with
             | EvHook g i _ _ => if decide (g = f) then Some i else None
             | _ => None
             end) evs.

(** The scenes [Scene::Awake] is called on in a run of events, in call
    order. *)
Definition awakes (evs : list Event) : list nat :=
  omap (λ e, match e with EvSceneAwake t _ _ => Some t | _ => None end) evs.

(** The blits in a run of events: source and destination rectangle. *)
Definition blits (evs : list Event) : list (Rect * Rect) :=
  omap (λ e, match e with EvBlit src dst => Some (src, dst) | _ => None end) evs.

(** ** Machine integers *)

(** A value converted to [unsigned int] and to [int] (32 bits). *)
Definition u32 (z : Z) : Z := z mod 2 ^ 32.
Definition i32 (z : Z) : Z := (z + 2 ^ 31) mod 2 ^ 32 - 2 ^ 31.

(** ** The state of the program *)

Record Application := {
  _windowSize : Z * Z;
  _isRunning : bool;
  _isEditor : bool;
  _currentScene : option nat;
  _targetScene : option nat;
  _renderOutput : option Framebuffer;
  _primaryViewport : Rect;
  _layers : list ApplicationLayer;
  _appSettings : json;
  isEscapePressed : bool;
  isGamePaused : bool;
  isGameStarted : bool
}.

Definition DEFAULT_WINDOW_WIDTH : Z := 1920.
Definition DEFAULT_WINDOW_HEIGHT : Z := 1080.
Definition _applicationName : string := "Resonance".

(** The constructor [Application::Application()]. *)
Definition Application_new : Application := {|
  _windowSize := (DEFAULT_WINDOW_WIDTH, DEFAULT_WINDOW_HEIGHT);
  _isRunning := false;
  _isEditor := false;
  _currentScene := None;
  _targetScene := None;
  _renderOutput := None;
  _primaryViewport := (0, 0, 0, 0);
  _layers := [];
  _appSettings := JNull;
  isEscapePressed := false;
  isGamePaused := false;
  isGameStarted := false
|}.

Definition set_windowSize (v : Z * Z) (a : Application) : Application :=
  {| _windowSize := v; _isRunning := _isRunning a; _isEditor := _isEditor a;
     _currentScene := _currentScene a; _targetScene := _targetScene a;
     _renderOutput := _renderOutput a; _primaryViewport := _primaryViewport a;
     _layers := _layers a; _appSettings := _appSettings a;
     isEscapePressed := isEscapePressed a; isGamePaused := isGamePaused a;
     isGameStarted := isGameStarted a |}.

Definition set_isRunning (v : bool) (a : Application) : Application :=
  {| _windowSize := _windowSize a; _isRunning := v; _isEditor := _isEditor a;
     _currentScene := _currentScene a; _targetScene := _targetScene a;
     _renderOutput := _renderOutput a; _primaryViewport := _primaryViewport a;
     _layers := _layers a; _appSettings := _appSettings a;
     isEscapePressed := isEscapePressed a; isGamePaused := isGamePaused a;
     isGameStarted := isGameStarted a |}.

Definition set_currentScene (v : option nat) (a : Application) : Application :=
  {| _windowSize := _windowSize a; _isRunning := _isRunning a; _isEditor := _isEditor a;
     _currentScene := v; _targetScene := _targetScene a;
     _renderOutput := _renderOutput a; _primaryViewport := _primaryViewport a;
     _layers := _layers a; _appSettings := _appSettings a;
     isEscapePressed := isEscapePressed a; isGamePaused := isGamePaused a;
     isGameStarted := isGameStarted a |}.

Definition set_targetScene (v : option nat) (a : Application) : Application :=
  {| _windowSize := _windowSize a; _isRunning := _isRunning a; _isEditor := _isEditor a;
     _currentScene := _currentScene a; _targetScene := v;
     _renderOutput := _renderOutput a; _primaryViewport := _primaryViewport a;
     _layers := _layers a; _appSettings := _appSettings a;
     isEscapePressed := isEscapePressed a; isGamePaused := isGamePaused a;
     isGameStarted := isGameStarted a |}.

Definition set_renderOutput (v : option Framebuffer) (a : Application) : Application :=
  {| _windowSize := _windowSize a; _isRunning := _isRunning a; _isEditor := _isEditor a;
     _currentScene := _currentScene a; _targetScene := _targetScene a;
     _renderOutput := v; _primaryViewport := _primaryViewport a;
     _layers := _layers a; _appSettings := _appSettings a;
     isEscapePressed := isEscapePressed a; isGamePaused := isGamePaused a;
     isGameStarted := isGameStarted a |}.

Definition set_primaryViewport (v : Rect) (a : Application) : Application :=
  {| _windowSize := _windowSize a; _isRunning := _isRunning a; _isEditor := _isEditor a;
     _currentScene := _currentScene a; _targetScene := _targetScene a;
     _renderOutput := _renderOutput a; _primaryViewport := v;
     _layers := _layers a; _appSettings := _appSettings a;
     isEscapePressed := isEscapePressed a; isGamePaused := isGamePaused a;
     isGameStarted := isGameStarted a |}.

Definition set_layers (v : list ApplicationLayer) (a : Application) : Application :=
  {| _windowSize := _windowSize a; _isRunning := _isRunning a; _isEditor := _isEditor a;
     _currentScene := _currentScene a; _targetScene := _targetScene a;
     _renderOutput := _renderOutput a; _primaryViewport := _primaryViewport a;
     _layers := v; _appSettings := _appSettings a;
     isEscapePressed := isEscapePressed a; isGamePaused := isGamePaused a;
     isGameStarted := isGameStarted a |}.

Definition set_appSettings (v : json) (a : Application) : Application :=
  {| _windowSize := _windowSize a; _isRunning := _isRunning a; _isEditor := _isEditor a;
     _currentScene := _currentScene a; _targetScene := _targetScene a;
     _renderOutput := _renderOutput a; _primaryViewport := _primaryViewport a;
     _layers := _layers a; _appSettings := v;
     isEscapePressed := isEscapePressed a; isGamePaused := isGamePaused a;
     isGameStarted := isGameStarted a |}.

(** The three game-state flags [isEscapePressed], [isGamePaused] and
    [isGameStarted], written together. *)
Definition set_gameFlags (esc paused started : bool) (a : Application) : Application :=
  {| _windowSize := _windowSize a; _isRunning := _isRunning a; _isEditor := _isEditor a;
     _currentScene := _currentScene a; _targetScene := _targetScene a;
     _renderOutput := _renderOutput a; _primaryViewport := _primaryViewport a;
     _layers := _layers a; _appSettings := _appSettings a;
     isEscapePressed := esc; isGamePaused := paused; isGameStarted := started |}.

(** ** Paths (std::filesystem::path) *)

Definition is_separator (c : ascii) : bool :=
  bool_decide (c = "/"%char) || bool_decide (c = "\"%char).

Definition is_letter (c : ascii) : bool :=
  let n := nat_of_ascii c in
  ((65 <=? n)%nat && (n <=? 90)%nat) || ((97 <=? n)%nat && (n <=? 122)%nat).

(** The path without its root name (a drive such as [C:]). *)
Definition skip_root_name (cs : list ascii) : list ascii :=
  match cs with
  | d :: c :: rest => if is_letter d && bool_decide (c = ":"%char) then rest else cs
  | _ => cs
  end.

(** [path::filename()]: what follows the last separator. *)
Definition filename_chars (cs : list ascii) : list ascii :=
  fold_left (λ acc c, if is_separator c then [] else acc ++ [c]) (skip_root_name cs) [].

(** [path::stem()] of a file name: the name up to its last period; the names
    [.] and [..], a name without a period, and a name whose only period comes
    first are their own stem. *)
Definition stem_chars (f : list ascii) : list ascii :=
  if bool_decide (f = ["."%char]) || bool_decide (f = ["."%char; "."%char]) then f
  else match list_find (λ c, c = "."%char) (reverse f) with
       | Some (j, _) =>
           let i := (length f - 1 - j)%nat in
           if bool_decide (i = 0%nat) then f else take i f
       | None => f
       end.

(** [std::filesystem::path(path).stem().string()] *)
Definition stem (path : string) : string :=
  String.string_of_list_ascii (stem_chars (filename_chars (String.list_ascii_of_string path))).

(** [a / b] for a relative [b]: a separator is put in between unless [a] is
    empty or already ends with one (or with the colon of a drive). *)
Definition path_append (a b : string) : string :=
  match last (String.list_ascii_of_string a) with
  | None => b
  | Some c =>
      if is_separator c || bool_decide (c = ":"%char) then a +:+ b
      else a +:+ "\" +:+ b
  end.

(** ** The world the program runs in *)

(** What a path that exists names: a directory, or a file with its text. *)
Inductive Entry :=
| Directory
| File (content : string).

#[global] Instance Entry_eq_dec : EqDecision Entry.
Proof. solve_decision. Defined.

(** The part of the file system the program looks at. [files] holds every
    path that exists. [sceneFiles] is what [Scene::Load] builds from a path;
    [None] is a null pointer. [APPDATA] is the variable of the environment,
    [None] when it is not set. *)
Record Disk := {
  APPDATA : option string;
  files : gmap string Entry;
  sceneFiles : string → option Scene
}.

Definition withFile (path : string) (e : Entry) (d : Disk) : Disk :=
  {| APPDATA := APPDATA d; files := <[path := e]> (files d);
     sceneFiles := sceneFiles d |}.

(** [std::filesystem::exists(path)] *)
Definition file_exists (path : string) (d : Disk) : bool :=
  bool_decide (is_Some (files d !! path)).

(** Whether [path] names a directory. The empty path stands for the
    current directory, which exists. *)
Definition is_directory (path : string) (d : Disk) : bool :=
  bool_decide (path = "") || bool_decide (files d !! path = Some Directory).

(** The text of the file at [path], if [path] is a file. *)
Definition file_text (path : string) (d : Disk) : option string :=
  match files d !! path with
  | Some (File content) => Some content
  | _ => None
  end.

(** The disk after text is written through an output stream opened on
    [dir / name]: the stream opens when [dir] is a directory and the path is
    not one itself; a stream that did not open writes nothing. *)
Definition written (dir name content : string) (d : Disk) : Disk :=
  if is_directory dir d
     && negb (bool_decide (files d !! path_append dir name = Some Directory))
  then withFile (path_append dir name) (File content) d
  else d.

(** The concrete layers the program registers; their classes are not under
    src/. *)
Record BuiltinLayers := {
  GLAppLayer : ApplicationLayer;
  DefaultSceneLayer : ApplicationLayer;
  LogicUpdateLayer : ApplicationLayer;
  RenderLayer : ApplicationLayer;
  ParticleLayer : ApplicationLayer;
  InterfaceLayer : ApplicationLayer;
  ImGuiDebugLayer : ApplicationLayer
}.

(** The layers of a list with their positions, in registration order. *)
Definition indexed (ls : list ApplicationLayer) : list (nat * ApplicationLayer) :=
  imap (λ i l, (i, l)) ls.

(** The positions of the layers that are enabled and override [f], in
    registration order. *)
Definition eligible `{FlagLayout} (f : AppLayerFunctions) (ls : list ApplicationLayer) : list nat :=
  fst <$> filter (λ p, overrides f p.2 = true) (indexed ls).

(** [cond ? a : b] on a shared pointer to a framebuffer:
    [layerResult != nullptr ? layerResult : result] *)
Definition orElse (layerResult result : option Framebuffer) : option Framebuffer :=
  match layerResult with Some r => Some r | None => result end.

(** [{ viewport.x, viewport.y, viewport.x + viewport.z, viewport.y + viewport.w }]:
    the sums are taken on unsigned integers, the result holds signed ones. *)
Definition viewportMinMax (viewport : Rect) : Rect :=
  let '(x, y, z, w) := viewport in
  (i32 x, i32 y, i32 (u32 (x + z)), i32 (u32 (y + w))).

(** The last non-null output of a sequence of outputs. *)
Definition lastNonNull (outs : list (option Framebuffer)) : option Framebuffer :=
  last (omap id outs).

Section Model.
Context {F : Type} {AF : Arith F} {FL : FlagLayout} {JT : JsonText}.

(** *** Timing *)

Record Timing := {
  _timeScale : F;
  _deltaTime : F;
  _unscaledDeltaTime : F;
  _timeSinceAppLoad : F;
  _unscaledTimeSinceAppLoad : F;
  _timeSinceSceneLoad : F;
  _unscaledTimeSinceSceneLoad : F
}.

(** "Update all timing values" of one frame, for the unscaled delta [dt]. *)
Definition updateTiming (dt : F) (timing : Timing) : Timing :=
  let scaledDt := fmul dt (_timeScale timing) in
  {| _timeScale := _timeScale timing;
     _unscaledDeltaTime := dt;
     _deltaTime := scaledDt;
     _timeSinceAppLoad := fadd (_timeSinceAppLoad timing) scaledDt;
     _unscaledTimeSinceAppLoad := fadd (_unscaledTimeSinceAppLoad timing) dt;
     _timeSinceSceneLoad := fadd (_timeSinceSceneLoad timing) scaledDt;
     _unscaledTimeSinceSceneLoad := fadd (_unscaledTimeSinceSceneLoad timing) dt |}.

(** What one iteration of the loop reads from the window and the clock:
    the keys as [glfwGetKey] reports them, [glfwWindowShouldClose] after
    the poll, the size [glfwGetWindowSize] reports, and
    [static_cast<float>(thisFrame - lastFrame)]. *)
Record FrameInput := {
  keySpace : bool;
  keyEscape : bool;
  keyE : bool;
  shouldClose : bool;
  glfwWindowSize : Z * Z;
  dt : F
}.

Record World := {
  app : Application;
  timing : Timing;
  scenes : gmap nat Scene;
  disk : Disk;
  trace : list Event
}.

Definition set_app (v : Application) (w : World) : World :=
  {| app := v; timing := timing w; scenes := scenes w; disk := disk w; trace := trace w |}.
Definition set_timing (v : Timing) (w : World) : World :=
  {| app := app w; timing := v; scenes := scenes w; disk := disk w; trace := trace w |}.
Definition set_scenes (v : gmap nat Scene) (w : World) : World :=
  {| app := app w; timing := timing w; scenes := v; disk := disk w; trace := trace w |}.
Definition set_disk (v : Disk) (w : World) : World :=
  {| app := app w; timing := timing w; scenes := scenes w; disk := v; trace := trace w |}.
Definition set_trace (v : list Event) (w : World) : World :=
  {| app := app w; timing := timing w; scenes := scenes w; disk := disk w; trace := v |}.

(** *** Computations

    A computation transforms the world and returns a value, or stops the
    program ([None]): a null pointer is dereferenced or an exception
    escapes. The world at that point is kept. *)
Definition M (A : Type) : Type := World → option A * World.

#[global] Instance M_ret : MRet M := λ A x w, (Some x, w).
#[global] Instance M_bind : MBind M := λ A B k m w,
  match m w with
  | (Some x, w') => k x w'
  | (None, w') => (None, w')
  end.

Definition crash {A : Type} : M A := λ w, (None, w).
Definition getApp : M Application := λ w, (Some (app w), w).
Definition getDisk : M Disk := λ w, (Some (disk w), w).
Definition modApp (g : Application → Application) : M unit :=
  λ w, (Some (), set_app (g (app w)) w).
Definition modDisk (g : Disk → Disk) : M unit :=
  λ w, (Some (), set_disk (g (disk w)) w).
Definition modTiming (g : Timing → Timing) : M unit :=
  λ w, (Some (), set_timing (g (timing w)) w).
Definition emit (e : Event) : M unit :=
  λ w, (Some (), set_trace (trace w ++ [e]) w).

(** [*p] for a shared pointer to a Scene. *)
Definition deref (p : option nat) : M Scene := λ w,
  match p ≫= (scenes w !!.) with
  | Some s => (Some s, w)
  | None => (None, w)
  end.

(** A write through a shared pointer to a Scene. *)
Definition modScene (p : option nat) (g : Scene → Scene) : M unit := λ w,
  match p with
  | Some n =>
      match scenes w !! n with
      | Some s => (Some (), set_scenes (<[n := g s]> (scenes w)) w)
      | None => (None, w)
      end
  | None => (None, w)
  end.

Definition orCrash {A : Type} (o : option A) : M A :=
  match o with Some x => mret x | None => crash end.

Fixpoint forEach {A : Type} (body : A → M unit) (xs : list A) : M unit :=
  match xs with
  | [] => mret ()
  | x :: xs' => body x ;; forEach body xs'
  end.

Fixpoint foldM {A S : Type} (body : S → A → M S) (s : S) (xs : list A) : M S :=
  match xs with
  | [] => mret s
  | x :: xs' => s' ← body s x; foldM body s' xs'
  end.

(** The events a computation adds to the trace of [w]. *)
Definition emitted {A : Type} (m : M A) (w : World) : list Event :=
  drop (length (trace w)) (trace (m w).2).

(** The world a computation leaves. *)
Definition exec {A : Type} (m : M A) (w : World) : World := (m w).2.

(** *** Entry points of the Application *)

(** [Application::Quit] *)
Definition Quit : M unit := modApp (set_isRunning false).

(** [Application::LoadScene(const Gameplay::Scene::Sptr&)] *)
Definition LoadScene_ptr (scene : option nat) : M unit :=
  modApp (set_targetScene scene).

(** [Gameplay::Scene::Load(path)]: the scene built from the file becomes a
    new object on the heap; the result is the pointer to it, or null. *)
Definition Scene_Load (path : string) : M (option nat) := λ w,
  let w1 := set_trace (trace w ++ [EvSceneLoad path]) w in
  match sceneFiles (disk w) path with
  | Some s =>
      let p := fresh (dom (scenes w)) in
      (Some (Some p), set_scenes (<[p := s]> (scenes w)) w1)
  | None => (Some None, w1)
  end.

(** [Application::LoadScene(const std::string&)]. The statements after the
    [return] inside the branch are never reached and are left out. *)
Definition LoadScene (path : string) : M bool :=
  d ← getDisk;
  if file_exists path d then
    modApp (set_gameFlags false false true);;
    let manifestPath := stem path +:+ "-manifest.json" in
    d ← getDisk;
    (if file_exists manifestPath d then emit (EvLoadManifest manifestPath)
     else mret ());;
    scene ← Scene_Load path;
    LoadScene_ptr scene;;
    mret (bool_decide (scene ≠ None))
  else mret false.

(** [std::filesystem::create_directory(parent / name)]: as mkdir does, it
    makes one directory, and it throws when the directory it is to be made
    in does not exist. *)
Definition create_directory (parent name : string) : M unit :=
  d ← getDisk;
  if is_directory parent d then
    emit (EvCreateDirectory (path_append parent name));;
    modDisk (withFile (path_append parent name) Directory)
  else crash.

(** Modelled from the spec: [FileHelpers::WriteContentsToFile] is not under
    src/; the specification says that the settings are written out to the
    settings path. The text goes through an output stream, see [written]. *)
Definition WriteContentsToFile (dir name content : string) : M unit :=
  emit (EvWriteFile (path_append dir name) content);;
  modDisk (written dir name content).

(** [Application::SaveSettings] *)
Definition SaveSettings : M unit :=
  d ← getDisk;
  appdata ← orCrash (APPDATA d);
  let dir := path_append appdata _applicationName in
  (if negb (file_exists dir d)
   then create_directory appdata _applicationName
   else mret ());;
  a ← getApp;
  content ← orCrash (dump (_appSettings a));
  WriteContentsToFile dir "app-settings.json" content.

(** *** Calling a hook *)

Definition callApi (c : ApiCall) : M unit :=
  match c with
  | ApiQuit => Quit
  | ApiLoadScene scene => LoadScene_ptr scene
  end.

(** [layer->f(args)] for the layer at position [i]. *)
Definition invoke (f : AppLayerFunctions) (args : HookArgs)
    (i : nat) (layer : ApplicationLayer) : M unit :=
  a ← getApp;
  emit (EvHook f i args (_currentScene a));;
  forEach callApi (Hooks layer f).

(** *** The dispatchers *)

(** [Application::_Load] *)
Definition _Load : M unit :=
  a ← getApp;
  forEach (λ '(i, layer),
    if overrides OnAppLoad layer then
      a ← getApp; invoke OnAppLoad (AppLoadArgs (_appSettings a)) i layer
    else mret ()) (indexed (_layers a));;
  emit (EvSwapInterval 1);;
  emit EvInputInit;;
  emit EvImGuiInit;;
  a ← getApp;
  emit (EvGuiBatcherSetWindowSize (_windowSize a)).

(** [Application::_Update] *)
Definition _Update : M unit :=
  a ← getApp;
  forEach (λ '(i, layer),
    if overrides OnUpdate layer then invoke OnUpdate NoArgs i layer
    else mret ()) (indexed (_layers a)).

(** [Application::_LateUpdate] *)
Definition _LateUpdate : M unit :=
  a ← getApp;
  forEach (λ '(i, layer),
    if overrides OnLateUpdate layer then invoke OnLateUpdate NoArgs i layer
    else mret ()) (indexed (_layers a)).

(** [Application::_PreRender]; [size] is what [glfwGetWindowSize] stores. *)
Definition _PreRender (size : Z * Z) : M unit :=
  emit (EvViewport (0, 0, size.1, size.2));;
  emit (EvScissor (0, 0, size.1, size.2));;
  emit EvClear;;
  a ← getApp;
  forEach (λ '(i, layer),
    if overrides OnPreRender layer then invoke OnPreRender NoArgs i layer
    else mret ()) (indexed (_layers a)).

(** [Application::_RenderScene] *)
Definition _RenderScene : M unit :=
  a ← getApp;
  result ← foldM (λ result '(i, layer),
    if overrides OnRender layer then
      invoke OnRender (RenderArgs result) i layer;;
      let layerResult := GetRenderOutput layer in
      mret (orElse layerResult result)
    else mret result) None (indexed (_layers a));
  modApp (set_renderOutput result).

(** [Application::_PostRender] *)
Definition _PostRender : M unit :=
  a ← getApp;
  forEach (λ '(i, layer),
    if overrides OnPostRender layer then
      invoke OnPostRender NoArgs i layer;;
      let layerResult := GetPostRenderOutput layer in
      modApp (λ a, set_renderOutput (orElse layerResult (_renderOutput a)) a)
    else mret ()) (reverse (indexed (_layers a)));;
  a ← getApp;
  let viewport := _primaryViewport a in
  let '(x, y, z, w) := viewport in
  emit (EvViewport (i32 x, i32 y, i32 z, i32 w));;
  emit (EvScissor (i32 x, i32 y, i32 z, i32 w));;
  match _renderOutput a with
  | Some out =>
      emit (EvUnbind out);;
      emit (EvBindRead out);;
      emit EvBindWriteDefault;;
      emit (EvBlit (0, 0, i32 (GetWidth out), i32 (GetHeight out))
                   (viewportMinMax viewport))
  | None => mret ()
  end.

(** [Application::_Unload] *)
Definition _Unload : M unit :=
  a ← getApp;
  forEach (λ '(i, layer),
    if overrides OnAppUnload layer then invoke OnAppUnload NoArgs i layer
    else mret ()) (reverse (indexed (_layers a)));;
  emit EvImGuiCleanup.

(** [Application::_HandleSceneChange] *)
Definition _HandleSceneChange : M unit :=
  a ← getApp;
  (if bool_decide (_currentScene a ≠ None) then
     forEach (λ '(i, layer),
       if overrides OnSceneUnload layer then invoke OnSceneUnload NoArgs i layer
       else mret ()) (reverse (indexed (_layers a)))
   else mret ());;
  modApp (λ a, set_currentScene (_targetScene a) a);;
  a ← getApp;
  forEach (λ '(i, layer),
    if overrides OnSceneLoad layer then invoke OnSceneLoad NoArgs i layer
    else mret ()) (indexed (_layers a));;
  a ← getApp;
  s ← deref (_currentScene a);
  emit (EvSceneAwake (default 0%nat (_currentScene a)) (IsPlaying s) (_targetScene a));;
  modScene (_currentScene a) Scene_Awake;;
  (if negb (_isEditor a) then modScene (_currentScene a) (withIsPlaying true)
   else mret ());;
  modApp (set_targetScene None).

(** [Application::_HandleWindowSizeChanged] *)
Definition _HandleWindowSizeChanged (newSize : Z * Z) : M unit :=
  a ← getApp;
  forEach (λ '(i, layer),
    if overrides OnWindowResize layer then
      a ← getApp; invoke OnWindowResize (ResizeArgs (_windowSize a) newSize) i layer
    else mret ()) (indexed (_layers a));;
  modApp (set_windowSize newSize);;
  modApp (set_primaryViewport (0, 0, u32 newSize.1, u32 newSize.2)).

(** [Application::ResizeWindow] *)
Definition ResizeWindow (newSize : Z * Z) : M unit :=
  _HandleWindowSizeChanged newSize.

(** The dispatcher of each hook. [OnSceneLoad] and [OnSceneUnload] are both
    dispatched by the scene transition. *)
Definition dispatcher (f : AppLayerFunctions) (size : Z * Z) : M unit :=
  match f with
  | OnAppLoad => _Load
  | OnAppUnload => _Unload
  | OnSceneLoad | OnSceneUnload => _HandleSceneChange
  | OnUpdate => _Update
  | OnLateUpdate => _LateUpdate
  | OnPreRender => _PreRender size
  | OnRender => _RenderScene
  | OnPostRender => _PostRender
  | OnWindowResize => _HandleWindowSizeChanged size
  end.

(** *** Settings *)

(** [Application::_GetDefaultAppSettings]. [nlohmann::json result = {}]
    value-initialises the document, which is null until the first write. *)
Definition _GetDefaultAppSettings : M json :=
  a ← getApp;
  result ← foldM (λ result layer,
    if negb (bool_decide (Name layer = "")) then
      orCrash (json_set (Name layer) (GetDefaultConfig layer) result)
    else
      emit EvLogWarn;;
      mret (merge_patch result (GetDefaultConfig layer))) JNull (_layers a);
  result ← orCrash (json_set "window_width" (JNum DEFAULT_WINDOW_WIDTH) result);
  result ← orCrash (json_set "window_height" (JNum DEFAULT_WINDOW_HEIGHT) result);
  mret result.

(** Modelled from the spec: [FileHelpers::ReadFile] is not under src/. The
    persisted settings document is read from its file; a path that is not a
    file gives no text, and the program does not get past the parser. *)
Definition ReadFile (path : string) : M string :=
  d ← getDisk;
  orCrash (file_text path d).

(** [Application::_ConfigureSettings] *)
Definition _ConfigureSettings : M unit :=
  defaults ← _GetDefaultAppSettings;
  modApp (set_appSettings defaults);;
  d ← getDisk;
  appdata ← orCrash (APPDATA d);
  let settingsPath :=
    path_append (path_append appdata _applicationName) "app-settings.json" in
  if file_exists settingsPath d then
    content ← ReadFile settingsPath;
    blob ← orCrash (parse content);
    modApp (λ a, set_appSettings (merge_patch (_appSettings a) blob) a)
  else SaveSettings.

(** Modelled from the spec: the helper [JsonGet] is not under src/. The
    window size is initialised from the settings: the integer stored under
    the key, the default when the key is absent; a value of another type
    cannot be read as an integer and stops the program. *)
Definition JsonGet (blob : json) (key : string) (defaultRet : Z) : M Z :=
  match json_find key blob with
  | Some (JNum n) => mret n
  | Some _ => crash
  | None => mret defaultRet
  end.

(** [Application::_RegisterClasses] only fills the registries of the
    resource and component managers. *)
Definition _RegisterClasses : M unit := emit EvRegisterClasses.

(** *** One iteration of the loop of [Application::_Run] *)

(** [obj->Get<RenderComponent>()->IsEnabled = b] for
    [obj = _currentScene->FindObjectByName(name)]. *)
Definition setRenderEnabled (name : string) (b : bool) : M unit :=
  a ← getApp;
  s ← deref (_currentScene a);
  i ← orCrash (FindObjectByName name s);
  o ← orCrash (Objects s !! i);
  _ ← orCrash (RenderComponent o);
  modScene (_currentScene a) (withObjects (<[i := withRenderEnabled b o]> (Objects s))).

(** The same for the [GuiPanel] of the object at position [i]. *)
Definition setPanelEnabled (i : nat) (b : bool) : M unit :=
  a ← getApp;
  s ← deref (_currentScene a);
  o ← orCrash (Objects s !! i);
  _ ← orCrash (GuiPanel o);
  modScene (_currentScene a) (withObjects (<[i := withPanelEnabled b o]> (Objects s))).

(** [_currentScene->audioManager->Get<AudioManager>()], then a call [ev]
    on it. *)
Definition onAudioManager (ev : Event) : M unit :=
  a ← getApp;
  s ← deref (_currentScene a);
  o ← orCrash (audioManager s);
  if AudioManager o then emit ev else crash.

(** "Handle scene switching" *)
Definition sceneSwitching : M unit :=
  a ← getApp;
  if bool_decide (_targetScene a ≠ None) then _HandleSceneChange else mret ().

(** The start screen and the loading screen; [isSwappingScenesCur] is the
    local variable of [_Run], passed in and out. *)
Definition startScreen (inp : FrameInput) (isSwappingScenesCur : bool) : M bool :=
  a ← getApp;
  s ← deref (_currentScene a);
  if (bool_decide (is_Some (FindObjectByName "StartScreenPlane" s)) && keySpace inp)
     || isSwappingScenesCur
  then
    setRenderEnabled "StartScreenPlane" false;;
    setRenderEnabled "LoadingScreenPlane" true;;
    if isSwappingScenesCur then
      onAudioManager (EvUnloadSound "Title");;
      onAudioManager (EvPlaySound "Transition");;
      _ ← LoadScene "level1.json";
      mret false
    else mret true
  else mret isSwappingScenesCur.

(** "Check to see if pause game", and the pause screen. *)
Definition pauseScreen (inp : FrameInput) : M unit :=
  (if keyEscape inp then
     modApp (λ a, set_gameFlags true
                   (if negb (isEscapePressed a) && isGameStarted a
                    then negb (isGamePaused a) else isGamePaused a)
                   (isGameStarted a) a)
   else
     modApp (λ a, set_gameFlags false (isGamePaused a) (isGameStarted a) a));;
  a ← getApp;
  s ← deref (_currentScene a);
  match FindObjectByName "PauseScreen" s with
  | Some i => setPanelEnabled i (isGamePaused a)
  | None => mret ()
  end.

(** The reload of the level on request. *)
Definition sceneReload (inp : FrameInput) : M unit :=
  a ← getApp;
  s ← deref (_currentScene a);
  if requestSceneReload s && keyE inp then
    _ ← LoadScene "Level1.json";
    modScene (_currentScene a) (withIsPlaying true)
  else mret ().

(** [glfwPollEvents] and "Handle closing the app via the close button". *)
Definition pollEvents (inp : FrameInput) : M unit :=
  emit EvPollEvents;;
  if shouldClose inp then modApp (set_isRunning false) else mret ().

(** "Update all timing values" *)
Definition timingUpdate (inp : FrameInput) : M unit :=
  modTiming (updateTiming (dt inp)).

(** "Core update loop" *)
Definition coreUpdate (inp : FrameInput) : M unit :=
  a ← getApp;
  if bool_decide (_currentScene a ≠ None) then
    _Update;;
    _LateUpdate;;
    _PreRender (glfwWindowSize inp);;
    _RenderScene;;
    _PostRender
  else mret ().

(** The end of the frame. *)
Definition endFrame : M unit :=
  emit EvInputEndFrame;;
  emit EvImGuiEndFrame;;
  emit EvSwapBuffers.

(** What follows the poll in the body of the loop: the timing update, the
    five phases and the end of the frame. *)
Definition afterPoll (inp : FrameInput) : M unit :=
  timingUpdate inp;;
  emit EvImGuiStartFrame;;
  coreUpdate inp;;
  endFrame.

(** What follows the scene switching in the body of the loop. *)
Definition frameRest (inp : FrameInput) (isSwappingScenesCur : bool) : M bool :=
  swapping ← startScreen inp isSwappingScenesCur;
  pauseScreen inp;;
  sceneReload inp;;
  pollEvents inp;;
  afterPoll inp;;
  mret swapping.

(** The body of [while (_isRunning)]. *)
Definition frame (inp : FrameInput) (isSwappingScenesCur : bool) : M bool :=
  sceneSwitching;;
  frameRest inp isSwappingScenesCur.

(** How the loop was left: the running flag was found cleared, or the
    inputs ran out while the program was still running. *)
Inductive LoopExit := Stopped | OutOfFrames.

(** [while (_isRunning) { ... }], one input per iteration. *)
Fixpoint mainLoop (inputs : list FrameInput) (isSwappingScenesCur : bool)
    {struct inputs} : M LoopExit :=
  λ w,
    if _isRunning (app w) then
      match inputs with
      | [] => (Some OutOfFrames, w)
      | inp :: rest =>
          match frame inp isSwappingScenesCur w with
          | (Some swapping, w') => mainLoop rest swapping w'
          | (None, w') => (None, w')
          end
      end
    else (Some Stopped, w).

(** [Application::_Run] *)
Definition _Run (builtin : BuiltinLayers) (inputs : list FrameInput) : M LoopExit :=
  modApp (λ a, set_layers (_layers a ++
    [GLAppLayer builtin; DefaultSceneLayer builtin; LogicUpdateLayer builtin;
     RenderLayer builtin; ParticleLayer builtin; InterfaceLayer builtin]) a);;
  a ← getApp;
  (if _isEditor a
   then modApp (λ a, set_layers (_layers a ++ [ImGuiDebugLayer builtin]) a)
   else mret ());;
  _ConfigureSettings;;
  a ← getApp;
  width ← JsonGet (_appSettings a) "window_width" DEFAULT_WINDOW_WIDTH;
  height ← JsonGet (_appSettings a) "window_height" DEFAULT_WINDOW_HEIGHT;
  modApp (set_windowSize (width, height));;
  modApp (set_primaryViewport (0, 0, u32 width, u32 height));;
  _RegisterClasses;;
  _Load;;
  modApp (set_isRunning true);;
  exit ← mainLoop inputs false;
  match exit with
  | Stopped => _Unload;; mret Stopped
  | OutOfFrames => mret OutOfFrames
  end.

(** A run of frames one after the other, whatever the running flag. *)
Fixpoint frames (inputs : list FrameInput) (isSwappingScenesCur : bool)
    {struct inputs} : M bool :=
  match inputs with
  | [] => mret isSwappingScenesCur
  | inp :: rest => swapping ← frame inp isSwappingScenesCur; frames rest swapping
  end.

End Model.

(** ** What a dispatch amounts to *)

(** The effect of one entry point on the Application. *)
Definition applyApi (c : ApiCall) (a : Application) : Application :=
  match c with
  | ApiQuit => set_isRunning false a
  | ApiLoadScene scene => set_targetScene scene a
  end.

Definition applyApis (cs : list ApiCall) (a : Application) : Application :=
  foldl (λ a c, applyApi c a) a cs.

(** The layers of [xs] a dispatch of [f] calls, in the order of [xs]. *)
Definition called `{FlagLayout} (f : AppLayerFunctions)
    (xs : list (nat * ApplicationLayer)) : list (nat * ApplicationLayer) :=
  filter (λ p, overrides f p.2 = true) xs.

(** The entry points their hooks call, one hook after the other. *)
Definition scripts `{FlagLayout} (f : AppLayerFunctions)
    (xs : list (nat * ApplicationLayer)) : list ApiCall :=
  called f xs ≫= λ p, Hooks p.2 f.

(** The calls of hook [f], all with the same arguments, while the current
    scene is [cur]. *)
Definition hookEvents `{FlagLayout} (f : AppLayerFunctions) (args : HookArgs)
    (cur : option nat) (xs : list (nat * ApplicationLayer)) : list Event :=
  (λ p, EvHook f p.1 args cur) <$> called f xs.

(** The calls of [OnRender]: each layer is passed the result carried so far. *)
Fixpoint renderEvents `{FlagLayout} (cur : option nat) (result : option Framebuffer)
    (xs : list (nat * ApplicationLayer)) : list Event :=
  match xs with
  | [] => []
  | (i, layer) :: xs' =>
      if overrides OnRender layer then
        EvHook OnRender i (RenderArgs result) cur
          :: renderEvents cur (orElse (GetRenderOutput layer) result) xs'
      else renderEvents cur result xs'
  end.

(** The result carried through a sequence of outputs, starting from [result]. *)
Definition carry (result : option Framebuffer) (outs : list (option Framebuffer))
    : option Framebuffer :=
  foldl (λ r out, orElse out r) result outs.

(** The calls the end of [_PostRender] makes for the final output. *)
Definition blitEvents (viewport : Rect) (output : option Framebuffer) : list Event :=
  let '(x, y, z, w) := viewport in
  [EvViewport (i32 x, i32 y, i32 z, i32 w); EvScissor (i32 x, i32 y, i32 z, i32 w)] ++
  match output with
  | Some out =>
      [EvUnbind out; EvBindRead out; EvBindWriteDefault;
       EvBlit (0, 0, i32 (GetWidth out), i32 (GetHeight out))
              (viewportMinMax viewport)]
  | None => []
  end.

(** The hooks of the five phases of a frame. *)
Definition framePhases : list AppLayerFunctions :=
  [OnUpdate; OnLateUpdate; OnPreRender; OnRender; OnPostRender].

(** The result [_RenderScene] stores: what is carried through the outputs of
    the layers called, starting from null. *)
Definition renderResult `{FlagLayout} (xs : list (nat * ApplicationLayer))
    : option Framebuffer :=
  carry None ((λ p, GetRenderOutput p.2) <$> called OnRender xs).

(** The result [_PostRender] leaves, starting from the one stored before. *)
Definition postResult `{FlagLayout} (result : option Framebuffer)
    (xs : list (nat * ApplicationLayer)) : option Framebuffer :=
  carry result ((λ p, GetPostRenderOutput p.2) <$> called OnPostRender xs).

(** The Application once the [OnSceneUnload] hooks of a scene transition have
    returned (they are only called when there is a current scene). *)
Definition unloadedApp `{FlagLayout} (a : Application) : Application :=
  if bool_decide (_currentScene a ≠ None)
  then applyApis (scripts OnSceneUnload (reverse (indexed (_layers a)))) a
  else a.

(** The calls of [OnSceneUnload] of a scene transition. *)
Definition unloadEvents `{FlagLayout} (a : Application) : list Event :=
  if bool_decide (_currentScene a ≠ None)
  then hookEvents OnSceneUnload NoArgs (_currentScene a) (reverse (indexed (_layers a)))
  else [].

(** The calls of [OnSceneLoad] of a scene transition; the hooks find the
    scene [cur] as the current one. *)
Definition loadEvents `{FlagLayout} (cur : option nat) (a : Application) : list Event :=
  hookEvents OnSceneLoad NoArgs cur (indexed (_layers a)).

(** The Application once the [OnSceneLoad] hooks have returned. *)
Definition loadedApp `{FlagLayout} (a : Application) : Application :=
  let a1 := unloadedApp a in
  applyApis (scripts OnSceneLoad (indexed (_layers a)))
    (set_currentScene (_targetScene a1) a1).

(** The scene that a transition has made current, after [Awake] and the
    write of [IsPlaying]; [editor] is [_isEditor]. *)
Definition awakenedScene (editor : bool) (s : Scene) : Scene :=
  if editor then Scene_Awake s else withIsPlaying true (Scene_Awake s).

(** The events of the five phases of a frame, for the layers [ls], the
    current scene [cur], the window size [size] and the primary viewport
    [viewport]. *)
Definition phaseEvents `{FlagLayout} (ls : list ApplicationLayer) (cur : option nat)
    (size : Z * Z) (viewport : Rect) : list Event :=
  let xs := indexed ls in
  hookEvents OnUpdate NoArgs cur xs ++
  hookEvents OnLateUpdate NoArgs cur xs ++
  [EvViewport (0, 0, size.1, size.2); EvScissor (0, 0, size.1, size.2); EvClear] ++
  hookEvents OnPreRender NoArgs cur xs ++
  renderEvents cur None xs ++
  hookEvents OnPostRender NoArgs cur (reverse xs) ++
  blitEvents viewport (postResult (renderResult xs) (reverse xs)).

(** The Application after the five phases. *)
Definition phaseApp `{FlagLayout} (a : Application) : Application :=
  let xs := indexed (_layers a) in
  set_renderOutput (postResult (renderResult xs) (reverse xs))
    (applyApis (scripts OnUpdate xs ++ scripts OnLateUpdate xs ++
                scripts OnPreRender xs ++ scripts OnRender xs ++
                scripts OnPostRender (reverse xs)) a).

Section Worlds.
Context {F : Type}.

(** The world after steps that only touch the Application and the trace. *)
Definition after (a : Application) (evs : list Event) (w : @World F) : @World F :=
  {| app := a; timing := timing w; scenes := scenes w; disk := disk w;
     trace := trace w ++ evs |}.

(** The world with the running flag cleared. *)
Definition stopped (w : @World F) : @World F :=
  set_app (set_isRunning false (app w)) w.

(** The frame input with the close request set as given. *)
Definition withShouldClose (b : bool) (inp : @FrameInput F) : @FrameInput F :=
  {| keySpace := keySpace inp; keyEscape := keyEscape inp; keyE := keyE inp;
     shouldClose := b; glfwWindowSize := glfwWindowSize inp; dt := dt inp |}.

(** [m] takes every world to one related to it by [R]. *)
Definition preserves (R : relation (@World F)) {A : Type}
    (m : @World F → option A * @World F) : Prop :=
  ∀ w, R w (m w).2.

(** Every scene on the heap is still there, and [Awake] has run on its
    objects as often as before. *)
Definition awakeKept : relation (@World F) :=
  λ w w', ∀ t s, scenes w !! t = Some s →
    ∃ s', scenes w' !! t = Some s' ∧
          awakeCalls <$> Objects s' = awakeCalls <$> Objects s.

(** The trace has only grown. *)
Definition grown : relation (@World F) :=
  λ w w', trace w `prefix_of` trace w'.

(** The trace has only grown and the timing values are untouched. *)
Definition quiet : relation (@World F) :=
  λ w w', timing w' = timing w ∧ trace w `prefix_of` trace w'.
End Worlds.

(** The hooks whose dispatcher walks the layers with a reverse iterator. *)
Definition reverseOrder (f : AppLayerFunctions) : bool :=
  match f with
  | OnPostRender | OnSceneUnload | OnAppUnload => true
  | _ => false
  end.

Section TimingRuns.
Context {F : Type} {AF : Arith F}.

(** The timing values after frames with the unscaled deltas [ds]. *)
Definition timingAfter (ds : list F) (t0 : @Timing F) : @Timing F :=
  foldl (λ t d, updateTiming d t) t0 ds.

(** A running sum, in the arithmetic of the program. *)
Definition fsum (start : F) (ds : list F) : F := foldl fadd start ds.

(** A running sum of the deltas scaled by [s], each product rounded on its
    own. *)
Definition fsumScaled (s : F) (start : F) (ds : list F) : F :=
  foldl (λ acc d, fadd acc (fmul d s)) start ds.

(** The values computed on the way of [fsum]: the partial sums. *)
Fixpoint sumSteps (acc : F) (ds : list F) : list F :=
  match ds with
  | [] => []
  | d :: ds' => fadd acc d :: sumSteps (fadd acc d) ds'
  end.

(** The values computed on the way of [fsumScaled]: each product and each
    partial sum. *)
Fixpoint scaledSteps (s : F) (acc : F) (ds : list F) : list F :=
  match ds with
  | [] => []
  | d :: ds' =>
      fmul d s :: fadd acc (fmul d s) :: scaledSteps s (fadd acc (fmul d s)) ds'
  end.
End TimingRuns.

(** ** The values of binary32 *)

(** Neither an infinity nor a NaN. *)
Definition is_finite (x : binary32) : bool :=
  match x with S754_zero _ | S754_finite _ _ _ => true | _ => false end.

(** A zero, or a finite value whose exponent is not below that of the
    subnormal numbers, [-149]; every finite value of the format is one. *)
Definition finite32 (x : binary32) : bool :=
  match x with
  | S754_zero _ => true
  | S754_finite _ _ e => bool_decide (-149 ≤ e)
  | _ => false
  end.

(** The value of a number of the format, counted in units of [2^-149], the
    smallest positive number of the format. *)
Definition ticks (x : binary32) : Z :=
  match x with
  | S754_finite s m e => cond_Zopp s (Z.pos m * 2 ^ (e + 149))
  | _ => 0
  end.

(** The unit in the last place of a number of the format, in the same
    units: [2^e] for the mantissa [m] and the exponent [e]; one unit for a
    zero. *)
Definition ulp (x : binary32) : Z :=
  match x with
  | S754_finite _ _ e => 2 ^ (e + 149)
  | _ => 1
  end.

Definition total (xs : list Z) : Z := foldr Z.add 0 xs.

(** What it is for [r] to be a rounding of the magnitude [v], counted in
    units of [2^L], with the sign [s]: it is within half a unit in the last
    place of [r]. *)
Definition rounds (L : Z) (v : Z) (s : bool) (r : binary32) : Prop :=
  match r with
  | S754_zero s' => s' = s ∧ 2 * v ≤ 2 ^ (-149 - L)
  | S754_finite s' m e =>
      s' = s ∧ -149 ≤ e ∧ 2 * Z.abs (Z.pos m * 2 ^ (e - L) - v) ≤ 2 ^ (e - L)
  | S754_infinity _ => True
  | S754_nan => False
  end.

(** The state of a right shift of [m] by [k] places: the bits shifted out
    are the round bit and, below it, [t]. *)
Definition shifted (m : Z) (k : Z) (mrs : shr_record) : Prop :=
  ∃ t, 0 ≤ t < 2 ^ k ∧ (shr_s mrs = true ↔ t ≠ 0) ∧ 0 ≤ shr_m mrs ∧
       2 * m = 2 ^ (k + 1) * shr_m mrs + (if shr_r mrs then 2 ^ k else 0) + t.

(** ** The default settings as a function of the layers *)

(** The loop of [_GetDefaultAppSettings] over the layers: the document built
    ([None] when a write throws) and the warnings logged on the way. *)
Fixpoint aggregate (result : json) (ls : list ApplicationLayer) : option json * list Event :=
  match ls with
  | [] => (Some result, [])
  | layer :: ls' =>
      if negb (bool_decide (Name layer = "")) then
        match json_set (Name layer) (GetDefaultConfig layer) result with
        | Some r => aggregate r ls'
        | None => (None, [])
        end
      else
        let '(r, evs) := aggregate (merge_patch result (GetDefaultConfig layer)) ls' in
        (r, EvLogWarn :: evs)
  end.

(** The document [_GetDefaultAppSettings] returns for the layers [ls]. *)
Definition defaultAppSettings (ls : list ApplicationLayer) : option json :=
  r ← (aggregate JNull ls).1;
  r ← json_set "window_width" (JNum DEFAULT_WINDOW_WIDTH) r;
  json_set "window_height" (JNum DEFAULT_WINDOW_HEIGHT) r.

(** The path of the settings file below [appdata]. *)
Definition settingsPathOf (appdata : string) : string :=
  path_append (path_append appdata _applicationName) "app-settings.json".

(** The entry points the hooks of the five phases call, phase after phase. *)
Definition phaseScripts `{FlagLayout} (ls : list ApplicationLayer) : list ApiCall :=
  let xs := indexed ls in
  scripts OnUpdate xs ++ scripts OnLateUpdate xs ++ scripts OnPreRender xs ++
  scripts OnRender xs ++ scripts OnPostRender (reverse xs).

Section Iteration.
Context {F : Type} {AF : Arith F} {FL : FlagLayout} {JT : JsonText}.

(** The body of the loop up to the poll of the window. *)
Definition beforePoll (inp : @FrameInput F) (isSwappingScenesCur : bool) : @M F bool :=
  sceneSwitching;;
  swapping ← startScreen inp isSwappingScenesCur;
  pauseScreen inp;;
  sceneReload inp;;
  mret swapping.
End Iteration.

(** ** A small instance of the program *)

(** A layout of the hook bits: one bit per hook, in the order of the
    enumeration. *)
Definition demoLayout : FlagLayout := λ f,
  match f with
  | OnAppLoad => 0 | OnAppUnload => 1 | OnSceneLoad => 2 | OnSceneUnload => 3
  | OnUpdate => 4 | OnLateUpdate => 5 | OnPreRender => 6 | OnRender => 7
  | OnPostRender => 8 | OnWindowResize => 9
  end%N.

Definition demoBuffer : Framebuffer := {| fbId := 1; GetWidth := 640; GetHeight := 480 |}.

Definition noHooks : AppLayerFunctions → list ApiCall := λ _, [].

(** Overrides every hook and stages scene 0 when the application loads. *)
Definition sceneLayer : ApplicationLayer := {|
  Name := "Scenes"; Enabled := true; Overrides := 1023;
  GetDefaultConfig := JObj {[ "start" := JStr "menu" ]};
  GetRenderOutput := None; GetPostRenderOutput := None;
  Hooks := λ f, match f with OnAppLoad => [ApiLoadScene (Some 0%nat)] | _ => [] end
|}.

(** Overrides OnUpdate and OnLateUpdate; its update hook quits. *)
Definition logicLayer : ApplicationLayer := {|
  Name := "Logic"; Enabled := true; Overrides := 48;
  GetDefaultConfig := JObj ∅;
  GetRenderOutput := None; GetPostRenderOutput := None;
  Hooks := λ f, match f with OnUpdate => [ApiQuit] | _ => [] end
|}.

(** Overrides the scene hooks, OnRender and OnPostRender; renders into
    [demoBuffer]. *)
Definition renderLayer : ApplicationLayer := {|
  Name := "Render"; Enabled := true; Overrides := 396;
  GetDefaultConfig := JObj {[ "msaa" := JNum 4 ]};
  GetRenderOutput := Some demoBuffer; GetPostRenderOutput := None;
  Hooks := noHooks
|}.

(** Overrides every hook, but is disabled. *)
Definition offLayer : ApplicationLayer := {|
  Name := "Off"; Enabled := false; Overrides := 1023;
  GetDefaultConfig := JObj ∅;
  GetRenderOutput := None; GetPostRenderOutput := None;
  Hooks := noHooks
|}.

Definition demoLayers : list ApplicationLayer :=
  [sceneLayer; logicLayer; renderLayer; offLayer].

(** A scene with two objects, on which [Awake] has not run yet. *)
Definition demoScene : Scene := {|
  Objects := [
    {| goName := "Camera"; RenderComponent := None; GuiPanel := None;
       AudioManager := false; awakeCalls := 0 |};
    {| goName := "Player"; RenderComponent := Some true; GuiPanel := None;
       AudioManager := false; awakeCalls := 0 |} ];
  IsPlaying := false; requestSceneReload := false; audioManager := None
|}.

(** A disk with the directory of the user and the file of the first level. *)
Definition demoDisk : Disk := {|
  APPDATA := Some "C:\Users\me\AppData";
  files := {[ "C:\Users\me\AppData" := Directory; "level1.json" := File "level" ]};
  sceneFiles := λ path, if bool_decide (path = "level1.json") then Some demoScene else None
|}.

(** A text form of the documents for the small instance: a printer for
    [dump], and a [parse] that reads back the two documents the instance
    persists. *)
Definition quoted (s : string) : string :=
  let q := String (ascii_of_nat 34) EmptyString in q +:+ s +:+ q.

Fixpoint show (j : json) : string :=
  match j with
  | JNull => "null"
  | JBool b => if b then "true" else "false"
  | JNum n => pretty n
  | JStr s => quoted s
  | JArr l => "[" +:+ String.concat "," (show <$> l) +:+ "]"
  | JObj m =>
      "{" +:+ map_fold (λ k v acc, quoted k +:+ ":" +:+ show v +:+ ";" +:+ acc) "" m +:+ "}"
  end.

(** The Application with the demo layers and scene 0 as the current scene. *)
Definition demoApp : Application :=
  set_primaryViewport (0, 0, 1920, 1080)
    (set_isRunning true (set_currentScene (Some 0%nat) (set_layers demoLayers Application_new))).

Definition zeroTiming {F : Type} `{!Arith F} (scale : F) : @Timing F := {|
  _timeScale := scale; _deltaTime := fzero; _unscaledDeltaTime := fzero;
  _timeSinceAppLoad := fzero; _unscaledTimeSinceAppLoad := fzero;
  _timeSinceSceneLoad := fzero; _unscaledTimeSinceSceneLoad := fzero
|}.

(** binary32 constants: 1/10 (rounded), 1/2, 1 and 6. *)
Definition tenth : binary32 := b32 13421773 (-27).
Definition half : binary32 := b32 1 (-1).
Definition one : binary32 := b32 1 0.
Definition six : binary32 := b32 6 0.

Definition demoWorld : @World binary32 := {|
  app := demoApp; timing := zeroTiming one;
  scenes := {[ 0%nat := demoScene; 1%nat := demoScene ]};
  disk := demoDisk; trace := []
|}.

(** The demo world with the time scale 1/10. *)
Definition slowWorld : @World binary32 :=
  set_timing (zeroTiming tenth) demoWorld.

(** The demo world one second after the scene was loaded, with scene 1
    staged. *)
Definition stagedWorld : @World binary32 :=
  set_timing (updateTiming one (zeroTiming one))
    (set_app (set_targetScene (Some 1%nat) demoApp) demoWorld).

(** The demo world before any scene is loaded. *)
Definition emptyWorld : @World binary32 :=
  set_app (set_currentScene None demoApp) demoWorld.

(** The demo world on exact integer ticks, with the time scale 3. *)
Definition tickWorld : @World Z := {|
  app := demoApp; timing := @zeroTiming Z Z_arith 3;
  scenes := {[ 0%nat := demoScene; 1%nat := demoScene ]};
  disk := demoDisk; trace := []
|}.

Definition demoInput {F : Type} (d : F) : @FrameInput F := {|
  keySpace := false; keyEscape := false; keyE := false; shouldClose := false;
  glfwWindowSize := (1920, 1080); dt := d
|}.

(** A persisted settings document that gives [window_width] the value null. *)
Definition nullWidth : gmap string json := {[ "window_width" := JNull ]}.

(** The demo world with [nullWidth] as the persisted settings. *)
Definition persistedWorld : @World binary32 :=
  set_disk (withFile (settingsPathOf "C:\Users\me\AppData") (File (show (JObj nullWidth)))
              (withFile "C:\Users\me\AppData\Resonance" Directory demoDisk))
    demoWorld.

(** The demo world on a disk on which the directory that [APPDATA] names
    does not exist. *)
Definition bareWorld : @World binary32 :=
  set_disk {| APPDATA := Some "C:\Users\me\AppData"; files := ∅;
              sceneFiles := λ _, None |} demoWorld.

(** Three layers that all take part in the Render phase; only the second
    produces an output. *)
Definition carryLayers : list ApplicationLayer := [sceneLayer; renderLayer; sceneLayer].

Definition carryWorld : @World binary32 :=
  set_app (set_layers carryLayers demoApp) demoWorld.

(** The default settings of the demo layers. *)
Definition demoDefaults : json := default JNull (defaultAppSettings demoLayers).

Definition demoText : JsonText := {|
  dump := λ j, Some (show j);
  parse := λ text,
    if bool_decide (text = show demoDefaults) then Some demoDefaults
    else if bool_decide (text = show (JObj nullWidth)) then Some (JObj nullWidth)
    else None
|}.

(** ** The rest of the Application's interface *)

Section Interface.
Context {F : Type} {AF : Arith F} {FL : FlagLayout} {JT : JsonText}.

(** [Application::GetWindowSize] *)
Definition GetWindowSize : @M F (Z * Z) := a ← getApp; mret (_windowSize a).

(** [Application::GetPrimaryViewport] *)
Definition GetPrimaryViewport : @M F Rect := a ← getApp; mret (_primaryViewport a).

(** [Application::SetPrimaryViewport] *)
Definition SetPrimaryViewport (value : Rect) : @M F unit :=
  modApp (set_primaryViewport value).

(** The two hooks the scene transition dispatches. *)
Definition sceneHook (f : AppLayerFunctions) : bool :=
  match f with OnSceneLoad | OnSceneUnload => true | _ => false end.
End Interface.

(** The config of the last layer of [ls] registered under the name [k]. *)
Definition lastNamed (k : string) (ls : list ApplicationLayer) : option json :=
  GetDefaultConfig <$> last (filter (λ l, Name l = k) ls).

(** The layers of [ls] without a name. *)
Definition unnamed (ls : list ApplicationLayer) : list ApplicationLayer :=
  filter (λ l, Name l = "") ls.

(** The world with the layer list replaced. *)
Definition withLayers {F : Type} (ls : list ApplicationLayer) (w : @World F) : @World F :=
  set_app (set_layers ls (app w)) w.

(** A document without a null member at any depth of its objects (arrays
    are values of their own: a merge replaces them whole). *)
Inductive nullFree : json → Prop :=
| nullFree_bool b : nullFree (JBool b)
| nullFree_num n : nullFree (JNum n)
| nullFree_str s : nullFree (JStr s)
| nullFree_arr l : nullFree (JArr l)
| nullFree_obj m : (∀ k v, m !! k = Some v → nullFree v) → nullFree (JObj m).

(** Whether an event writes a file or creates a directory. *)
Definition writesDisk (e : Event) : bool :=
  match e with EvWriteFile _ _ | EvCreateDirectory _ => true | _ => false end.

(** ** What the steps of a run keep *)

Section Lifecycle.
Context {F : Type} {AF : Arith F} {FL : FlagLayout} {JT : JsonText}.

(** A step is steady when the part [π] of the Application is as before and
    the trace has grown by events that pass [P] at that part. *)
Definition steady {X : Type} (π : Application → X) (P : X → Event → Prop) :
    relation (@World F) :=
  λ w w', π (app w') = π (app w) ∧
          ∃ evs, trace w' = trace w ++ evs ∧ Forall (P (π (app w))) evs.

(** The event is no call of a hook, or a call of a hook that passes [ok]. *)
Definition hookOnly (ok : AppLayerFunctions → bool) (e : Event) : Prop :=
  match e with EvHook f _ _ _ => ok f = true | _ => True end.

(** The same, and the call saw [cur] as the current scene. *)
Definition hookSeen (ok : AppLayerFunctions → bool) (cur : option nat) (e : Event) : Prop :=
  match e with EvHook f _ _ scene => ok f = true ∧ scene = cur | _ => True end.

(** The part of the Application a frame keeps after the scene switching. *)
Definition layersAndScene (a : Application) : list ApplicationLayer * option nat :=
  (_layers a, _currentScene a).

(** The part of the Application the start of a run keeps once the layers
    are registered. *)
Definition layersAndScenes (a : Application) :
    list ApplicationLayer * option nat * option nat :=
  (_layers a, _currentScene a, _targetScene a).

(** The hooks of the five phases of a frame. *)
Definition isPhase (f : AppLayerFunctions) : bool :=
  match f with
  | OnUpdate | OnLateUpdate | OnPreRender | OnRender | OnPostRender => true
  | _ => false
  end.

(** The hooks of the loop: every hook but [OnAppLoad] and [OnAppUnload]. *)
Definition isLoopHook (f : AppLayerFunctions) : bool :=
  match f with OnAppLoad | OnAppUnload => false | _ => true end.

Definition isHook (f g : AppLayerFunctions) : bool := bool_decide (g = f).

Definition noHook (g : AppLayerFunctions) : bool := false.

(** The layers of a run: those present at the start, the six that [_Run]
    registers, and the debug layer in editor mode. *)
Definition registered (builtin : BuiltinLayers) (a : Application) : list ApplicationLayer :=
  _layers a ++
  [GLAppLayer builtin; DefaultSceneLayer builtin; LogicUpdateLayer builtin;
   RenderLayer builtin; ParticleLayer builtin; InterfaceLayer builtin] ++
  (if _isEditor a then [ImGuiDebugLayer builtin] else []).

(** The start of [_Run]: the registration of the layers, *)
Definition register (builtin : BuiltinLayers) : @M F unit :=
  modApp (λ a, set_layers (_layers a ++
    [GLAppLayer builtin; DefaultSceneLayer builtin; LogicUpdateLayer builtin;
     RenderLayer builtin; ParticleLayer builtin; InterfaceLayer builtin]) a);;
  a ← getApp;
  if _isEditor a
  then modApp (λ a, set_layers (_layers a ++ [ImGuiDebugLayer builtin]) a)
  else mret ().

(** the settings, the window size and the registries, *)
Definition configure : @M F unit :=
  _ConfigureSettings;;
  a ← getApp;
  width ← JsonGet (_appSettings a) "window_width" DEFAULT_WINDOW_WIDTH;
  height ← JsonGet (_appSettings a) "window_height" DEFAULT_WINDOW_HEIGHT;
  modApp (set_windowSize (width, height));;
  modApp (set_primaryViewport (0, 0, u32 width, u32 height));;
  _RegisterClasses.

(** and all of it up to the loop. *)
Definition startup (builtin : BuiltinLayers) : @M F unit :=
  register builtin;;
  configure;;
  _Load;;
  modApp (set_isRunning true).

(** The loop of [_Run] and what follows it. *)
Definition loopAndUnload (inputs : list FrameInput) : @M F LoopExit :=
  exit ← mainLoop inputs false;
  match exit with
  | Stopped => _Unload;; mret Stopped
  | OutOfFrames => mret OutOfFrames
  end.
(** The events of [_Load] and of [_Unload]. *)
Definition appLoadEvents (ls : list ApplicationLayer) (a : Application) : list Event :=
  hookEvents OnAppLoad (AppLoadArgs (_appSettings a)) (_currentScene a) (indexed ls)
  ++ [EvSwapInterval 1; EvInputInit; EvImGuiInit;
      EvGuiBatcherSetWindowSize (_windowSize a)].

Definition appUnloadEvents (ls : list ApplicationLayer) (a : Application) : list Event :=
  hookEvents OnAppUnload NoArgs (_currentScene a) (reverse (indexed ls))
  ++ [EvImGuiCleanup].

(** The Application when the loop is entered. *)
Definition startedApp (ls : list ApplicationLayer) (a : Application) : Application :=
  set_isRunning true (applyApis (scripts OnAppLoad (indexed ls)) a).

(** A step keeps the invariant [I] of the Application. *)
Definition keeps (I : Application → Prop) : relation (@World F) :=
  λ w w', I (app w) → I (app w').

(** The game is not paused before it has started. *)
Definition pausedOnlyStarted (a : Application) : Prop :=
  isGameStarted a = false → isGamePaused a = false.

End Lifecycle.

(** ** The screens of the game *)

(** [FindObjectByName(name)->Get<RenderComponent>()->IsEnabled], when the
    object and its component exist. *)
Definition renderEnabled (name : string) (s : Scene) : option bool :=
  FindObjectByName name s ≫= λ i, Objects s !! i ≫= RenderComponent.

(** A scene with what the start screen asks for: the two planes with their
    render components and an audio manager. *)
Definition hasStartScreen (s : Scene) : Prop :=
  is_Some (renderEnabled "StartScreenPlane" s) ∧
  is_Some (renderEnabled "LoadingScreenPlane" s) ∧
  ∃ am, audioManager s = Some am ∧ AudioManager am = true.

(** The object [PauseScreen] of the scene, if there is one, has a panel. *)
Definition pauseOk (s : Scene) : Prop :=
  ∀ i o, FindObjectByName "PauseScreen" s = Some i → Objects s !! i = Some o →
         is_Some (GuiPanel o).

(** A scene on its start screen, through which an iteration runs without
    loading anything on its own. *)
Definition onStartScreen (s : Scene) : Prop :=
  hasStartScreen s ∧ pauseOk s ∧ requestSceneReload s = false.

(** What of an object the writes of the loop leave alone: its name and the
    components it has, whatever their flags. *)
Definition objectShape (o : GameObject) : string * bool * bool * bool :=
  (goName o, bool_decide (is_Some (RenderComponent o)),
   bool_decide (is_Some (GuiPanel o)), AudioManager o).

(** The same for a scene. *)
Definition shape (s : Scene) : list (string * bool * bool * bool) * option GameObject * bool :=
  (objectShape <$> Objects s, audioManager s, requestSceneReload s).

(** The events of [LoadScene(path)] on the disk [d]. *)
Definition loadSceneEvents (path : string) (d : Disk) : list Event :=
  if file_exists path d then
    (if file_exists (stem path +:+ "-manifest.json") d
     then [EvLoadManifest (stem path +:+ "-manifest.json")] else []) ++
    [EvSceneLoad path]
  else [].

(** A start scene: the start plane is shown, the loading plane is hidden. *)
Definition menuScene : Scene := {|
  Objects := [
    {| goName := "Camera"; RenderComponent := None; GuiPanel := None;
       AudioManager := false; awakeCalls := 0 |};
    {| goName := "StartScreenPlane"; RenderComponent := Some true; GuiPanel := None;
       AudioManager := false; awakeCalls := 0 |};
    {| goName := "LoadingScreenPlane"; RenderComponent := Some false; GuiPanel := None;
       AudioManager := false; awakeCalls := 0 |};
    {| goName := "PauseScreen"; RenderComponent := None; GuiPanel := Some false;
       AudioManager := false; awakeCalls := 0 |} ];
  IsPlaying := false; requestSceneReload := false;
  audioManager := Some {| goName := "AudioManager"; RenderComponent := None;
                          GuiPanel := None; AudioManager := true; awakeCalls := 0 |}
|}.

(** The demo world on exact ticks with [menuScene] as the current scene. *)
Definition menuWorld : @World Z := {|
  app := demoApp; timing := @zeroTiming Z Z_arith 3;
  scenes := {[ 0%nat := menuScene ]};
  disk := demoDisk; trace := []
|}.

(** The frame input with the given keys down. *)
Definition keysDown (space escape : bool) : @FrameInput Z := {|
  keySpace := space; keyEscape := escape; keyE := false; shouldClose := false;
  glfwWindowSize := (1920, 1080); dt := 1
|}.

(** A layer that overrides [OnAppLoad] only and quits there. *)
Definition quitOnLoadLayer : ApplicationLayer := {|
  Name := "Quitter"; Enabled := true; Overrides := 1;
  GetDefaultConfig := JObj ∅;
  GetRenderOutput := None; GetPostRenderOutput := None;
  Hooks := λ f, match f with OnAppLoad => [ApiQuit] | _ => [] end
|}.

(** The layers that [_Run] registers: none of them stages a scene, the
    first one quits when the application loads. *)
Definition demoBuiltin : BuiltinLayers := {|
  GLAppLayer := quitOnLoadLayer; DefaultSceneLayer := logicLayer;
  LogicUpdateLayer := logicLayer; RenderLayer := renderLayer;
  ParticleLayer := offLayer; InterfaceLayer := offLayer;
  ImGuiDebugLayer := offLayer
|}.

(** The world of a fresh Application. *)
Definition freshWorld : @World Z := {|
  app := Application_new; timing := @zeroTiming Z Z_arith 3;
  scenes := ∅; disk := demoDisk; trace := []
|}.

(** A layer without a name. *)
Definition anonymousLayer : ApplicationLayer := {|
  Name := ""; Enabled := true; Overrides := 0;
  GetDefaultConfig := JNull;
  GetRenderOutput := None; GetPostRenderOutput := None;
  Hooks := noHooks
|}.

(** The demo world with a settings file that does not parse. *)
Definition corruptWorld : @World Z := {|
  app := demoApp; timing := @zeroTiming Z Z_arith 3;
  scenes := {[ 0%nat := demoScene ]};
  disk := withFile (settingsPathOf "C:\Users\me\AppData") (File "{")
            (withFile "C:\Users\me\AppData\Resonance" Directory demoDisk);
  trace := []
|}.

(** A scene that asks for a reload, and a disk with the level on it. *)
Definition reloadScene : Scene := {|
  Objects := Objects menuScene; IsPlaying := false; requestSceneReload := true;
  audioManager := audioManager menuScene
|}.

Definition reloadDisk : Disk := {|
  APPDATA := Some "C:\Users\me\AppData";
  files := {[ "Level1.json" := File "level" ]};
  sceneFiles := λ path, if bool_decide (path = "Level1.json") then Some demoScene else None
|}.

Definition reloadWorld : @World Z := {|
  app := demoApp; timing := @zeroTiming Z Z_arith 3;
  scenes := {[ 0%nat := reloadScene ]};
  disk := reloadDisk; trace := []
|}.

(** The frame input with the key E down. *)
Definition keyEDown : @FrameInput Z := {|
  keySpace := false; keyEscape := false; keyE := true; shouldClose := false;
  glfwWindowSize := (1920, 1080); dt := 1
|}.

(** The demo world with an unnamed layer between two named ones. *)
Definition anonymousWorld : @World Z := {|
  app := set_layers [sceneLayer; anonymousLayer; renderLayer] demoApp;
  timing := @zeroTiming Z Z_arith 3;
  scenes := {[ 0%nat := demoScene ]};
  disk := demoDisk; trace := []
|}.
(** * Properties *)

(** ** The effect of the entry points *)

Lemma applyApis_app cs1 cs2 a :
  applyApis (cs1 ++ cs2) a = applyApis cs2 (applyApis cs1 a).
Proof. apply foldl_app. Qed.

Lemma applyApis_currentScene cs a : _currentScene (applyApis cs a) = _currentScene a.
Proof.
  revert a. induction cs as [|c cs IH]; intros a; [done|].
  simpl. rewrite IH. by destruct c.
Qed.

Lemma applyApis_layers cs a : _layers (applyApis cs a) = _layers a.
Proof.
  revert a. induction cs as [|c cs IH]; intros a; [done|].
  simpl. rewrite IH. by destruct c.
Qed.

Lemma applyApis_isEditor cs a : _isEditor (applyApis cs a) = _isEditor a.
Proof.
  revert a. induction cs as [|c cs IH]; intros a; [done|].
  simpl. rewrite IH. by destruct c.
Qed.

Lemma applyApis_appSettings cs a : _appSettings (applyApis cs a) = _appSettings a.
Proof.
  revert a. induction cs as [|c cs IH]; intros a; [done|].
  simpl. rewrite IH. by destruct c.
Qed.

Lemma applyApis_windowSize cs a : _windowSize (applyApis cs a) = _windowSize a.
Proof.
  revert a. induction cs as [|c cs IH]; intros a; [done|].
  simpl. rewrite IH. by destruct c.
Qed.

Lemma applyApis_renderOutput cs a : _renderOutput (applyApis cs a) = _renderOutput a.
Proof.
  revert a. induction cs as [|c cs IH]; intros a; [done|].
  simpl. rewrite IH. by destruct c.
Qed.

Lemma applyApis_primaryViewport cs a :
  _primaryViewport (applyApis cs a) = _primaryViewport a.
Proof.
  revert a. induction cs as [|c cs IH]; intros a; [done|].
  simpl. rewrite IH. by destruct c.
Qed.

Lemma applyApis_set_renderOutput cs r a :
  applyApis cs (set_renderOutput r a) = set_renderOutput r (applyApis cs a).
Proof.
  revert a. induction cs as [|c cs IH]; intros a; [done|].
  simpl. rewrite <- IH. by destruct c.
Qed.

Lemma applyApis_set_currentScene cs r a :
  applyApis cs (set_currentScene r a) = set_currentScene r (applyApis cs a).
Proof.
  revert a. induction cs as [|c cs IH]; intros a; [done|].
  simpl. rewrite <- IH. by destruct c.
Qed.

(** Clearing the running flag first or last makes no difference to what the
    hooks do. *)
Lemma applyApis_quit cs a :
  applyApis cs (set_isRunning false a) = set_isRunning false (applyApis cs a).
Proof.
  revert a. induction cs as [|c cs IH]; intros a; [done|].
  simpl. rewrite <- IH. by destruct c.
Qed.

Lemma set_renderOutput_same a : set_renderOutput (_renderOutput a) a = a.
Proof. by destruct a. Qed.

Create Rewrite HintDb app_fields.

#[global] Hint Rewrite applyApis_currentScene applyApis_layers applyApis_isEditor
  applyApis_appSettings applyApis_windowSize applyApis_renderOutput
  applyApis_primaryViewport : app_fields.

Section Properties.
Context {F : Type} {AF : Arith F} {FL : FlagLayout} {JT : JsonText}.
Implicit Types (w : @World F) (a : Application) (f : AppLayerFunctions).
Implicit Types (xs : list (nat * ApplicationLayer)) (ls : list ApplicationLayer).

(** Unfolds the primitive steps of a computation. *)
Ltac run :=
  repeat (unfold mbind, M_bind, mret, M_ret, emit, getApp, getDisk, modApp,
            modDisk, modTiming, crash, set_app, set_trace, set_timing,
            set_scenes, set_disk, after; simpl).

Lemma bind_case {A B} (m : M A) (k : A → M B) w :
  (m ≫= k) w =
    match m w with
    | (Some x, w') => k x w'
    | (None, w') => (None, w')
    end.
Proof. reflexivity. Qed.

Lemma forEach_callApi cs w :
  forEach callApi cs w = (Some (), set_app (applyApis cs (app w)) w).
Proof.
  revert w. induction cs as [|c cs IH]; intros w.
  - by destruct w.
  - simpl. unfold mbind, M_bind. 
    assert (callApi c w = (Some (), set_app (applyApi c (app w)) w)) as -> by by destruct c.
    by rewrite IH.
Qed.

Lemma invoke_eq f args i layer w :
  invoke f args i layer w =
    (Some (), {| app := applyApis (Hooks layer f) (app w); timing := timing w;
                 scenes := scenes w; disk := disk w;
                 trace := trace w ++ [EvHook f i args (_currentScene (app w))] |}).
Proof.
  unfold invoke, mbind, M_bind. simpl. by rewrite forEach_callApi.
Qed.

Lemma forEach_ext {A} (body1 body2 : A → M unit) (ys : list A) w :
  (∀ y w, body1 y w = body2 y w) → forEach body1 ys w = forEach body2 ys w.
Proof.
  intros Hb. revert w. induction ys as [|y ys IH]; intros w; [done|].
  simpl. unfold mbind, M_bind. rewrite Hb. destruct (body2 y w) as [[[]|] w']; auto.
Qed.

Lemma called_cons f p xs :
  called f (p :: xs) = if overrides f p.2 then p :: called f xs else called f xs.
Proof.
  unfold called. rewrite filter_cons. destruct (overrides f p.2); by case_decide.
Qed.

(** A loop that calls hook [f] on the layers that override it. The
    arguments may depend on the Application, as long as the hooks leave
    them alone. *)
Lemma forEach_dispatch f (argsOf : Application → HookArgs) xs w :
  (∀ cs a, argsOf (applyApis cs a) = argsOf a) →
  forEach (λ '(i, layer),
    if overrides f layer then a ← getApp; invoke f (argsOf a) i layer
    else mret ()) xs w =
  (Some (), {| app := applyApis (scripts f xs) (app w); timing := timing w;
               scenes := scenes w; disk := disk w;
               trace := trace w ++
                 hookEvents f (argsOf (app w)) (_currentScene (app w)) xs |}).
Proof.
  intros Hargs. revert w. induction xs as [|[i layer] xs IH]; intros w.
  - simpl. unfold hookEvents, scripts, called. simpl. rewrite app_nil_r. by destruct w.
  - simpl. unfold mbind at 1, M_bind at 1.
    unfold hookEvents, scripts. rewrite called_cons. simpl.
    destruct (overrides f layer) eqn:Hov.
    + unfold mbind at 1, M_bind at 1. simpl. rewrite invoke_eq, IH. simpl.
      rewrite Hargs, applyApis_currentScene, applyApis_app.
      unfold hookEvents, scripts. simpl. by rewrite <- app_assoc.
    + simpl. rewrite IH. done.
Qed.

Lemma after_after a1 evs1 a2 evs2 w :
  after a2 evs2 (after a1 evs1 w) = after a2 (evs1 ++ evs2) w.
Proof. unfold after. simpl. by rewrite app_assoc. Qed.

Lemma after_id w : after (app w) [] w = w.
Proof. unfold after. rewrite app_nil_r. by destruct w. Qed.

Lemma emitted_after {A} (m : M A) w r a evs :
  m w = (r, after a evs w) → emitted m w = evs.
Proof. intros Hm. unfold emitted. rewrite Hm. simpl. apply drop_app_length. Qed.

(** *** The dispatchers in closed form *)

Lemma forEach_invoke f args xs w :
  forEach (λ '(i, layer),
    if overrides f layer then invoke f args i layer else mret ()) xs w =
  (Some (), after (applyApis (scripts f xs) (app w))
                  (hookEvents f args (_currentScene (app w)) xs) w).
Proof.
  unfold after. rewrite <- (forEach_dispatch f (λ _, args) xs w) by done.
  apply forEach_ext. by intros [i layer] w'.
Qed.

Lemma _Update_eq w :
  let xs := indexed (_layers (app w)) in
  _Update w = (Some (), after (applyApis (scripts OnUpdate xs) (app w))
                 (hookEvents OnUpdate NoArgs (_currentScene (app w)) xs) w).
Proof. unfold _Update, mbind, M_bind. simpl. apply forEach_invoke. Qed.

Lemma _LateUpdate_eq w :
  let xs := indexed (_layers (app w)) in
  _LateUpdate w = (Some (), after (applyApis (scripts OnLateUpdate xs) (app w))
                     (hookEvents OnLateUpdate NoArgs (_currentScene (app w)) xs) w).
Proof. unfold _LateUpdate, mbind, M_bind. simpl. apply forEach_invoke. Qed.

Lemma _PreRender_eq size w :
  let xs := indexed (_layers (app w)) in
  _PreRender size w =
    (Some (), after (applyApis (scripts OnPreRender xs) (app w))
       ([EvViewport (0, 0, size.1, size.2); EvScissor (0, 0, size.1, size.2); EvClear]
        ++ hookEvents OnPreRender NoArgs (_currentScene (app w)) xs) w).
Proof.
  unfold _PreRender, mbind, M_bind. simpl. rewrite forEach_invoke. run.
  by rewrite <- !app_assoc.
Qed.

Lemma _Load_eq w :
  let xs := indexed (_layers (app w)) in
  _Load w =
    (Some (), after (applyApis (scripts OnAppLoad xs) (app w))
       (hookEvents OnAppLoad (AppLoadArgs (_appSettings (app w)))
          (_currentScene (app w)) xs
        ++ [EvSwapInterval 1; EvInputInit; EvImGuiInit;
            EvGuiBatcherSetWindowSize (_windowSize (app w))]) w).
Proof.
  unfold _Load, mbind at 1 2, M_bind at 1 2. simpl.
  rewrite (forEach_dispatch OnAppLoad (λ a, AppLoadArgs (_appSettings a))).
  - run. autorewrite with app_fields. by rewrite <- !app_assoc.
  - intros. simpl. by autorewrite with app_fields.
Qed.

Lemma _Unload_eq w :
  let xs := reverse (indexed (_layers (app w))) in
  _Unload w =
    (Some (), after (applyApis (scripts OnAppUnload xs) (app w))
       (hookEvents OnAppUnload NoArgs (_currentScene (app w)) xs ++ [EvImGuiCleanup]) w).
Proof.
  unfold _Unload, mbind, M_bind. simpl. rewrite forEach_invoke. run.
  by rewrite <- !app_assoc.
Qed.

Lemma _HandleWindowSizeChanged_eq newSize w :
  let xs := indexed (_layers (app w)) in
  _HandleWindowSizeChanged newSize w =
    (Some (), after
       (set_primaryViewport (0, 0, u32 newSize.1, u32 newSize.2)
          (set_windowSize newSize (applyApis (scripts OnWindowResize xs) (app w))))
       (hookEvents OnWindowResize (ResizeArgs (_windowSize (app w)) newSize)
          (_currentScene (app w)) xs) w).
Proof.
  unfold _HandleWindowSizeChanged, mbind at 1 2, M_bind at 1 2. simpl.
  rewrite (forEach_dispatch OnWindowResize (λ a, ResizeArgs (_windowSize a) newSize)).
  - by run.
  - intros. simpl. by autorewrite with app_fields.
Qed.

Lemma foldM_render xs result w :
  foldM (λ result '(i, layer),
    if overrides OnRender layer then
      invoke OnRender (RenderArgs result) i layer;;
      mret (orElse (GetRenderOutput layer) result)
    else mret result) result xs w =
  (Some (carry result ((λ p, GetRenderOutput p.2) <$> called OnRender xs)),
   after (applyApis (scripts OnRender xs) (app w))
         (renderEvents (_currentScene (app w)) result xs) w).
Proof.
  revert result w. induction xs as [|[i layer] xs IH]; intros result w.
  - simpl. by rewrite after_id.
  - simpl. unfold mbind at 1, M_bind at 1.
    unfold scripts. rewrite called_cons. simpl.
    destruct (overrides OnRender layer) eqn:Hov.
    + unfold mbind at 1, M_bind at 1. rewrite invoke_eq. simpl. rewrite IH. simpl.
      rewrite applyApis_currentScene, applyApis_app. unfold after. simpl.
      by rewrite <- app_assoc.
    + simpl. by rewrite IH.
Qed.

Lemma _RenderScene_eq w :
  let xs := indexed (_layers (app w)) in
  _RenderScene w =
    (Some (), after (set_renderOutput (renderResult xs)
                       (applyApis (scripts OnRender xs) (app w)))
                    (renderEvents (_currentScene (app w)) None xs) w).
Proof.
  unfold _RenderScene, mbind, M_bind. simpl. rewrite foldM_render. by run.
Qed.

Lemma forEach_postRender xs w :
  forEach (λ '(i, layer),
    if overrides OnPostRender layer then
      invoke OnPostRender NoArgs i layer;;
      modApp (λ a, set_renderOutput
                     (orElse (GetPostRenderOutput layer) (_renderOutput a)) a)
    else mret ()) xs w =
  (Some (), after (set_renderOutput (postResult (_renderOutput (app w)) xs)
                     (applyApis (scripts OnPostRender xs) (app w)))
                  (hookEvents OnPostRender NoArgs (_currentScene (app w)) xs) w).
Proof.
  revert w. induction xs as [|[i layer] xs IH]; intros w.
  - simpl. unfold postResult, scripts, hookEvents, called. simpl.
    by rewrite set_renderOutput_same, after_id.
  - simpl. unfold mbind at 1, M_bind at 1.
    unfold postResult, scripts, hookEvents. rewrite called_cons. simpl.
    destruct (overrides OnPostRender layer) eqn:Hov.
    + unfold mbind at 1, M_bind at 1. rewrite invoke_eq. simpl. rewrite IH. simpl.
      rewrite applyApis_currentScene, applyApis_renderOutput, applyApis_app.
      rewrite applyApis_set_renderOutput.
      unfold after, postResult, hookEvents. simpl. by rewrite <- app_assoc.
    + simpl. by rewrite IH.
Qed.

Lemma _PostRender_eq w :
  let xs := reverse (indexed (_layers (app w))) in
  let output := postResult (_renderOutput (app w)) xs in
  _PostRender w =
    (Some (), after (set_renderOutput output
                       (applyApis (scripts OnPostRender xs) (app w)))
                    (hookEvents OnPostRender NoArgs (_currentScene (app w)) xs
                     ++ blitEvents (_primaryViewport (app w)) output) w).
Proof.
  unfold _PostRender, mbind at 1 2, M_bind at 1 2. simpl.
  rewrite forEach_postRender. run. autorewrite with app_fields.
  destruct (_primaryViewport (app w)) as [[[x y] z] v].
  unfold blitEvents. destruct (postResult _ _); run; by rewrite <- ?app_assoc.
Qed.

Lemma unloadHooks_eq w :
  (if bool_decide (_currentScene (app w) ≠ None)
   then forEach (λ '(i, layer),
          if overrides OnSceneUnload layer
          then invoke OnSceneUnload NoArgs i layer else mret ())
          (reverse (indexed (_layers (app w))))
   else mret ()) w
  = (Some (), after (unloadedApp (app w)) (unloadEvents (app w)) w).
Proof.
  unfold unloadedApp, unloadEvents. case_bool_decide.
  - apply forEach_invoke.
  - by rewrite after_id.
Qed.

Lemma unloadedApp_layers a : _layers (unloadedApp a) = _layers a.
Proof. unfold unloadedApp. case_bool_decide; by autorewrite with app_fields. Qed.

Lemma unloadedApp_isEditor a : _isEditor (unloadedApp a) = _isEditor a.
Proof. unfold unloadedApp. case_bool_decide; by autorewrite with app_fields. Qed.

Lemma unloadedApp_currentScene a : _currentScene (unloadedApp a) = _currentScene a.
Proof. unfold unloadedApp. case_bool_decide; by autorewrite with app_fields. Qed.

(** The scene transition when the scene it makes current is on the heap. *)
Lemma _HandleSceneChange_ok w t s :
  let a := app w in
  _targetScene (unloadedApp a) = Some t →
  scenes w !! t = Some s →
  _HandleSceneChange w =
    (Some (),
     {| app := set_targetScene None (loadedApp a);
        timing := timing w;
        scenes := <[t := awakenedScene (_isEditor a) s]> (scenes w);
        disk := disk w;
        trace := trace w ++ unloadEvents a ++ loadEvents (Some t) a
                   ++ [EvSceneAwake t (IsPlaying s) (_targetScene (loadedApp a))] |}).
Proof.
  intros a Ht Hs. unfold _HandleSceneChange.
  unfold mbind at 1 2, M_bind at 1 2. simpl.
  subst a. rewrite unloadHooks_eq.
  unfold mbind at 1 2 3, M_bind at 1 2 3. simpl. rewrite unloadedApp_layers.
  rewrite forEach_invoke. simpl.
  unfold mbind at 1 2, M_bind at 1 2. simpl.
  unfold deref. simpl. autorewrite with app_fields. simpl. rewrite Ht. simpl.
  rewrite Hs. simpl. rewrite unloadedApp_isEditor. unfold loadedApp, loadEvents.
  rewrite Ht. unfold awakenedScene.
  rewrite bind_case. cbn [emit]. rewrite bind_case.
  unfold modScene at 1. cbn [scenes set_trace set_app after]. rewrite Hs.
  destruct (_isEditor (app w)); cbn [negb]; rewrite bind_case.
  - run. by rewrite <- !app_assoc.
  - unfold modScene. cbn [scenes set_scenes]. rewrite lookup_insert_eq. run.
    by rewrite insert_insert_eq, <- !app_assoc.
Qed.

(** The scene transition when the scene to make current is null (or not on
    the heap): the program stops at [_currentScene->Awake()]. *)
Lemma _HandleSceneChange_null w :
  let a := app w in
  let cur := _targetScene (unloadedApp a) in
  cur ≫= (scenes w !!.) = None →
  _HandleSceneChange w =
    (None, after (loadedApp a) (unloadEvents a ++ loadEvents cur a) w).
Proof.
  intros a cur Hcur. unfold _HandleSceneChange.
  unfold mbind at 1 2, M_bind at 1 2. simpl.
  subst a. rewrite unloadHooks_eq.
  unfold mbind at 1 2 3, M_bind at 1 2 3. simpl. rewrite unloadedApp_layers.
  rewrite forEach_invoke. simpl.
  unfold mbind at 1 2, M_bind at 1 2. simpl.
  unfold deref. simpl. autorewrite with app_fields. simpl. subst cur.
  rewrite Hcur. unfold loadedApp, loadEvents, after. simpl.
  by rewrite <- !app_assoc.
Qed.

(** *** The hook calls in a trace *)

Lemma hookCalls_app f evs1 evs2 :
  hookCalls f (evs1 ++ evs2) = hookCalls f evs1 ++ hookCalls f evs2.
Proof. apply omap_app. Qed.

Lemma hookCalls_hookEvents f g args cur xs :
  hookCalls f (hookEvents g args cur xs) =
    if decide (g = f) then (called g xs).*1 else [].
Proof.
  unfold hookCalls, hookEvents. destruct (decide (g = f)) as [Heq|Hne].
  - induction (called g xs) as [|p ps IH]; [done|].
    simpl. rewrite decide_True by done. by f_equal.
  - induction (called g xs) as [|p ps IH]; [done|].
    simpl. by rewrite decide_False by done.
Qed.

Lemma hookCalls_renderEvents f cur result xs :
  hookCalls f (renderEvents cur result xs) =
    if decide (OnRender = f) then (called OnRender xs).*1 else [].
Proof.
  revert result. induction xs as [|[i layer] xs IH]; intros result.
  - simpl. by case_decide.
  - simpl. rewrite called_cons. simpl.
    destruct (overrides OnRender layer); [|done].
    unfold hookCalls in *. simpl. rewrite IH.
    destruct (decide (OnRender = f)); done.
Qed.

Lemma hookCalls_blitEvents f viewport output :
  hookCalls f (blitEvents viewport output) = [].
Proof. destruct viewport as [[[x y] z] v]. by destruct output. Qed.

Lemma called_reverse f xs : called f (reverse xs) = reverse (called f xs).
Proof. apply filter_reverse. Qed.

Lemma called_indexed_eligible f ls : (called f (indexed ls)).*1 = eligible f ls.
Proof. done. Qed.

Lemma called_reverse_eligible f ls :
  (called f (reverse (indexed ls))).*1 = reverse (eligible f ls).
Proof. by rewrite called_reverse, fmap_reverse. Qed.

(** The test [*(Overrides & flag)] reads the bit of the hook. *)
Lemma land_flag_testbit (x : Z) f :
  negb (Z.land x (flag f) =? 0) = Z.testbit x (Z.of_N (bitOf f)).
Proof.
  unfold flag. set (k := Z.of_N (bitOf f)).
  assert (0 ≤ k) as Hk by (subst k; lia).
  rewrite Z.shiftl_1_l.
  destruct (Z.testbit x k) eqn:Hbit.
  - apply negb_true_iff, Z.eqb_neq. intros Hz.
    assert (Z.testbit (Z.land x (2 ^ k)) k = true) as Hone.
    { rewrite Z.land_spec, Hbit, Z.pow2_bits_eqb by done. by rewrite Z.eqb_refl. }
    rewrite Hz, Z.bits_0 in Hone. done.
  - apply negb_false_iff, Z.eqb_eq. apply Z.bits_inj'. intros n Hn.
    rewrite Z.land_spec, Z.bits_0, Z.pow2_bits_eqb by done.
    destruct (Z.eqb_spec k n) as [<-|Hne].
    + by rewrite Hbit.
    + apply andb_false_r.
Qed.

Lemma overrides_spec f layer :
  overrides f layer = true ↔
    Enabled layer = true ∧ Z.testbit (Overrides layer) (Z.of_N (bitOf f)) = true.
Proof. unfold overrides. by rewrite land_flag_testbit, andb_true_iff. Qed.

Lemma elem_of_eligible f ls i :
  i ∈ eligible f ls ↔ ∃ layer, ls !! i = Some layer ∧ overrides f layer = true.
Proof.
  unfold eligible, indexed. rewrite list_elem_of_fmap. split.
  - intros [[j layer] [-> Hin]]. apply list_elem_of_filter in Hin as [Hov Hin].
    apply elem_of_lookup_imap in Hin as (k & l & Heq & Hl). simplify_eq.
    by exists l.
  - intros (layer & Hl & Hov). exists (i, layer). split; [done|].
    apply list_elem_of_filter. split; [done|].
    apply elem_of_lookup_imap. by exists i, layer.
Qed.

(** The positions of the eligible layers come in increasing order. *)
Lemma eligible_from_sorted (P : nat * ApplicationLayer → Prop)
    `{!∀ p, Decision (P p)} ls (n : nat) :
  let js := (filter P (imap (λ i l, ((n + i)%nat, l)) ls)).*1 in
  StronglySorted lt js ∧ Forall (le n) js.
Proof.
  revert n. induction ls as [|l ls IH]; intros n; simpl.
  - split; constructor.
  - rewrite filter_cons.
    assert (imap ((λ i l0, ((n + i)%nat, l0)) ∘ S) ls
            = imap (λ i l0, ((S n + i)%nat, l0)) ls) as ->.
    { apply imap_ext. intros i x _. simpl. f_equal. lia. }
    destruct (IH (S n)) as [Hsorted Hge].
    assert (Forall (le n) (filter P (imap (λ i l0, ((S n + i)%nat, l0)) ls)).*1).
    { eapply Forall_impl; [exact Hge|]. intros; simpl in *; lia. }
    case_decide; simpl; [|done]. split.
    + constructor; [done|]. eapply Forall_impl; [exact Hge|].
      intros; simpl in *; lia.
    + constructor; [lia|done].
Qed.

Lemma eligible_sorted f ls : StronglySorted lt (eligible f ls).
Proof.
  apply (eligible_from_sorted (λ p, overrides f p.2 = true) ls 0).
Qed.

(** *** The events of the dispatchers *)

Lemma emitted_HandleSceneChange w :
  let a := app w in
  let cur := _targetScene (unloadedApp a) in
  emitted _HandleSceneChange w =
    unloadEvents a ++ loadEvents cur a ++
    match cur ≫= (scenes w !!.) with
    | Some s => [EvSceneAwake (default 0%nat cur) (IsPlaying s)
                   (_targetScene (loadedApp a))]
    | None => []
    end.
Proof.
  intros a cur. destruct (cur ≫= (scenes w !!.)) as [s|] eqn:Hcur.
  - destruct cur as [t|] eqn:Ht; [|done]. simpl in Hcur.
    unfold emitted. erewrite _HandleSceneChange_ok by done. simpl.
    by rewrite drop_app_length.
  - rewrite app_nil_r. eapply emitted_after. by apply _HandleSceneChange_null.
Qed.

Lemma hookCalls_unloadEvents f a :
  hookCalls f (unloadEvents a) =
    if decide (OnSceneUnload = f)
    then (if bool_decide (_currentScene a ≠ None)
          then reverse (eligible f (_layers a)) else [])
    else [].
Proof.
  unfold unloadEvents. case_bool_decide.
  - rewrite hookCalls_hookEvents. case_decide; [|done].
    subst. apply called_reverse_eligible.
  - by case_decide.
Qed.

Lemma hookCalls_loadEvents f cur a :
  hookCalls f (loadEvents cur a) =
    if decide (OnSceneLoad = f) then eligible f (_layers a) else [].
Proof.
  unfold loadEvents. rewrite hookCalls_hookEvents. by case_decide; subst.
Qed.

(** Whatever the dispatcher of [f] is run on, the layers it calls [f] on
    are the eligible ones, in registration order or in its reverse. *)
Lemma dispatcher_hookCalls f size w :
  (f = OnSceneUnload → _currentScene (app w) ≠ None) →
  hookCalls f (emitted (dispatcher f size) w) =
    if reverseOrder f then reverse (eligible f (_layers (app w)))
    else eligible f (_layers (app w)).
Proof.
  intros Hcur. destruct f; simpl.
  - erewrite emitted_after by apply _Load_eq.
    by rewrite hookCalls_app, hookCalls_hookEvents, app_nil_r.
  - erewrite emitted_after by apply _Unload_eq.
    rewrite hookCalls_app, hookCalls_hookEvents, app_nil_r. simpl.
    apply called_reverse_eligible.
  - rewrite emitted_HandleSceneChange, !hookCalls_app.
    rewrite hookCalls_unloadEvents, hookCalls_loadEvents. simpl.
    by destruct (_ ≫= _); rewrite app_nil_r.
  - rewrite emitted_HandleSceneChange, !hookCalls_app.
    rewrite hookCalls_unloadEvents, hookCalls_loadEvents. simpl.
    rewrite bool_decide_true by auto.
    by destruct (_ ≫= _); rewrite app_nil_r.
  - erewrite emitted_after by apply _Update_eq.
    by rewrite hookCalls_hookEvents.
  - erewrite emitted_after by apply _LateUpdate_eq.
    by rewrite hookCalls_hookEvents.
  - erewrite emitted_after by apply _PreRender_eq.
    by rewrite hookCalls_app, hookCalls_hookEvents.
  - erewrite emitted_after by apply _RenderScene_eq.
    by rewrite hookCalls_renderEvents.
  - erewrite emitted_after by apply _PostRender_eq.
    rewrite hookCalls_app, hookCalls_hookEvents, hookCalls_blitEvents, app_nil_r.
    simpl. apply called_reverse_eligible.
  - erewrite emitted_after by apply _HandleWindowSizeChanged_eq.
    by rewrite hookCalls_hookEvents.
Qed.

(** ** The layer dispatch contract *)

(** C1. Each of the ten dispatchers calls its hook on a layer if and only
    if the layer is enabled and its [Overrides] mask has the bit of the
    hook; a layer that is disabled or lacks the bit is not called. (The
    scene transition dispatches [OnSceneUnload] when there is a current
    scene.) *)
Theorem dispatch_iff_enabled_and_overridden f size w (i : nat) :
  (f = OnSceneUnload → _currentScene (app w) ≠ None) →
  i ∈ hookCalls f (emitted (dispatcher f size) w) ↔
  ∃ layer, _layers (app w) !! i = Some layer ∧ Enabled layer = true ∧
           Z.testbit (Overrides layer) (Z.of_N (bitOf f)) = true.
Proof.
  intros Hcur. rewrite dispatcher_hookCalls by done.
  assert (i ∈ eligible f (_layers (app w)) ↔
          ∃ layer, _layers (app w) !! i = Some layer ∧ Enabled layer = true ∧
                   Z.testbit (Overrides layer) (Z.of_N (bitOf f)) = true) as <-.
  { rewrite elem_of_eligible. by setoid_rewrite overrides_spec. }
  destruct (reverseOrder f); [apply elem_of_reverse|done].
Qed.

(** C2. Update, LateUpdate, PreRender, Render, OnAppLoad and OnSceneLoad
    visit the eligible layers in registration order (increasing positions);
    PostRender, OnSceneUnload and OnAppUnload visit them in exactly the
    reverse order. *)
Theorem dispatch_order f size w :
  (f = OnSceneUnload → _currentScene (app w) ≠ None) →
  let visited := hookCalls f (emitted (dispatcher f size) w) in
  (f ∈ [OnUpdate; OnLateUpdate; OnPreRender; OnRender; OnAppLoad; OnSceneLoad] →
     visited = eligible f (_layers (app w)) ∧ StronglySorted lt visited) ∧
  (f ∈ [OnPostRender; OnSceneUnload; OnAppUnload] →
     visited = reverse (eligible f (_layers (app w))) ∧
     StronglySorted lt (reverse visited)).
Proof.
  intros Hcur visited. subst visited. rewrite dispatcher_hookCalls by done.
  split; intros Hf.
  - assert (reverseOrder f = false) as ->.
    { repeat (apply elem_of_cons in Hf as [->|Hf]; [done|]).
      by apply elem_of_nil in Hf. }
    split; [done|apply eligible_sorted].
  - assert (reverseOrder f = true) as ->.
    { repeat (apply elem_of_cons in Hf as [->|Hf]; [done|]).
      by apply elem_of_nil in Hf. }
    split; [done|]. rewrite reverse_involutive. apply eligible_sorted.
Qed.

(** ** Render composition *)

Lemma lastNonNull_cons_None outs : lastNonNull (None :: outs) = lastNonNull outs.
Proof. done. Qed.

Lemma lastNonNull_orElse out r outs :
  lastNonNull (orElse out r :: outs) = lastNonNull (r :: out :: outs).
Proof.
  unfold lastNonNull. by destruct out as [x|], r as [y|].
Qed.

(** Carrying a result through the outputs keeps the last non-null one. *)
Lemma carry_lastNonNull r outs : carry r outs = lastNonNull (r :: outs).
Proof.
  revert r. induction outs as [|out outs IH]; intros r.
  - by destruct r.
  - unfold carry in *. simpl. rewrite IH. apply lastNonNull_orElse.
Qed.

Lemma called_from_snd f ls (n : nat) :
  (called f (imap (λ i l, ((n + i)%nat, l)) ls)).*2
  = filter (λ l, overrides f l = true) ls.
Proof.
  revert n. induction ls as [|l ls IH]; intros n; [done|].
  simpl. rewrite called_cons, filter_cons. simpl.
  assert (imap ((λ i l0, ((n + i)%nat, l0)) ∘ S) ls
          = imap (λ i l0, ((S n + i)%nat, l0)) ls) as ->.
  { apply imap_ext. intros i x _. simpl. f_equal. lia. }
  destruct (overrides f l); case_decide; try done; simpl;
    try f_equal; apply (IH (S n)).
Qed.

(** The layers a forward dispatch calls are the eligible ones of [ls]. *)
Lemma called_indexed_snd f ls :
  (called f (indexed ls)).*2 = filter (λ l, overrides f l = true) ls.
Proof. apply (called_from_snd f ls 0). Qed.

Lemma called_reverse_snd f ls :
  (called f (reverse (indexed ls))).*2
  = filter (λ l, overrides f l = true) (reverse ls).
Proof.
  by rewrite called_reverse, fmap_reverse, called_indexed_snd, filter_reverse.
Qed.

Lemma blits_app evs1 evs2 : blits (evs1 ++ evs2) = blits evs1 ++ blits evs2.
Proof. apply omap_app. Qed.

Lemma blits_hookEvents f args cur xs : blits (hookEvents f args cur xs) = [].
Proof. unfold hookEvents. by induction (called f xs). Qed.

Lemma blits_blitEvents viewport output :
  blits (blitEvents viewport output) =
    match output with
    | Some out => [((0, 0, i32 (GetWidth out), i32 (GetHeight out)),
                    viewportMinMax viewport)]
    | None => []
    end.
Proof. destruct viewport as [[[x y] z] v]. by destruct output. Qed.

Lemma i32_small (z : Z) : 0 ≤ z < 2 ^ 31 → i32 z = z.
Proof.
  change (2 ^ 31) with 2147483648. intros Hz. unfold i32.
  change (2 ^ 31) with 2147483648. change (2 ^ 32) with 4294967296.
  rewrite Z.mod_small; lia.
Qed.

Lemma u32_small (z : Z) : 0 ≤ z < 2 ^ 32 → u32 z = z.
Proof. intros Hz. unfold u32. by apply Z.mod_small. Qed.

(** C4. The result [_RenderScene] stores is the last non-null output of the
    layers it calls, in iteration order (null when there is none);
    [_PostRender] goes on from it with the same rule over its reverse
    iteration; the final output is blitted into the primary viewport
    rectangle when it is not null, and nothing is blitted when it is. The
    blit goes from the whole of the output to the rectangle from the
    corner [(x, y)] of the primary viewport [(x, y, z, v)] to
    [(x + z, y + v)]. For outputs {null, A, null} the carried result is A,
    for {null, null, null} it is null. *)
Theorem render_output_carry w :
  let ls := _layers (app w) in
  let renderOuts :=
    GetRenderOutput <$> filter (λ l, overrides OnRender l = true) ls in
  let postOuts :=
    GetPostRenderOutput <$> filter (λ l, overrides OnPostRender l = true) (reverse ls) in
  let w1 := exec _RenderScene w in
  let w2 := exec _PostRender w1 in
  let final := _renderOutput (app w2) in
  _renderOutput (app w1) = lastNonNull renderOuts ∧
  final = lastNonNull (_renderOutput (app w1) :: postOuts) ∧
  blits (emitted _PostRender w1) =
    match final with
    | Some out => [((0, 0, i32 (GetWidth out), i32 (GetHeight out)),
                    viewportMinMax (_primaryViewport (app w)))]
    | None => []
    end ∧
  (∀ A, renderOuts = [None; Some A; None] → _renderOutput (app w1) = Some A) ∧
  (renderOuts = [None; None; None] → _renderOutput (app w1) = None) ∧
  (∀ out x y z v,
     final = Some out → _primaryViewport (app w) = (x, y, z, v) →
     blits (emitted _PostRender w1) =
       [((0, 0, i32 (GetWidth out), i32 (GetHeight out)),
         (i32 x, i32 y, i32 (u32 (x + z)), i32 (u32 (y + v))))] ∧
     (0 ≤ x → 0 ≤ y → 0 ≤ z → 0 ≤ v → x + z < 2 ^ 31 → y + v < 2 ^ 31 →
      0 ≤ GetWidth out < 2 ^ 31 → 0 ≤ GetHeight out < 2 ^ 31 →
      blits (emitted _PostRender w1) =
        [((0, 0, GetWidth out, GetHeight out), (x, y, x + z, y + v))])).
Proof.
  intros ls renderOuts postOuts w1 w2 final.
  assert (_renderOutput (app w1) = lastNonNull renderOuts) as Hrender.
  { subst w1. unfold exec. rewrite _RenderScene_eq. simpl.
    unfold renderResult. rewrite carry_lastNonNull, lastNonNull_cons_None.
    subst renderOuts ls. by rewrite <- called_indexed_snd, <- list_fmap_compose. }
  assert (_layers (app w1) = ls) as Hls.
  { subst w1. unfold exec. rewrite _RenderScene_eq. simpl.
    by autorewrite with app_fields. }
  assert (_primaryViewport (app w1) = _primaryViewport (app w)) as Hvp.
  { subst w1. unfold exec. rewrite _RenderScene_eq. simpl.
    by autorewrite with app_fields. }
  assert (final = postResult (_renderOutput (app w1))
                    (reverse (indexed (_layers (app w1))))) as Hpost.
  { unfold final, w2, exec. by rewrite _PostRender_eq. }
  assert (final = lastNonNull (_renderOutput (app w1) :: postOuts)) as Hfinal.
  { rewrite Hpost. unfold postResult. rewrite carry_lastNonNull, Hls.
    unfold postOuts. by rewrite <- called_reverse_snd, <- list_fmap_compose. }
  assert (blits (emitted _PostRender w1) =
    match final with
    | Some out => [((0, 0, i32 (GetWidth out), i32 (GetHeight out)),
                    viewportMinMax (_primaryViewport (app w)))]
    | None => []
    end) as Hblits.
  { erewrite emitted_after by apply _PostRender_eq.
    by rewrite blits_app, blits_hookEvents, blits_blitEvents, Hvp, <- Hpost. }
  split; [done|]. split; [done|]. split; [done|].
  split; [|split].
  - intros A HA. by rewrite Hrender, HA.
  - intros HA. by rewrite Hrender, HA.
  - intros out x y z v Hout Hview.
    rewrite Hblits, Hout, Hview. split; [done|].
    intros Hx Hy Hz Hv Hxz Hyv Hwidth Hheight.
    assert (2 ^ 31 < 2 ^ 32) as Hpow by done.
    unfold viewportMinMax.
    rewrite (u32_small (x + z)), (u32_small (y + v)) by lia.
    by rewrite !i32_small by lia.
Qed.

(** ** What the steps of a frame leave alone *)

Lemma grown_preorder : PreOrder (@grown F).
Proof.
  split.
  - intros w. unfold grown. done.
  - intros w1 w2 w3. unfold grown. apply transitivity.
Qed.

#[local] Existing Instance grown_preorder.

Lemma quiet_preorder : PreOrder (@quiet F).
Proof.
  split.
  - intros w. by split.
  - intros w1 w2 w3 [Ht1 Hp1] [Ht2 Hp2]. split; [congruence|by etrans].
Qed.

#[local] Existing Instance quiet_preorder.

Lemma preserves_bind (R : relation (@World F)) `{!PreOrder R} {A B}
    (m : M A) (k : A → M B) :
  preserves R m → (∀ x, preserves R (k x)) → preserves R (m ≫= k).
Proof.
  intros Hm Hk w. unfold mbind, M_bind. specialize (Hm w).
  destruct (m w) as [[x|] w1]; simpl in *; [|done].
  etrans; [exact Hm|apply Hk].
Qed.

Lemma preserves_ret (R : relation (@World F)) `{!PreOrder R} {A} (x : A) :
  preserves R (mret x : M A).
Proof. intros w. simpl. done. Qed.

Lemma preserves_crash (R : relation (@World F)) `{!PreOrder R} {A} :
  preserves R (crash : M A).
Proof. intros w. simpl. done. Qed.

Lemma preserves_orCrash (R : relation (@World F)) `{!PreOrder R} {A} (o : option A) :
  preserves R (orCrash o).
Proof. destruct o; [apply preserves_ret|apply preserves_crash]; exact _. Qed.

Lemma preserves_getApp (R : relation (@World F)) `{!PreOrder R} : preserves R getApp.
Proof. intros w. simpl. done. Qed.

Lemma preserves_getDisk (R : relation (@World F)) `{!PreOrder R} : preserves R getDisk.
Proof. intros w. simpl. done. Qed.

Lemma preserves_deref (R : relation (@World F)) `{!PreOrder R} p : preserves R (deref p).
Proof. intros w. unfold deref. by destruct (p ≫= _). Qed.

Lemma preserves_forEach (R : relation (@World F)) `{!PreOrder R} {A}
    (body : A → M unit) (ys : list A) :
  (∀ y, preserves R (body y)) → preserves R (forEach body ys).
Proof.
  intros Hb. induction ys as [|y ys IH]; simpl.
  - by apply preserves_ret.
  - apply preserves_bind; [exact _|auto..].
Qed.

Lemma preserves_foldM (R : relation (@World F)) `{!PreOrder R} {A S}
    (body : S → A → M S) (s : S) (ys : list A) :
  (∀ s y, preserves R (body s y)) → preserves R (foldM body s ys).
Proof.
  intros Hb. revert s. induction ys as [|y ys IH]; intros s; simpl.
  - by apply preserves_ret.
  - apply preserves_bind; [exact _|auto..].
Qed.

Lemma quiet_modApp g : preserves (@quiet F) (modApp g).
Proof. intros w. by split. Qed.

Lemma quiet_modDisk g : preserves (@quiet F) (modDisk g).
Proof. intros w. by split. Qed.

Lemma quiet_modScene p g : preserves (@quiet F) (modScene p g).
Proof.
  intros w. unfold modScene. destruct p as [n|]; [|done].
  by destruct (scenes w !! n).
Qed.

Lemma quiet_emit e : preserves (@quiet F) (emit e).
Proof. intros w. split; [done|]. by apply prefix_app_r. Qed.

Lemma quiet_Scene_Load path : preserves (@quiet F) (Scene_Load path).
Proof.
  intros w. unfold Scene_Load.
  destruct (sceneFiles (disk w) path); (split; [done|]); by apply prefix_app_r.
Qed.

Lemma quiet_grown {A} (m : M A) : preserves (@quiet F) m → preserves (@grown F) m.
Proof. intros Hm w. apply Hm. Qed.

(** Breaks a computation down to its primitive steps; [known] closes the
    steps that have a lemma of their own. *)
Ltac quiet_steps_using known :=
  repeat first
    [ match goal with |- PreOrder _ => exact _ end
    | known
    | apply quiet_modApp | apply quiet_modDisk | apply quiet_modScene
    | apply quiet_emit | apply quiet_Scene_Load
    | apply preserves_getApp | apply preserves_getDisk | apply preserves_deref
    | apply preserves_ret | apply preserves_crash | apply preserves_orCrash
    | match goal with
      | |- preserves _ (mbind _ _) => apply preserves_bind; [exact _| |intros ?]
      | |- preserves _ (forEach _ _) => apply preserves_forEach; [exact _|intros [??]]
      | |- preserves _ (foldM _ _ _) => apply preserves_foldM; [exact _|intros ? [??]]
      | |- preserves _ (if ?b then _ else _) => destruct b
      | |- preserves _ (match ?o with Some _ => _ | None => _ end) => destruct o
      | |- preserves _ (let '(_, _) := ?p in _) => destruct p
      end ].

Lemma quiet_callApi c : preserves (@quiet F) (callApi c).
Proof. destruct c; unfold callApi, Quit, LoadScene_ptr; quiet_steps_using fail. Qed.

Lemma quiet_invoke f args i layer : preserves (@quiet F) (invoke f args i layer).
Proof.
  unfold invoke. quiet_steps_using fail.
  apply preserves_forEach; [exact _|]. intros c. apply quiet_callApi.
Qed.

Lemma quiet_LoadScene path : preserves (@quiet F) (LoadScene path).
Proof. unfold LoadScene, LoadScene_ptr. quiet_steps_using fail. Qed.

Ltac quiet_steps :=
  quiet_steps_using ltac:(first [apply quiet_invoke | apply quiet_LoadScene]).

Lemma quiet_HandleSceneChange : preserves (@quiet F) _HandleSceneChange.
Proof. unfold _HandleSceneChange. quiet_steps. Qed.

Lemma quiet_sceneSwitching : preserves (@quiet F) sceneSwitching.
Proof. unfold sceneSwitching. quiet_steps. apply quiet_HandleSceneChange. Qed.

Lemma quiet_startScreen inp sw : preserves (@quiet F) (startScreen inp sw).
Proof. unfold startScreen, setRenderEnabled, onAudioManager. quiet_steps. Qed.

Lemma quiet_pauseScreen inp : preserves (@quiet F) (pauseScreen inp).
Proof. unfold pauseScreen, setPanelEnabled. quiet_steps. Qed.

Lemma quiet_sceneReload inp : preserves (@quiet F) (sceneReload inp).
Proof. unfold sceneReload. quiet_steps. Qed.

Lemma quiet_pollEvents inp : preserves (@quiet F) (pollEvents inp).
Proof. unfold pollEvents. quiet_steps. Qed.

Lemma quiet_coreUpdate inp : preserves (@quiet F) (coreUpdate inp).
Proof.
  unfold coreUpdate, _Update, _LateUpdate, _PreRender, _RenderScene, _PostRender.
  quiet_steps.
Qed.

Lemma quiet_endFrame : preserves (@quiet F) endFrame.
Proof. unfold endFrame. quiet_steps. Qed.

Lemma grown_timingUpdate inp : preserves (@grown F) (timingUpdate inp).
Proof. intros w. unfold grown. done. Qed.

Lemma grown_afterPoll inp : preserves (@grown F) (afterPoll inp).
Proof.
  unfold afterPoll.
  repeat match goal with
         | |- preserves _ (mbind _ _) => apply preserves_bind; [exact _| |intros ?]
         end;
    try apply grown_timingUpdate; apply quiet_grown.
  - apply quiet_emit.
  - apply quiet_coreUpdate.
  - apply quiet_endFrame.
Qed.

Lemma grown_frameRest inp sw : preserves (@grown F) (frameRest inp sw).
Proof.
  unfold frameRest.
  repeat match goal with
         | |- preserves _ (mbind _ _) => apply preserves_bind; [exact _| |intros ?]
         end;
    try (apply preserves_ret; exact _);
    try apply grown_afterPoll; apply quiet_grown.
  - apply quiet_startScreen.
  - apply quiet_pauseScreen.
  - apply quiet_sceneReload.
  - apply quiet_pollEvents.
Qed.

(** The events of two steps in a row. *)
Lemma emitted_bind {A B} (m : M A) (k : A → M B) w :
  preserves (@grown F) m → (∀ x, preserves (@grown F) (k x)) →
  emitted (m ≫= k) w =
    emitted m w ++
    match (m w).1 with Some x => emitted (k x) (m w).2 | None => [] end.
Proof.
  intros Hm Hk. unfold emitted, mbind, M_bind.
  destruct (Hm w) as [evs1 Hevs1].
  destruct (m w) as [[x|] w1]; simpl in *.
  - destruct (Hk x w1) as [evs2 Hevs2]. rewrite Hevs2, Hevs1.
    rewrite !drop_app_length. by rewrite <- app_assoc, drop_app_length.
  - by rewrite app_nil_r.
Qed.

(** *** The five phases in closed form *)

Lemma bind_after {A B} (m : M A) (k : A → M B) w x w1 :
  m w = (Some x, w1) → (m ≫= k) w = k x w1.
Proof. intros Hm. unfold mbind, M_bind. by rewrite Hm. Qed.

Lemma set_renderOutput_twice r1 r2 a :
  set_renderOutput r2 (set_renderOutput r1 a) = set_renderOutput r2 a.
Proof. done. Qed.

Lemma coreUpdate_eq inp w :
  coreUpdate inp w =
    (Some (),
     if bool_decide (_currentScene (app w) ≠ None)
     then after (phaseApp (app w))
            (phaseEvents (_layers (app w)) (_currentScene (app w))
               (glfwWindowSize inp) (_primaryViewport (app w))) w
     else w).
Proof.
  unfold coreUpdate. rewrite (bind_after getApp _ w (app w) w) by done.
  case_bool_decide; [|done].
  set (xs := indexed (_layers (app w))).
  erewrite bind_after by apply _Update_eq.
  erewrite bind_after by apply _LateUpdate_eq.
  erewrite bind_after by apply _PreRender_eq.
  erewrite bind_after by apply _RenderScene_eq.
  rewrite _PostRender_eq. rewrite !after_after.
  cbn [app after]. autorewrite with app_fields.
  cbn [_layers _currentScene _primaryViewport _renderOutput set_renderOutput].
  autorewrite with app_fields. fold xs.
  rewrite applyApis_set_renderOutput, set_renderOutput_twice.
  unfold phaseApp, phaseEvents. fold xs.
  rewrite !applyApis_app. by rewrite <- !app_assoc.
Qed.

Lemma phaseApp_quit a :
  phaseApp (set_isRunning false a) = set_isRunning false (phaseApp a).
Proof. unfold phaseApp. simpl. by rewrite applyApis_quit. Qed.

(** The start-screen lookup dereferences the current scene first. *)
Lemma frameRest_null inp sw w :
  _currentScene (app w) = None → frameRest inp sw w = (None, w).
Proof.
  intros Hcur. unfold frameRest, startScreen.
  unfold mbind, M_bind. simpl. unfold deref. by rewrite Hcur.
Qed.

Lemma emitted_same {A} (m : M A) w r : m w = (r, w) → emitted m w = [].
Proof. intros Hm. unfold emitted. rewrite Hm. simpl. by rewrite drop_all. Qed.

Lemma emitted_eq {A} (m1 m2 : M A) w : m1 w = m2 w → emitted m1 w = emitted m2 w.
Proof. intros Hm. unfold emitted. by rewrite Hm. Qed.

Lemma frame_emitted inp sw w :
  emitted (frame inp sw) w =
    emitted sceneSwitching w ++
    match (sceneSwitching w).1 with
    | Some _ => emitted (frameRest inp sw) (exec sceneSwitching w)
    | None => []
    end.
Proof.
  unfold frame. rewrite emitted_bind.
  - done.
  - apply quiet_grown, quiet_sceneSwitching.
  - intros _. apply grown_frameRest.
Qed.

Lemma sceneSwitching_eq w :
  sceneSwitching w =
    if bool_decide (_targetScene (app w) ≠ None) then _HandleSceneChange w
    else (Some (), w).
Proof.
  unfold sceneSwitching. rewrite (bind_after getApp _ w (app w) w) by done.
  by case_bool_decide.
Qed.

Lemma hookEvents_eligible f args cur ls :
  hookEvents f args cur (indexed ls) =
    (λ i, EvHook f i args cur) <$> eligible f ls.
Proof. unfold hookEvents, eligible. by rewrite <- list_fmap_compose. Qed.

Lemma hookEvents_eligible_reverse f args cur ls :
  hookEvents f args cur (reverse (indexed ls)) =
    (λ i, EvHook f i args cur) <$> reverse (eligible f ls).
Proof.
  rewrite <- called_reverse_eligible. unfold hookEvents.
  by rewrite <- list_fmap_compose.
Qed.

(** ** The scene transition *)

(** ** What the steps of a run keep *)

Lemma steady_preorder {X} (π : Application → X) (P : X → Event → Prop) :
  PreOrder (@steady F X π P).
Proof.
  split.
  - intros w. split; [done|]. exists []. by rewrite app_nil_r.
  - intros w1 w2 w3 [Hπ1 (evs1 & Ht1 & HP1)] [Hπ2 (evs2 & Ht2 & HP2)]. split.
    + congruence.
    + exists (evs1 ++ evs2). split.
      * by rewrite Ht2, Ht1, app_assoc.
      * apply Forall_app. split; [done|]. by rewrite <- Hπ1.
Qed.

#[local] Existing Instance steady_preorder.

Section Steady.
Context {X : Type} (π : Application → X) (P : X → Event → Prop).

#[local] Abbreviation kept := (@steady F X π P).

Lemma steady_same w : kept w w.
Proof. reflexivity. Qed.

Lemma steady_modApp g : (∀ a, π (g a) = π a) → preserves kept (modApp g).
Proof.
  intros Hg w. split; [apply Hg|]. exists []. simpl. by rewrite app_nil_r.
Qed.

Lemma steady_modDisk g : preserves kept (modDisk g).
Proof. intros w. split; [done|]. exists []. simpl. by rewrite app_nil_r. Qed.

Lemma steady_modTiming g : preserves kept (modTiming g).
Proof. intros w. split; [done|]. exists []. simpl. by rewrite app_nil_r. Qed.

Lemma steady_modScene p g : preserves kept (modScene p g).
Proof.
  intros w. unfold modScene. destruct p as [n|]; [|apply steady_same].
  destruct (scenes w !! n); [|apply steady_same].
  split; [done|]. exists []. simpl. by rewrite app_nil_r.
Qed.

Lemma steady_emit e : (∀ x, P x e) → preserves kept (emit e).
Proof.
  intros He w. split; [done|]. exists [e]. split; [done|]. by constructor.
Qed.

Lemma steady_Scene_Load path :
  (∀ x, P x (EvSceneLoad path)) → preserves kept (Scene_Load path).
Proof.
  intros He w. unfold Scene_Load.
  destruct (sceneFiles (disk w) path); (split; [done|]);
    exists [EvSceneLoad path]; (split; [done|]); by constructor.
Qed.

Lemma steady_invoke f args i layer :
  (∀ a, P (π a) (EvHook f i args (_currentScene a))) →
  (∀ c a, π (applyApi c a) = π a) →
  preserves kept (invoke f args i layer).
Proof.
  intros He Hc w. rewrite invoke_eq. split.
  - simpl. generalize (app w). induction (Hooks layer f) as [|c cs IH]; intros a.
    + done.
    + simpl. change (foldl _ ?a0 cs) with (applyApis cs a0). by rewrite IH, Hc.
  - exists [EvHook f i args (_currentScene (app w))]. split; [done|].
    constructor; [apply He|done].
Qed.

Lemma preserves_JsonGet (R : relation (@World F)) `{!PreOrder R} blob key d :
  preserves R (JsonGet blob key d).
Proof.
  unfold JsonGet. destruct (json_find key blob) as [[]|];
    first [apply preserves_ret | apply preserves_crash]; exact _.
Qed.

Lemma preserves_mainLoop (R : relation (@World F)) `{!PreOrder R} inputs sw :
  (∀ inp sw, preserves R (frame inp sw)) → preserves R (mainLoop inputs sw).
Proof.
  intros Hframe. revert sw. induction inputs as [|inp inputs IH]; intros sw w.
  - simpl. by destruct (_isRunning (app w)).
  - simpl. destruct (_isRunning (app w)); [|done].
    specialize (Hframe inp sw w).
    destruct (frame inp sw w) as [[sw'|] w1]; simpl in *; [|done].
    etrans; [exact Hframe|apply IH].
Qed.
End Steady.

(** Breaks a computation down to its primitive steps, as [quiet_steps_using]
    does, for a steady relation; [side] closes the conditions on the kept
    part and on the events. *)
Ltac steady_steps_using known side :=
  repeat first
    [ match goal with |- PreOrder _ => exact _ end
    | known
    | apply steady_modApp; side
    | apply steady_modDisk | apply steady_modScene | apply steady_modTiming
    | apply steady_emit; side
    | apply steady_Scene_Load; side
    | apply steady_invoke; side
    | apply preserves_JsonGet
    | apply preserves_getApp | apply preserves_getDisk | apply preserves_deref
    | apply preserves_ret | apply preserves_crash | apply preserves_orCrash
    | match goal with
      | |- preserves _ (mbind _ _) => apply preserves_bind; [exact _| |intros ?]
      | |- preserves _ (forEach _ _) => apply preserves_forEach; [exact _|intros [??]]
      | |- preserves _ (foldM _ _ _) => apply preserves_foldM; [exact _|intros ? [??]]
      | |- preserves _ (if ?b then _ else _) => destruct b
      | |- preserves _ (match ?o with Some _ => _ | None => _ end) => destruct o
      | |- preserves _ (let '(_, _) := ?p in _) => destruct p
      end ].

Ltac steady_side := solve [ by intros ? | by intros [] ? ].

Ltac steady_steps := steady_steps_using fail steady_side.

Lemma steady_LoadScene {X} (π : Application → X) (P : X → Event → Prop) path :
  (∀ a s, π (set_targetScene s a) = π a) →
  (∀ a b1 b2 b3, π (set_gameFlags b1 b2 b3 a) = π a) →
  (∀ x e, hookOnly noHook e → P x e) →
  preserves (@steady F X π P) (LoadScene path).
Proof.
  intros Ht Hg HP. unfold LoadScene, LoadScene_ptr.
  steady_steps_using fail ltac:(solve [by intros ? | intros ?; by apply HP]).
Qed.

Lemma steady_frameRest inp sw :
  preserves (@steady F _ layersAndScene (λ x, hookSeen isPhase x.2)) (frameRest inp sw).
Proof.
  unfold frameRest, startScreen, pauseScreen, sceneReload, pollEvents, afterPoll,
    timingUpdate, coreUpdate, endFrame, setRenderEnabled, setPanelEnabled,
    onAudioManager, _Update, _LateUpdate, _PreRender, _RenderScene, _PostRender.
  steady_steps_using
    ltac:(apply steady_LoadScene; [done|done|by intros ? []])
    steady_side.
Qed.

Lemma steady_sceneSwitching :
  preserves (@steady F _ _layers (λ _, hookOnly sceneHook)) sceneSwitching.
Proof. unfold sceneSwitching, _HandleSceneChange. steady_steps. Qed.

Lemma steady_emitted {X} (π : Application → X) (P : X → Event → Prop)
    {A} (m : M A) w :
  @steady F X π P w (m w).2 → Forall (P (π (app w))) (emitted m w).
Proof.
  intros [_ (evs & Ht & HP)]. unfold emitted. by rewrite Ht, drop_app_length.
Qed.

Lemma exec_frame inp sw w :
  (sceneSwitching w).1 = Some () →
  exec (frame inp sw) w = exec (frameRest inp sw) (exec sceneSwitching w).
Proof.
  intros Hsw. unfold exec, frame. rewrite bind_case.
  by destruct (sceneSwitching w) as [[[]|] w1].
Qed.

(** *** [Awake] in a frame *)

Lemma awakes_app evs1 evs2 : awakes (evs1 ++ evs2) = awakes evs1 ++ awakes evs2.
Proof. apply omap_app. Qed.

Lemma awakes_hookEvents f args cur xs : awakes (hookEvents f args cur xs) = [].
Proof. unfold hookEvents. by induction (called f xs). Qed.

Lemma awakes_unloadEvents a : awakes (unloadEvents a) = [].
Proof. unfold unloadEvents. case_bool_decide; [apply awakes_hookEvents|done]. Qed.

Lemma awakes_none evs : Forall (λ e, awakes [e] = []) evs → awakes evs = [].
Proof.
  induction 1 as [|e evs He _ IH]; [done|].
  change (e :: evs) with ([e] ++ evs). by rewrite awakes_app, He, IH.
Qed.

(** What follows the scene switching in a frame never calls [Awake]. *)
Lemma awakes_frameRest inp sw w : awakes (emitted (frameRest inp sw) w) = [].
Proof.
  apply awakes_none.
  apply (steady_emitted (λ _, ()) (λ _ e, awakes [e] = [])).
  revert w.
  change (preserves (@steady F _ (λ _, ()) (λ _ e, awakes [e] = []))
            (frameRest inp sw)).
  unfold frameRest, startScreen, pauseScreen, sceneReload, pollEvents, afterPoll,
    timingUpdate, coreUpdate, endFrame, setRenderEnabled, setPanelEnabled,
    onAudioManager, LoadScene, LoadScene_ptr,
    _Update, _LateUpdate, _PreRender, _RenderScene, _PostRender.
  steady_steps.
Qed.

Lemma awakeKept_preorder : PreOrder (@awakeKept F).
Proof.
  split.
  - intros w t s Hs. by exists s.
  - intros w1 w2 w3 H12 H23 t s Hs.
    destruct (H12 t s Hs) as (s2 & Hs2 & Heq2).
    destruct (H23 t s2 Hs2) as (s3 & Hs3 & Heq3).
    exists s3. split; [done|congruence].
Qed.

#[local] Existing Instance awakeKept_preorder.

Lemma awakeKept_same_scenes {A} (m : M A) :
  (∀ w, scenes (m w).2 = scenes w) → preserves (@awakeKept F) m.
Proof. intros Hm w t s Hs. exists s. by rewrite Hm. Qed.

Lemma awakeKept_modScene p g :
  (∀ s, awakeCalls <$> Objects (g s) = awakeCalls <$> Objects s) →
  preserves (@awakeKept F) (modScene p g).
Proof.
  intros Hg w t s Hs. unfold modScene. destruct p as [n|]; [|by exists s].
  destruct (scenes w !! n) as [s0|] eqn:Hn; [|by exists s]. cbn [snd set_scenes scenes].
  destruct (decide (t = n)) as [->|Hne].
  - exists (g s0). rewrite lookup_insert_eq. split; [done|]. rewrite Hg. congruence.
  - exists s. by rewrite lookup_insert_ne.
Qed.

Lemma awakeKept_Scene_Load path : preserves (@awakeKept F) (Scene_Load path).
Proof.
  intros w t s Hs. unfold Scene_Load.
  destruct (sceneFiles (disk w) path) as [s0|]; [|by exists s].
  cbn [snd set_scenes scenes set_trace]. exists s. split; [|done].
  rewrite lookup_insert_ne; [done|]. intros <-.
  apply (is_fresh (dom (scenes w))). by apply elem_of_dom.
Qed.

Lemma awakeCalls_insert (os : list GameObject) i o o' :
  os !! i = Some o → awakeCalls o' = awakeCalls o →
  awakeCalls <$> <[i := o']> os = awakeCalls <$> os.
Proof.
  intros Ho Heq. rewrite list_fmap_insert, Heq. apply list_insert_id.
  by rewrite list_lookup_fmap, Ho.
Qed.

Lemma awakeKept_setRenderEnabled name b :
  preserves (@awakeKept F) (setRenderEnabled name b).
Proof.
  intros w. unfold setRenderEnabled. rewrite bind_case. cbn [getApp].
  rewrite bind_case. unfold deref.
  destruct (_currentScene (app w)) as [n|]; [|reflexivity]. cbn [mbind option_bind].
  destruct (scenes w !! n) as [s0|] eqn:Hn; [|reflexivity].
  rewrite bind_case. destruct (FindObjectByName name s0) as [i|]; [|reflexivity].
  cbn [orCrash]. unfold mret at 1, M_ret at 1. rewrite bind_case.
  destruct (Objects s0 !! i) as [o|] eqn:Ho; [|reflexivity].
  cbn [orCrash]. unfold mret at 1, M_ret at 1. rewrite bind_case.
  destruct (RenderComponent o); [|reflexivity].
  cbn [orCrash]. unfold mret at 1, M_ret at 1.
  intros t s Hs. unfold modScene. rewrite Hn. cbn [snd set_scenes scenes].
  destruct (decide (t = n)) as [->|Hne].
  - eexists. rewrite lookup_insert_eq. split; [done|]. cbn [withObjects Objects].
    rewrite (awakeCalls_insert _ i o) by done. congruence.
  - exists s. by rewrite lookup_insert_ne.
Qed.

Lemma awakeKept_setPanelEnabled i b :
  preserves (@awakeKept F) (setPanelEnabled i b).
Proof.
  intros w. unfold setPanelEnabled. rewrite bind_case. cbn [getApp].
  rewrite bind_case. unfold deref.
  destruct (_currentScene (app w)) as [n|]; [|reflexivity]. cbn [mbind option_bind].
  destruct (scenes w !! n) as [s0|] eqn:Hn; [|reflexivity].
  rewrite bind_case.
  destruct (Objects s0 !! i) as [o|] eqn:Ho; [|reflexivity].
  cbn [orCrash]. unfold mret at 1, M_ret at 1. rewrite bind_case.
  destruct (GuiPanel o); [|reflexivity].
  cbn [orCrash]. unfold mret at 1, M_ret at 1.
  intros t s Hs. unfold modScene. rewrite Hn. cbn [snd set_scenes scenes].
  destruct (decide (t = n)) as [->|Hne].
  - eexists. rewrite lookup_insert_eq. split; [done|]. cbn [withObjects Objects].
    rewrite (awakeCalls_insert _ i o) by done. congruence.
  - exists s. by rewrite lookup_insert_ne.
Qed.

Ltac awake_steps :=
  repeat first
    [ match goal with |- PreOrder _ => exact _ end
    | apply awakeKept_setRenderEnabled | apply awakeKept_setPanelEnabled
    | apply awakeKept_Scene_Load
    | apply awakeKept_modScene; by intros ?
    | apply awakeKept_same_scenes; intros ?; by rewrite ?invoke_eq
    | apply preserves_getApp | apply preserves_getDisk | apply preserves_deref
    | apply preserves_ret | apply preserves_crash | apply preserves_orCrash
    | match goal with
      | |- preserves _ (mbind _ _) => apply preserves_bind; [exact _| |intros ?]
      | |- preserves _ (forEach _ _) => apply preserves_forEach; [exact _|intros [??]]
      | |- preserves _ (foldM _ _ _) => apply preserves_foldM; [exact _|intros ? [??]]
      | |- preserves _ (if ?b then _ else _) => destruct b
      | |- preserves _ (match ?o with Some _ => _ | None => _ end) => destruct o
      | |- preserves _ (let '(_, _) := ?p in _) => destruct p
      end ].

(** What follows the scene switching in a frame calls [Awake] on nothing. *)
Lemma awakeKept_frameRest inp sw : preserves (@awakeKept F) (frameRest inp sw).
Proof.
  unfold frameRest, startScreen, pauseScreen, sceneReload, pollEvents, afterPoll,
    timingUpdate, coreUpdate, endFrame, onAudioManager, LoadScene, LoadScene_ptr,
    _Update, _LateUpdate, _PreRender, _RenderScene, _PostRender.
  awake_steps.
Qed.

Lemma applyApis_only_quit cs a :
  Forall (λ c, c = ApiQuit) cs → _targetScene (applyApis cs a) = _targetScene a.
Proof.
  intros Hquit. revert a. induction Hquit as [|c cs -> _ IH]; intros a; [done|].
  simpl. by rewrite IH.
Qed.

(** C3. When a target scene is staged at the top of a frame, the frame
    starts with the transition: [OnSceneUnload] for the eligible layers in
    reverse registration order, only if there is a current scene; then the
    target becomes the current scene, which the [OnSceneLoad] hooks, called
    in registration order, already find; then the new scene's [Awake], once,
    called while the scene's [IsPlaying] is still as it was and the target
    slot still holds what the [OnSceneLoad] hooks left there (the staged
    scene, when none of them stages another); only then is [IsPlaying] set,
    unless in editor mode, where it is left as it was, and the target slot
    cleared. Everything else of the frame comes after: [Awake] has run on
    every object of the scene exactly once more when the first phase hook of
    the frame is called, and the rest of the frame calls no [Awake] and
    leaves the counts alone. ([t] is the target as the unload hooks leave
    it: the staged scene, unless one of them stages another.) *)
Theorem scene_transition_sequence inp sw w (t : nat) (s : Scene) :
  let a := app w in
  let w1 := exec sceneSwitching w in
  let w' := exec (frame inp sw) w in
  let transition :=
    unloadEvents a ++ loadEvents (Some t) a
      ++ [EvSceneAwake t (IsPlaying s) (_targetScene (loadedApp a))] in
  _targetScene a ≠ None →
  _targetScene (unloadedApp a) = Some t →
  scenes w !! t = Some s →
  emitted (frame inp sw) w = transition ++ emitted (frameRest inp sw) w1 ∧
  unloadEvents a =
    (if bool_decide (_currentScene a ≠ None)
     then (λ i, EvHook OnSceneUnload i NoArgs (_currentScene a))
            <$> reverse (eligible OnSceneUnload (_layers a))
     else []) ∧
  loadEvents (Some t) a =
    (λ i, EvHook OnSceneLoad i NoArgs (Some t)) <$> eligible OnSceneLoad (_layers a) ∧
  (Forall (λ c, c = ApiQuit) (scripts OnSceneLoad (indexed (_layers a))) →
   _targetScene (loadedApp a) = Some t) ∧
  _currentScene (app w1) = Some t ∧
  scenes w1 !! t = Some (awakenedScene (_isEditor a) s) ∧
  IsPlaying <$> scenes w1 !! t = Some (if _isEditor a then IsPlaying s else true) ∧
  _targetScene (app w1) = None ∧
  awakes (emitted (frame inp sw) w) = [t] ∧
  (∀ f, f ∈ framePhases → hookCalls f transition = []) ∧
  awakeCalls <$> Objects (awakenedScene (_isEditor a) s)
    = S <$> (awakeCalls <$> Objects s) ∧
  (∃ s', scenes w' !! t = Some s' ∧
         awakeCalls <$> Objects s' = S <$> (awakeCalls <$> Objects s)).
Proof.
  intros a w1 w' transition Hstaged Ht Hs.
  assert (sceneSwitching w = _HandleSceneChange w) as Hswitch.
  { rewrite sceneSwitching_eq. by rewrite bool_decide_true. }
  pose proof (_HandleSceneChange_ok w t s Ht Hs) as Hok.
  assert (emitted sceneSwitching w = transition) as Hev.
  { rewrite (emitted_eq _ _ _ Hswitch), emitted_HandleSceneChange.
    fold a. rewrite Ht. simpl. by rewrite Hs. }
  assert ((sceneSwitching w).1 = Some ()) as Hres by by rewrite Hswitch, Hok.
  assert (emitted (frame inp sw) w = transition ++ emitted (frameRest inp sw) w1)
    as Hframe.
  { rewrite frame_emitted, Hev, Hres. done. }
  assert (scenes w1 !! t = Some (awakenedScene (_isEditor a) s)) as Hw1.
  { subst w1. unfold exec. rewrite Hswitch, Hok. cbn [snd scenes]. fold a.
    by rewrite lookup_insert_eq. }
  assert (awakeCalls <$> Objects (awakenedScene (_isEditor a) s)
          = S <$> (awakeCalls <$> Objects s)) as Hcount.
  { unfold awakenedScene. destruct (_isEditor a); cbn [Scene_Awake withIsPlaying Objects];
      rewrite <- !list_fmap_compose; by apply list_fmap_ext. }
  split_and!; try done.
  - unfold unloadEvents. case_bool_decide; [|done].
    apply hookEvents_eligible_reverse.
  - apply hookEvents_eligible.
  - intros Hquit. unfold loadedApp. by rewrite applyApis_only_quit.
  - subst w1. unfold exec. rewrite Hswitch, Hok. simpl.
    unfold loadedApp. autorewrite with app_fields. simpl. done.
  - rewrite Hw1. unfold awakenedScene. by destruct (_isEditor a).
  - subst w1. unfold exec. by rewrite Hswitch, Hok.
  - rewrite Hframe. subst transition.
    rewrite !awakes_app, awakes_unloadEvents, awakes_frameRest.
    unfold loadEvents. by rewrite awakes_hookEvents.
  - intros f Hf. subst transition.
    rewrite !hookCalls_app, hookCalls_unloadEvents, hookCalls_loadEvents.
    unfold framePhases in Hf.
    repeat (apply elem_of_cons in Hf as [->|Hf]; [done|]).
    by apply elem_of_nil in Hf.
  - destruct (awakeKept_frameRest inp sw w1 t _ Hw1) as (s' & Hs' & Heq).
    exists s'. split; [|by rewrite Heq].
    subst w'. rewrite exec_frame by done. exact Hs'.
Qed.

(** ** Frames without a scene *)

(** C10. In a frame in which the current scene is null after the scene
    switching, no layer receives Update, LateUpdate, PreRender, Render or
    PostRender: the frame never gets to the five dispatchers, and these are
    guarded by the test of the current scene in any case. *)
Theorem no_phase_without_scene inp sw w f :
  f ∈ framePhases →
  _currentScene (app (exec sceneSwitching w)) = None →
  hookCalls f (emitted (frame inp sw) w) = [] ∧
  coreUpdate inp (exec sceneSwitching w) = (Some (), exec sceneSwitching w).
Proof.
  intros Hf Hnull. split.
  - rewrite frame_emitted, hookCalls_app.
    assert (hookCalls f (emitted sceneSwitching w) = []) as ->.
    { unfold emitted. rewrite sceneSwitching_eq. case_bool_decide.
      - change (drop _ _) with (emitted _HandleSceneChange w).
        rewrite emitted_HandleSceneChange, !hookCalls_app.
        rewrite hookCalls_unloadEvents, hookCalls_loadEvents.
        unfold framePhases in Hf.
        repeat (apply elem_of_cons in Hf as [->|Hf]; [by destruct (_ ≫= _)|]).
        by apply elem_of_nil in Hf.
      - simpl. by rewrite drop_all. }
    destruct (sceneSwitching w).1; [|done]. simpl.
    by erewrite emitted_same by by apply frameRest_null.
  - rewrite coreUpdate_eq. by rewrite bool_decide_false by (by rewrite Hnull; auto).
Qed.

(** ** The rest of a frame after the poll *)

Lemma afterPoll_eq inp w :
  afterPoll inp w =
    (Some (),
     {| app := if bool_decide (_currentScene (app w) ≠ None)
               then phaseApp (app w) else app w;
        timing := updateTiming (dt inp) (timing w);
        scenes := scenes w;
        disk := disk w;
        trace := trace w ++ [EvImGuiStartFrame] ++
                 (if bool_decide (_currentScene (app w) ≠ None)
                  then phaseEvents (_layers (app w)) (_currentScene (app w))
                         (glfwWindowSize inp) (_primaryViewport (app w))
                  else []) ++
                 [EvInputEndFrame; EvImGuiEndFrame; EvSwapBuffers] |}).
Proof.
  unfold afterPoll, timingUpdate, endFrame.
  unfold mbind at 1 2, M_bind at 1 2. simpl.
  erewrite bind_after by apply coreUpdate_eq. simpl.
  case_bool_decide; run; by rewrite <- !app_assoc.
Qed.

Lemma afterPoll_stopped inp w :
  afterPoll inp (stopped w) = (Some (), stopped (exec (afterPoll inp) w)).
Proof.
  unfold exec. rewrite !afterPoll_eq. unfold stopped. simpl.
  by case_bool_decide; rewrite ?phaseApp_quit.
Qed.

Lemma stopped_stopped w : stopped (stopped w) = stopped w.
Proof. done. Qed.

Lemma pollEvents_close inp w :
  pollEvents (withShouldClose true inp) w
  = (Some (), stopped (exec (pollEvents (withShouldClose false inp)) w)).
Proof. done. Qed.

Lemma pollEvents_eq inp w :
  pollEvents inp w =
    (Some (), {| app := if shouldClose inp then set_isRunning false (app w) else app w;
                 timing := timing w; scenes := scenes w; disk := disk w;
                 trace := trace w ++ [EvPollEvents] |}).
Proof. unfold pollEvents. by destruct (shouldClose inp). Qed.

(** A frame up to the poll does not depend on the close request. *)
Lemma frame_unfold inp sw w :
  frame inp sw w =
    match sceneSwitching w with
    | (Some _, w1) =>
        match startScreen inp sw w1 with
        | (Some swapping, w2) =>
            match pauseScreen inp w2 with
            | (Some _, w3) =>
                match sceneReload inp w3 with
                | (Some _, w4) =>
                    (Some swapping, exec (afterPoll inp) (exec (pollEvents inp) w4))
                | (None, w4) => (None, w4)
                end
            | (None, w3) => (None, w3)
            end
        | (None, w2) => (None, w2)
        end
    | (None, w1) => (None, w1)
    end.
Proof.
  unfold frame, frameRest. rewrite bind_case.
  destruct (sceneSwitching w) as [[[]|] w1]; [|reflexivity].
  rewrite bind_case.
  destruct (startScreen inp sw w1) as [[swapping|] w2]; [|reflexivity].
  rewrite bind_case.
  destruct (pauseScreen inp w2) as [[[]|] w3]; [|reflexivity].
  rewrite bind_case.
  destruct (sceneReload inp w3) as [[[]|] w4]; [|reflexivity].
  rewrite bind_case, pollEvents_eq, bind_case, afterPoll_eq.
  unfold exec. by rewrite pollEvents_eq, afterPoll_eq.
Qed.

(** *** The timing update of a frame *)

(** A frame that completes has updated the timing values once; a frame
    that stops the program has not touched them. *)
Lemma frame_timing inp sw w :
  timing (exec (frame inp sw) w) =
    if (frame inp sw w).1 is Some _ then updateTiming (dt inp) (timing w)
    else timing w.
Proof.
  unfold exec at 1. rewrite frame_unfold.
  destruct (quiet_sceneSwitching w) as [H1 _].
  destruct (sceneSwitching w) as [[[]|] w1]; simpl in *; [|done].
  destruct (quiet_startScreen inp sw w1) as [H2 _].
  destruct (startScreen inp sw w1) as [[swapping|] w2]; simpl in *; [|congruence].
  destruct (quiet_pauseScreen inp w2) as [H3 _].
  destruct (pauseScreen inp w2) as [[[]|] w3]; simpl in *; [|congruence].
  destruct (quiet_sceneReload inp w3) as [H4 _].
  destruct (sceneReload inp w3) as [[[]|] w4]; simpl in *; [|congruence].
  unfold exec. rewrite afterPoll_eq, pollEvents_eq. simpl. congruence.
Qed.

(** ** Stop requests *)

Lemma mainLoop_stopped inputs sw w :
  _isRunning (app w) = false → mainLoop inputs sw w = (Some Stopped, w).
Proof. intros Hrun. destruct inputs; simpl; by rewrite Hrun. Qed.

Lemma frame_tail_close inp w :
  exec (afterPoll (withShouldClose true inp))
    (exec (pollEvents (withShouldClose true inp)) w)
  = stopped (exec (afterPoll (withShouldClose false inp))
               (exec (pollEvents (withShouldClose false inp)) w)).
Proof.
  unfold exec at 1 2. rewrite pollEvents_close. cbn [snd].
  change (afterPoll (withShouldClose true inp))
    with (afterPoll (withShouldClose false inp)).
  by rewrite afterPoll_stopped.
Qed.

Lemma hookCalls_other ok f evs :
  ok f = false → Forall (hookOnly ok) evs → hookCalls f evs = [].
Proof.
  intros Hf. induction 1 as [|e evs He _ IH]; [done|].
  change (e :: evs) with ([e] ++ evs). rewrite hookCalls_app, IH, app_nil_r.
  destruct e; try done. simpl in He. unfold hookCalls. simpl.
  case_decide; [congruence|done].
Qed.

(** The calls of a phase hook in the events of the five phases. *)
Lemma hookCalls_phaseEvents f ls cur size viewport :
  f ∈ framePhases →
  hookCalls f (phaseEvents ls cur size viewport) =
    if reverseOrder f then reverse (eligible f ls) else eligible f ls.
Proof.
  intros Hf. unfold phaseEvents.
  rewrite !hookCalls_app, !hookCalls_hookEvents, hookCalls_renderEvents,
    hookCalls_blitEvents, called_reverse_eligible.
  change (hookCalls f [EvViewport (0, 0, size.1, size.2);
                       EvScissor (0, 0, size.1, size.2); EvClear]) with (@nil nat).
  unfold framePhases in Hf.
  repeat (apply elem_of_cons in Hf as [->|Hf];
    [repeat (case_decide; try congruence); cbn [reverseOrder app];
     by rewrite ?app_nil_r|]).
  by apply elem_of_nil in Hf.
Qed.

(** An iteration is what comes before the poll, the poll, and what follows
    it. *)
Lemma frame_beforePoll inp sw w :
  frame inp sw w =
    (swapping ← beforePoll inp sw;
     pollEvents inp;; afterPoll inp;; mret swapping) w.
Proof.
  unfold frame, frameRest, beforePoll. rewrite !bind_case.
  destruct (sceneSwitching w) as [[[]|] w1]; [|reflexivity].
  rewrite !bind_case.
  destruct (startScreen inp sw w1) as [[swapping|] w2]; [|reflexivity].
  rewrite !bind_case.
  destruct (pauseScreen inp w2) as [[[]|] w3]; [|reflexivity].
  rewrite !bind_case.
  destruct (sceneReload inp w3) as [[[]|] w4]; reflexivity.
Qed.

Lemma steady_beforePoll inp sw :
  preserves (@steady F _ _layers (λ _, hookOnly sceneHook)) (beforePoll inp sw).
Proof.
  unfold beforePoll, sceneSwitching, _HandleSceneChange, startScreen, pauseScreen,
    sceneReload, setRenderEnabled, setPanelEnabled, onAudioManager.
  steady_steps_using
    ltac:(apply steady_LoadScene; [done|done|by intros ? []])
    steady_side.
Qed.

Lemma quiet_beforePoll inp sw : preserves (@quiet F) (beforePoll inp sw).
Proof.
  unfold beforePoll.
  apply preserves_bind; [exact _|apply quiet_sceneSwitching|intros _].
  apply preserves_bind; [exact _|apply quiet_startScreen|intros swapping].
  apply preserves_bind; [exact _|apply quiet_pauseScreen|intros _].
  apply preserves_bind; [exact _|apply quiet_sceneReload|intros _].
  apply preserves_ret; exact _.
Qed.

Lemma applyApis_stopped cs a :
  _isRunning a = false → _isRunning (applyApis cs a) = false.
Proof.
  revert a. induction cs as [|c cs IH]; intros a Ha; [done|].
  simpl. apply IH. by destruct c.
Qed.

(** One call of [Quit] among the calls of the hooks clears the running
    flag for good. *)
Lemma applyApis_Quit cs a : ApiQuit ∈ cs → _isRunning (applyApis cs a) = false.
Proof.
  revert a. induction cs as [|c cs IH]; intros a Hin.
  - by apply elem_of_nil in Hin.
  - simpl. apply elem_of_cons in Hin as [<-|Hin].
    + by apply applyApis_stopped.
    + by apply IH.
Qed.

Lemma phaseApp_scripts a :
  phaseApp a =
    set_renderOutput
      (postResult (renderResult (indexed (_layers a))) (reverse (indexed (_layers a))))
      (applyApis (phaseScripts (_layers a)) a).
Proof. reflexivity. Qed.

(** A frame that gets to the poll runs to its end. *)
Lemma frame_of_beforePoll inp sw w swapping w4 :
  beforePoll inp sw w = (Some swapping, w4) →
  frame inp sw w = (Some swapping, exec (afterPoll inp) (exec (pollEvents inp) w4)) ∧
  _layers (app w4) = _layers (app w) ∧
  timing w4 = timing w ∧
  Forall (hookOnly sceneHook) (emitted (beforePoll inp sw) w) ∧
  emitted (frame inp sw) w =
    emitted (beforePoll inp sw) w ++
    [EvPollEvents; EvImGuiStartFrame] ++
    (if bool_decide (_currentScene (app w4) ≠ None)
     then phaseEvents (_layers (app w)) (_currentScene (app w4))
            (glfwWindowSize inp) (_primaryViewport (app w4))
     else []) ++
    [EvInputEndFrame; EvImGuiEndFrame; EvSwapBuffers].
Proof.
  intros Hbefore.
  pose proof (steady_beforePoll inp sw w) as [Hls (evs & Htrace & Hevs)].
  pose proof (quiet_beforePoll inp sw w) as [Htiming _].
  rewrite Hbefore in Hls, Htrace, Htiming. cbn [snd] in Hls, Htrace, Htiming.
  assert (emitted (beforePoll inp sw) w = evs) as Hbefore_evs.
  { unfold emitted. rewrite Hbefore. cbn [snd]. by rewrite Htrace, drop_app_length. }
  assert (frame inp sw w =
            (Some swapping, exec (afterPoll inp) (exec (pollEvents inp) w4))) as Hframe.
  { rewrite frame_beforePoll, bind_case, Hbefore.
    rewrite bind_case, pollEvents_eq, bind_case, afterPoll_eq.
    unfold exec. by rewrite pollEvents_eq, afterPoll_eq. }
  split; [done|]. split; [done|]. split; [done|]. split; [by rewrite Hbefore_evs|].
  rewrite Hbefore_evs.
  unfold emitted. rewrite Hframe. cbn [snd]. unfold exec.
  rewrite pollEvents_eq. cbn [snd]. rewrite afterPoll_eq. cbn [snd trace app].
  assert (_currentScene (if shouldClose inp then set_isRunning false (app w4)
                         else app w4) = _currentScene (app w4)) as ->
    by by destruct (shouldClose inp).
  assert (_layers (if shouldClose inp then set_isRunning false (app w4)
                   else app w4) = _layers (app w)) as ->.
  { rewrite <- Hls. by destruct (shouldClose inp). }
  assert (_primaryViewport (if shouldClose inp then set_isRunning false (app w4)
                            else app w4) = _primaryViewport (app w4)) as ->
    by by destruct (shouldClose inp).
  rewrite Htrace, <- !app_assoc, drop_app_length. reflexivity.
Qed.

(** C9. A close request of the window (or a call of [Quit]) only clears the
    running flag. An iteration is what comes before the poll, the poll and
    what follows it; once the poll is reached, the rest of the iteration
    runs to its end whether or not the window asks to close and whatever
    the hooks call: the timing update, then Update, LateUpdate, PreRender,
    Render and PostRender on every eligible layer, then the end of the
    frame. The frame with the request gives the same result, events,
    timing, scenes and files as the frame without it, and the same
    Application but for the flag. The loop is left only where it tests the
    flag, at the top of the next iteration. *)
Theorem stop_request_completes_frame inp sw w :
  let closing := frame (withShouldClose true inp) sw w in
  let staying := frame (withShouldClose false inp) sw w in
  closing.1 = staying.1 ∧
  (closing.2 = staying.2 ∨ closing.2 = stopped staying.2) ∧
  (is_Some closing.1 → _isRunning (app closing.2) = false) ∧
  Quit w = (Some (), stopped w) ∧
  afterPoll inp (stopped w) = (Some (), stopped (exec (afterPoll inp) w)) ∧
  afterPoll inp w = (Some (), exec (afterPoll inp) w) ∧
  timing (exec (afterPoll inp) w) = updateTiming (dt inp) (timing w) ∧
  emitted (afterPoll inp) w =
    [EvImGuiStartFrame] ++
    (if bool_decide (_currentScene (app w) ≠ None)
     then phaseEvents (_layers (app w)) (_currentScene (app w))
            (glfwWindowSize inp) (_primaryViewport (app w))
     else []) ++
    [EvInputEndFrame; EvImGuiEndFrame; EvSwapBuffers] ∧
  (∀ rest sw', mainLoop rest sw' (stopped w) = (Some Stopped, stopped w)) ∧
  (∀ rest, _isRunning (app w) = true →
     mainLoop (inp :: rest) sw w = (frame inp sw ≫= mainLoop rest) w) ∧
  frame inp sw w =
    (swapping ← beforePoll inp sw;
     pollEvents inp;; afterPoll inp;; mret swapping) w ∧
  (∀ swapping w4,
     beforePoll inp sw w = (Some swapping, w4) →
     let cur := _currentScene (app w4) in
     let ls := _layers (app w) in
     let w' := exec (frame inp sw) w in
     frame inp sw w = (Some swapping, w') ∧
     emitted (frame inp sw) w =
       emitted (beforePoll inp sw) w ++
       [EvPollEvents; EvImGuiStartFrame] ++
       (if bool_decide (cur ≠ None)
        then phaseEvents ls cur (glfwWindowSize inp) (_primaryViewport (app w4))
        else []) ++
       [EvInputEndFrame; EvImGuiEndFrame; EvSwapBuffers] ∧
     (∀ f, f ∈ framePhases → cur ≠ None →
        hookCalls f (emitted (frame inp sw) w) =
          if reverseOrder f then reverse (eligible f ls) else eligible f ls) ∧
     timing w' = updateTiming (dt inp) (timing w) ∧
     (shouldClose inp = true ∨ (cur ≠ None ∧ ApiQuit ∈ phaseScripts ls) →
        _isRunning (app w') = false ∧
        ∀ rest, _isRunning (app w) = true →
          mainLoop (inp :: rest) sw w = (Some Stopped, w'))).
Proof.
  intros closing staying.
  assert (closing.1 = staying.1 ∧
          (closing.2 = staying.2 ∨ closing.2 = stopped staying.2) ∧
          (is_Some closing.1 → _isRunning (app closing.2) = false)) as Hclose.
  { subst closing staying. rewrite !frame_unfold.
    destruct (sceneSwitching w) as [[[]|] w1]; [|by split_and!; [|left|intros []]].
    change (startScreen (withShouldClose true inp) sw w1)
      with (startScreen (withShouldClose false inp) sw w1).
    destruct (startScreen _ sw w1) as [[swapping|] w2];
      [|by split_and!; [|left|intros []]].
    change (pauseScreen (withShouldClose true inp) w2)
      with (pauseScreen (withShouldClose false inp) w2).
    destruct (pauseScreen _ w2) as [[[]|] w3]; [|by split_and!; [|left|intros []]].
    change (sceneReload (withShouldClose true inp) w3)
      with (sceneReload (withShouldClose false inp) w3).
    destruct (sceneReload _ w3) as [[[]|] w4]; [|by split_and!; [|left|intros []]].
    rewrite frame_tail_close. cbn [fst snd].
    split_and!; [reflexivity|by right|intros _; reflexivity]. }
  destruct Hclose as (H1 & H2 & H3).
  split; [done|]. split; [done|]. split; [done|]. split; [done|].
  split; [apply afterPoll_stopped|].
  split; [unfold exec; by rewrite afterPoll_eq|].
  split; [unfold exec; by rewrite afterPoll_eq|].
  split.
  { unfold emitted. rewrite afterPoll_eq. cbn [snd trace]. apply drop_app_length. }
  split; [intros rest sw'; by apply mainLoop_stopped|].
  split; [intros rest Hrun; simpl; by rewrite Hrun|].
  split; [apply frame_beforePoll|].
  intros swapping w4 Hbefore cur ls w'.
  destruct (frame_of_beforePoll inp sw w swapping w4 Hbefore)
    as (Hframe & Hls & Htiming & Hevs & Hemitted).
  fold cur ls in Hemitted.
  set (evs := emitted (beforePoll inp sw) w) in *.
  assert (w' = exec (afterPoll inp) (exec (pollEvents inp) w4)) as Hw'.
  { subst w'. unfold exec at 1. by rewrite Hframe. }
  split; [by rewrite Hframe, Hw'|].
  split; [exact Hemitted|].
  split.
  { intros f Hf Hcur. rewrite Hemitted, hookCalls_app.
    rewrite (hookCalls_other sceneHook f evs); cycle 1.
    { unfold framePhases in Hf.
      repeat (apply elem_of_cons in Hf as [->|Hf]; [done|]).
      by apply elem_of_nil in Hf. }
    { exact Hevs. }
    rewrite bool_decide_true by done.
    change ([EvPollEvents; EvImGuiStartFrame] ++ ?l)
      with ([EvPollEvents; EvImGuiStartFrame] ++ l).
    rewrite !hookCalls_app, hookCalls_phaseEvents by done.
    change (hookCalls f [EvPollEvents; EvImGuiStartFrame]) with (@nil nat).
    change (hookCalls f [EvInputEndFrame; EvImGuiEndFrame; EvSwapBuffers])
      with (@nil nat).
    by rewrite !app_nil_l, app_nil_r. }
  split.
  { rewrite Hw'. unfold exec. rewrite afterPoll_eq, pollEvents_eq.
    cbn [snd timing]. by rewrite Htiming. }
  intros Hstop.
  assert (_isRunning (app w') = false) as Hflag.
  { rewrite Hw'. unfold exec. rewrite pollEvents_eq. cbn [snd].
    rewrite afterPoll_eq. cbn [snd app].
    destruct Hstop as [Hclose|[Hcur Hquit]].
    - rewrite Hclose. destruct (bool_decide _); [|done].
      by rewrite phaseApp_quit.
    - assert (_currentScene (if shouldClose inp then set_isRunning false (app w4)
                             else app w4) = cur) as -> by by destruct (shouldClose inp).
      rewrite bool_decide_true by done. rewrite phaseApp_scripts.
      cbn [_isRunning set_renderOutput]. apply applyApis_Quit.
      assert (_layers (if shouldClose inp then set_isRunning false (app w4)
                       else app w4) = ls) as ->; [|done].
      subst ls. rewrite <- Hls. by destruct (shouldClose inp). }
  split; [done|].
  intros rest Hrun. cbn [mainLoop]. rewrite Hrun, Hframe, <- Hw'.
  by apply mainLoop_stopped.
Qed.

(** ** Loading a scene from a file *)

(** C8. [LoadScene(path)] returns false and changes nothing (no scene is
    staged, the current scene stays) when no file exists at [path]. When the
    file exists, a missing manifest (the stem of [path] followed by
    "-manifest.json") is skipped; the scene is loaded and staged either way,
    and the call returns whether the loaded scene is non-null. *)
Theorem LoadScene_missing_or_staged path w :
  (file_exists path (disk w) = false → LoadScene path w = (Some false, w)) ∧
  (file_exists path (disk w) = true →
     let manifestPath := stem path +:+ "-manifest.json" in
     let w' := exec (LoadScene path) w in
     let scene := _targetScene (app w') in
     LoadScene path w = (Some (bool_decide (scene ≠ None)), w') ∧
     emitted (LoadScene path) w =
       (if file_exists manifestPath (disk w) then [EvLoadManifest manifestPath]
        else []) ++ [EvSceneLoad path] ∧
     (scene = None ↔ sceneFiles (disk w) path = None) ∧
     (∀ p, scene = Some p →
        scenes w !! p = None ∧ scenes w' !! p = sceneFiles (disk w) path) ∧
     _currentScene (app w') = _currentScene (app w)).
Proof.
  split.
  - intros Hex. unfold LoadScene. rewrite bind_case. cbn [getDisk]. by rewrite Hex.
  - intros Hex manifestPath w' scene. subst scene w'. unfold exec, emitted.
    unfold LoadScene. rewrite !bind_case. cbn [getDisk]. rewrite Hex.
    rewrite !bind_case. cbn [modApp set_app disk]. rewrite !bind_case.
    cbn [getDisk set_app disk]. fold manifestPath.
    assert (fresh (dom (scenes w)) ∉ dom (scenes w)) as Hfresh by apply is_fresh.
    apply not_elem_of_dom in Hfresh.
    unfold Scene_Load, LoadScene_ptr.
    destruct (file_exists manifestPath (disk w));
      destruct (sceneFiles (disk w) path) as [s|] eqn:Hs;
      run; rewrite ?Hs; run; rewrite ?drop_app_length;
      (split_and!; [done|by rewrite <- ?app_assoc, ?drop_app_length|
                    done|intros p ?; simplify_eq; by rewrite ?lookup_insert_eq|done]).
Qed.

(** ** Timing *)

Lemma timingAfter_timeScale ds (t0 : @Timing F) :
  _timeScale (timingAfter ds t0) = _timeScale t0.
Proof.
  revert t0. induction ds as [|d ds IH]; intros t0; [done|].
  unfold timingAfter in *. simpl. by rewrite IH.
Qed.

Lemma timingAfter_app ds1 ds2 (t0 : @Timing F) :
  timingAfter (ds1 ++ ds2) t0 = timingAfter ds2 (timingAfter ds1 t0).
Proof. apply foldl_app. Qed.

Lemma timingAfter_timeSinceAppLoad ds (t0 : @Timing F) :
  _timeSinceAppLoad (timingAfter ds t0)
  = fsumScaled (_timeScale t0) (_timeSinceAppLoad t0) ds.
Proof.
  revert t0. induction ds as [|d ds IH]; intros t0; [done|].
  unfold timingAfter, fsumScaled in *. simpl. by rewrite IH.
Qed.

Lemma timingAfter_timeSinceSceneLoad ds (t0 : @Timing F) :
  _timeSinceSceneLoad (timingAfter ds t0)
  = fsumScaled (_timeScale t0) (_timeSinceSceneLoad t0) ds.
Proof.
  revert t0. induction ds as [|d ds IH]; intros t0; [done|].
  unfold timingAfter, fsumScaled in *. simpl. by rewrite IH.
Qed.

Lemma timingAfter_unscaledTimeSinceAppLoad ds (t0 : @Timing F) :
  _unscaledTimeSinceAppLoad (timingAfter ds t0)
  = fsum (_unscaledTimeSinceAppLoad t0) ds.
Proof.
  revert t0. induction ds as [|d ds IH]; intros t0; [done|].
  unfold timingAfter, fsum in *. simpl. by rewrite IH.
Qed.

Lemma timingAfter_unscaledTimeSinceSceneLoad ds (t0 : @Timing F) :
  _unscaledTimeSinceSceneLoad (timingAfter ds t0)
  = fsum (_unscaledTimeSinceSceneLoad t0) ds.
Proof.
  revert t0. induction ds as [|d ds IH]; intros t0; [done|].
  unfold timingAfter, fsum in *. simpl. by rewrite IH.
Qed.

Lemma timingAfter_deltaTime ds (t0 : @Timing F) :
  ds ≠ [] →
  _deltaTime (timingAfter ds t0)
  = fmul (_unscaledDeltaTime (timingAfter ds t0)) (_timeScale (timingAfter ds t0)).
Proof.
  intros Hds. destruct (decide (ds = [])) as [|_]; [done|].
  induction ds as [|d ds IH] using rev_ind; [done|].
  rewrite timingAfter_app. simpl. done.
Qed.

(** With an exact arithmetic the rounded products add up to the product of
    the sum. *)
Lemma fsumScaled_exact (s : F) ds (start : F) :
  (∀ a b c : F, fmul (fadd a b) c = fadd (fmul a c) (fmul b c)) →
  fsumScaled s (fmul start s) ds = fmul (fsum start ds) s.
Proof.
  intros Hdistr. revert start. induction ds as [|d ds IH]; intros start; [done|].
  unfold fsumScaled, fsum in *. simpl. by rewrite <- Hdistr, IH.
Qed.

(** The frames of a run update the timing values one after the other, up
    to the frame at which the program stops, if it does. *)
Lemma frames_timing inputs sw w :
  ∃ k, timing (exec (frames inputs sw) w)
         = timingAfter (dt <$> take k inputs) (timing w) ∧
       (is_Some (frames inputs sw w).1 → k = length inputs).
Proof.
  revert sw w. induction inputs as [|inp inputs IH]; intros sw w.
  - by exists 0%nat.
  - pose proof (frame_timing inp sw w) as Hframe.
    unfold exec in *. simpl. rewrite bind_case.
    destruct (frame inp sw w) as [[sw'|] w1]; simpl in Hframe.
    + destruct (IH sw' w1) as (k & Hk & Hlen). exists (S k). split.
      * rewrite Hk, Hframe. done.
      * intros Hsome. by rewrite Hlen.
    + exists 0%nat. split; [done|]. by intros [? ?].
Qed.

(** After a run of frames with unscaled deltas [ds] and the time scale
    [s], [timeSinceAppLoad] is the running sum of the products [d * s],
    each rounded on its own, and [unscaledTimeSinceAppLoad] the running sum
    of the [d]; after every frame [deltaTime] is
    [unscaledDeltaTime * timeScale]. When multiplication distributes over
    addition (an exact arithmetic) and the counters start at zero,
    [timeSinceAppLoad] is [sum(ds) * s]. *)
Lemma frames_timing_sums inputs sw w :
  is_Some (frames inputs sw w).1 →
  let t0 := timing w in
  let t := timing (exec (frames inputs sw) w) in
  let ds := dt <$> inputs in
  let s := _timeScale t0 in
  _timeScale t = s ∧
  _timeSinceAppLoad t = fsumScaled s (_timeSinceAppLoad t0) ds ∧
  _unscaledTimeSinceAppLoad t = fsum (_unscaledTimeSinceAppLoad t0) ds ∧
  (inputs ≠ [] → _deltaTime t = fmul (_unscaledDeltaTime t) (_timeScale t)) ∧
  ((∀ a b c : F, fmul (fadd a b) c = fadd (fmul a c) (fmul b c)) →
   fmul fzero s = fzero →
   _timeSinceAppLoad t0 = fzero → _unscaledTimeSinceAppLoad t0 = fzero →
   _timeSinceAppLoad t = fmul (fsum fzero ds) s ∧
   _unscaledTimeSinceAppLoad t = fsum fzero ds).
Proof.
  intros Hsome t0 t ds s.
  destruct (frames_timing inputs sw w) as (k & Hk & Hlen).
  rewrite Hlen in Hk by done. rewrite firstn_all in Hk.
  subst t. rewrite Hk. fold ds t0.
  split_and!.
  - apply timingAfter_timeScale.
  - apply timingAfter_timeSinceAppLoad.
  - apply timingAfter_unscaledTimeSinceAppLoad.
  - intros Hne. apply timingAfter_deltaTime. subst ds. by destruct inputs.
  - intros Hdistr Hzero H0 H1.
    rewrite timingAfter_timeSinceAppLoad, timingAfter_unscaledTimeSinceAppLoad.
    fold s. rewrite H0, H1. split; [|done].
    rewrite <- Hzero at 1. by apply fsumScaled_exact.
Qed.

(** A run of frames that completes has completed each of its frames. *)
Lemma frames_take inputs sw w (k : nat) :
  is_Some (frames inputs sw w).1 → is_Some (frames (take k inputs) sw w).1.
Proof.
  revert k sw w. induction inputs as [|inp inputs IH]; intros k sw w Hsome.
  - by destruct k.
  - destruct k as [|k]; [by eexists|].
    cbn [take frames] in *. rewrite bind_case in *.
    destruct (frame inp sw w) as [[sw'|] w1]; [by apply IH|done].
Qed.

(** ** Settings *)

(** What merging an object patch leaves under each key. *)
Lemma merge_patch_lookup target ps k :
  members (merge_patch target (JObj ps)) !! k =
    match ps !! k with
    | None => members target !! k
    | Some v =>
        if is_null v then None
        else Some (merge_patch (default JNull (members target !! k)) v)
    end.
Proof.
  simpl. revert k.
  apply (map_fold_weak_ind
    (λ (r : gmap string json) (m : gmap string json),
       ∀ k, r !! k = match m !! k with
                     | None => members target !! k
                     | Some v => if is_null v then None
                                 else Some (merge_patch (default JNull (members target !! k)) v)
                     end)).
  - intros k. by rewrite lookup_empty.
  - intros i x m r Hi IH k. unfold patch_member.
    destruct (decide (i = k)) as [->|Hne].
    + rewrite lookup_insert_eq. specialize (IH k). rewrite Hi in IH.
      destruct (is_null x).
      * by rewrite lookup_delete_eq.
      * by rewrite lookup_insert_eq, IH.
    + rewrite lookup_insert_ne by done. rewrite <- IH.
      destruct (is_null x).
      * by rewrite lookup_delete_ne.
      * by rewrite lookup_insert_ne.
Qed.

Lemma merge_patch_leaf target v : is_object v = false → merge_patch target v = v.
Proof. by destruct v. Qed.

Lemma merge_patch_empty m : merge_patch (JObj m) (JObj ∅) = JObj m.
Proof. simpl. by rewrite map_fold_empty. Qed.

Lemma foldM_aggregate ls result w :
  foldM (λ result layer,
    if negb (bool_decide (Name layer = "")) then
      orCrash (json_set (Name layer) (GetDefaultConfig layer) result)
    else
      emit EvLogWarn;;
      mret (merge_patch result (GetDefaultConfig layer))) result ls w
  = ((aggregate result ls).1, after (app w) (aggregate result ls).2 w).
Proof.
  revert result w. induction ls as [|layer ls IH]; intros result w.
  - simpl. by rewrite after_id.
  - simpl. rewrite bind_case.
    destruct (negb (bool_decide (Name layer = ""))).
    + destruct (json_set _ _ result) as [r|]; simpl.
      * apply IH.
      * by rewrite after_id.
    + rewrite bind_case. cbn [emit]. unfold mret, M_ret. rewrite IH.
      destruct (aggregate (merge_patch result (GetDefaultConfig layer)) ls) as [r evs].
      unfold after. simpl. by rewrite <- app_assoc.
Qed.

(** The loop over the layers does nothing but log its warnings. *)
Lemma aggregate_logs result ls :
  Forall (λ e, e = EvLogWarn) (aggregate result ls).2.
Proof.
  revert result. induction ls as [|layer ls IH]; intros result; cbn [aggregate].
  - constructor.
  - destruct (negb _).
    + destruct (json_set _ _ _); [apply IH | constructor].
    + specialize (IH (merge_patch result (GetDefaultConfig layer))).
      destruct (aggregate _ ls) as [r evs]. by constructor.
Qed.

Lemma _GetDefaultAppSettings_eq w :
  let ls := _layers (app w) in
  _GetDefaultAppSettings w
  = (defaultAppSettings ls, after (app w) (aggregate JNull ls).2 w).
Proof.
  intros ls. unfold _GetDefaultAppSettings.
  rewrite (bind_after getApp _ w (app w) w) by done.
  rewrite bind_case, foldM_aggregate. fold ls. unfold defaultAppSettings.
  destruct (aggregate JNull ls).1 as [r|]; [|done]. simpl.
  rewrite bind_case.
  destruct (json_set "window_width" _ r) as [r1|]; [|done]. simpl.
  rewrite bind_case.
  by destruct (json_set "window_height" _ r1) as [r2|].
Qed.

(** The defaults are an object with the two window keys. *)
Lemma defaultAppSettings_window ls defaults :
  defaultAppSettings ls = Some defaults →
  is_object defaults = true ∧
  json_find "window_width" defaults = Some (JNum DEFAULT_WINDOW_WIDTH) ∧
  json_find "window_height" defaults = Some (JNum DEFAULT_WINDOW_HEIGHT).
Proof.
  unfold defaultAppSettings. intros Hd.
  destruct (aggregate JNull ls).1 as [r|]; [|done]. simpl in Hd.
  destruct (json_set "window_width" _ r) as [r1|] eqn:H1; [|done]. simpl in Hd.
  destruct r as [| | | | |m]; simplify_eq/=; unfold json_find; simpl.
  - rewrite lookup_insert_ne by done.
    by rewrite lookup_insert_eq, lookup_singleton_eq.
  - rewrite lookup_insert_ne by done. by rewrite !lookup_insert_eq.
Qed.

Lemma string_app_empty_r (s : string) : s +:+ "" = s.
Proof.
  induction s as [|c s IH]; [done|].
  change (String c (s +:+ "") = String c s). by f_equal.
Qed.

(** A path with something appended is another path. *)
Lemma path_append_ne (dir name : string) : name ≠ "" → path_append dir name ≠ dir.
Proof.
  intros Hname. unfold path_append.
  destruct (last (String.list_ascii_of_string dir)) as [c|] eqn:Hlast.
  - destruct (is_separator c || bool_decide (c = ":"%char)); intros Heq.
    + rewrite <- (string_app_empty_r dir) in Heq at 2.
      by apply (inj (String.append dir)) in Heq.
    + rewrite <- (string_app_empty_r dir) in Heq at 2.
      apply (inj (String.append dir)) in Heq. done.
  - apply last_None in Hlast. by destruct dir.
Qed.

Lemma path_append_nonempty (dir name : string) : name ≠ "" → path_append dir name ≠ "".
Proof.
  intros Hname. unfold path_append.
  destruct (last (String.list_ascii_of_string dir)) as [c|] eqn:Hlast; [|done].
  destruct dir as [|c' dir]; [done|].
  by destruct (is_separator c || bool_decide (c = ":"%char)).
Qed.

(** A directory with a name is a path that exists. *)
Lemma is_directory_exists (path : string) (d : Disk) :
  path ≠ "" → is_directory path d = true → file_exists path d = true.
Proof.
  intros Hpath. unfold is_directory, file_exists.
  rewrite (bool_decide_false (path = "")) by done. cbn [orb].
  intros Hdir%bool_decide_eq_true. apply bool_decide_eq_true. by eexists.
Qed.

Lemma settingsPathOf_ne appdata :
  settingsPathOf appdata ≠ path_append appdata _applicationName.
Proof. by apply path_append_ne. Qed.

(** [SaveSettings] where the directory of the application exists or can be
    made. *)
Lemma SaveSettings_eq appdata text w :
  APPDATA (disk w) = Some appdata →
  dump (_appSettings (app w)) = Some text →
  let dir := path_append appdata _applicationName in
  file_exists dir (disk w) || is_directory appdata (disk w) = true →
  SaveSettings w =
    (Some (),
     {| app := app w; timing := timing w; scenes := scenes w;
        disk := written dir "app-settings.json" text
                  (if file_exists dir (disk w) then disk w
                   else withFile dir Directory (disk w));
        trace := trace w ++
                 (if file_exists dir (disk w) then [] else [EvCreateDirectory dir])
                 ++ [EvWriteFile (settingsPathOf appdata) text] |}).
Proof.
  intros Happ Hdump dir Hdir. unfold SaveSettings.
  rewrite (bind_after getDisk _ w (disk w) w) by done.
  rewrite Happ. rewrite (bind_after (orCrash (Some appdata)) _ w appdata w) by done.
  fold dir. rewrite bind_case.
  destruct (file_exists dir (disk w)); cbn [negb].
  - unfold mret at 1, M_ret at 1. rewrite bind_case. cbn [getApp].
    rewrite Hdump, bind_case. cbn [orCrash]. unfold mret at 1, M_ret at 1.
    unfold WriteContentsToFile. rewrite bind_case. cbn [emit modDisk].
    unfold set_trace, set_disk. cbn [app timing scenes disk trace].
    by rewrite app_nil_l.
  - cbn [orb] in Hdir. unfold create_directory.
    rewrite (bind_after getDisk _ w (disk w) w) by done.
    rewrite Hdir, !bind_case. cbn [emit modDisk].
    unfold set_trace, set_disk. cbn [app timing scenes disk trace].
    rewrite bind_case. cbn [getApp app].
    rewrite Hdump, bind_case. cbn [orCrash]. unfold mret at 1, M_ret at 1.
    unfold WriteContentsToFile. rewrite bind_case. cbn [emit modDisk].
    unfold set_trace, set_disk. cbn [app timing scenes disk trace].
    by rewrite <- app_assoc.
Qed.

(** [SaveSettings] where the directory of the application is missing and
    cannot be made: [create_directory] throws before anything is written. *)
Lemma SaveSettings_throws appdata w :
  APPDATA (disk w) = Some appdata →
  file_exists (path_append appdata _applicationName) (disk w) = false →
  is_directory appdata (disk w) = false →
  SaveSettings w = (None, w).
Proof.
  intros Happ Hdir Hparent. unfold SaveSettings.
  rewrite (bind_after getDisk _ w (disk w) w) by done.
  rewrite Happ. rewrite (bind_after (orCrash (Some appdata)) _ w appdata w) by done.
  rewrite bind_case, Hdir. cbn [negb]. unfold create_directory.
  rewrite (bind_after getDisk _ w (disk w) w) by done.
  by rewrite Hparent.
Qed.

(** The text the stream leaves at the settings path. *)
Lemma written_settings appdata text d :
  let dir := path_append appdata _applicationName in
  file_exists (settingsPathOf appdata) d = false →
  is_directory dir d || negb (file_exists dir d) = true →
  file_text (settingsPathOf appdata)
    (written dir "app-settings.json" text
       (if file_exists dir d then d else withFile dir Directory d)) = Some text.
Proof.
  intros dir Hfile Hdir.
  assert (files d !! settingsPathOf appdata = None) as Hnone.
  { unfold file_exists in Hfile. apply bool_decide_eq_false in Hfile.
    by apply eq_None_not_Some. }
  unfold written.
  change (path_append dir "app-settings.json") with (settingsPathOf appdata).
  destruct (file_exists dir d) eqn:Hex.
  - cbn [negb] in Hdir. rewrite orb_false_r in Hdir. rewrite Hdir, Hnone.
    rewrite bool_decide_false by done. cbn [negb andb].
    unfold file_text, withFile. cbn [files]. by rewrite lookup_insert_eq.
  - assert (is_directory dir (withFile dir Directory d) = true) as ->.
    { unfold is_directory, withFile. cbn [files]. rewrite lookup_insert_eq.
      rewrite (bool_decide_true (Some Directory = Some Directory)) by done.
      apply orb_true_r. }
    rewrite bool_decide_false; cycle 1.
    { unfold withFile. cbn [files].
      rewrite lookup_insert_ne by (apply not_eq_sym, settingsPathOf_ne).
      by rewrite Hnone. }
    cbn [negb andb].
    unfold file_text, withFile. cbn [files]. by rewrite lookup_insert_eq.
Qed.

Lemma _ConfigureSettings_start w appdata defaults :
  APPDATA (disk w) = Some appdata →
  defaultAppSettings (_layers (app w)) = Some defaults →
  _ConfigureSettings w =
    let w1 := after (set_appSettings defaults (app w))
                (aggregate JNull (_layers (app w))).2 w in
    (if file_exists (settingsPathOf appdata) (disk w) then
       content ← ReadFile (settingsPathOf appdata);
       blob ← orCrash (parse content);
       modApp (λ a, set_appSettings (merge_patch (_appSettings a) blob) a)
     else SaveSettings) w1.
Proof.
  intros Happ Hdef. unfold _ConfigureSettings.
  rewrite bind_case, _GetDefaultAppSettings_eq, Hdef.
  rewrite bind_case. cbn [modApp]. rewrite bind_case. cbn [getDisk set_app after disk].
  rewrite Happ, bind_case. cbn [orCrash]. unfold mret at 1, M_ret at 1.
  reflexivity.
Qed.

Lemma _ConfigureSettings_merge w appdata defaults text blob :
  APPDATA (disk w) = Some appdata →
  defaultAppSettings (_layers (app w)) = Some defaults →
  file_text (settingsPathOf appdata) (disk w) = Some text →
  parse text = Some blob →
  _ConfigureSettings w =
    (Some (), after (set_appSettings (merge_patch defaults blob) (app w))
                (aggregate JNull (_layers (app w))).2 w).
Proof.
  intros Happ Hdef Hfile Hparse.
  rewrite (_ConfigureSettings_start w appdata defaults) by done. cbn zeta.
  assert (file_exists (settingsPathOf appdata) (disk w) = true) as ->.
  { unfold file_text in Hfile. unfold file_exists. apply bool_decide_eq_true.
    destruct (files (disk w) !! settingsPathOf appdata); [by eexists|done]. }
  unfold ReadFile. rewrite bind_case, bind_case. cbn [getDisk after disk].
  rewrite Hfile. cbn [orCrash]. unfold mret at 1, M_ret at 1.
  rewrite bind_case, Hparse. cbn [orCrash]. unfold mret at 1, M_ret at 1.
  reflexivity.
Qed.

(** A settings file whose text is no document: the parser throws, with the
    defaults in place. *)
Lemma _ConfigureSettings_unparsable w appdata defaults text :
  APPDATA (disk w) = Some appdata →
  defaultAppSettings (_layers (app w)) = Some defaults →
  file_text (settingsPathOf appdata) (disk w) = Some text →
  parse text = None →
  _ConfigureSettings w =
    (None, after (set_appSettings defaults (app w))
             (aggregate JNull (_layers (app w))).2 w).
Proof.
  intros Happ Hdef Hfile Hparse.
  rewrite (_ConfigureSettings_start w appdata defaults) by done. cbn zeta.
  assert (file_exists (settingsPathOf appdata) (disk w) = true) as ->.
  { unfold file_text in Hfile. unfold file_exists. apply bool_decide_eq_true.
    destruct (files (disk w) !! settingsPathOf appdata); [by eexists|done]. }
  unfold ReadFile. rewrite bind_case, bind_case. cbn [getDisk after disk].
  rewrite Hfile. cbn [orCrash]. unfold mret at 1, M_ret at 1.
  rewrite bind_case, Hparse. reflexivity.
Qed.

Lemma _ConfigureSettings_fresh w appdata defaults text :
  APPDATA (disk w) = Some appdata →
  defaultAppSettings (_layers (app w)) = Some defaults →
  file_exists (settingsPathOf appdata) (disk w) = false →
  dump defaults = Some text →
  let dir := path_append appdata _applicationName in
  file_exists dir (disk w) || is_directory appdata (disk w) = true →
  _ConfigureSettings w =
    (Some (),
     {| app := set_appSettings defaults (app w); timing := timing w;
        scenes := scenes w;
        disk := written dir "app-settings.json" text
                  (if file_exists dir (disk w) then disk w
                   else withFile dir Directory (disk w));
        trace := trace w ++ (aggregate JNull (_layers (app w))).2 ++
                 (if file_exists dir (disk w) then [] else [EvCreateDirectory dir])
                 ++ [EvWriteFile (settingsPathOf appdata) text] |}).
Proof.
  intros Happ Hdef Hfile Hdump dir Hdir.
  rewrite (_ConfigureSettings_start w appdata defaults) by done. cbn zeta.
  rewrite Hfile.
  rewrite (SaveSettings_eq appdata text) by done.
  unfold after. cbn [app timing scenes disk trace]. fold dir.
  by rewrite <- !app_assoc.
Qed.

Lemma _ConfigureSettings_throws w appdata defaults :
  APPDATA (disk w) = Some appdata →
  defaultAppSettings (_layers (app w)) = Some defaults →
  file_exists (settingsPathOf appdata) (disk w) = false →
  file_exists (path_append appdata _applicationName) (disk w) = false →
  is_directory appdata (disk w) = false →
  _ConfigureSettings w =
    (None, after (set_appSettings defaults (app w))
             (aggregate JNull (_layers (app w))).2 w).
Proof.
  intros Happ Hdef Hfile Hdir Hparent.
  rewrite (_ConfigureSettings_start w appdata defaults) by done. cbn zeta.
  rewrite Hfile. by rewrite (SaveSettings_throws appdata).
Qed.

(** C7 (amended). The settings start from the defaults aggregated from the
    layers. The text of a persisted settings file is parsed, and an object
    is merged over the defaults as a patch: a key that is absent keeps its
    default, a key with a null value is removed, a key with any other value
    gets that value merged into the default (the value itself when it is
    not an object). An empty persisted object leaves the defaults, one with
    only [window_width] changes only that key. Without a persisted document
    the defaults are the settings and their text is written to the settings
    path at once, after the directory of the application has been made
    where it was missing; this needs the directory to exist or the
    [APPDATA] directory to make it in. *)
Theorem settings_resolution w appdata defaults :
  APPDATA (disk w) = Some appdata →
  defaultAppSettings (_layers (app w)) = Some defaults →
  let dir := path_append appdata _applicationName in
  let settingsPath := settingsPathOf appdata in
  let w' := exec _ConfigureSettings w in
  let settings := _appSettings (app w') in
  (∀ text ps,
     file_text settingsPath (disk w) = Some text →
     parse text = Some (JObj ps) →
     _ConfigureSettings w = (Some (), w') ∧
     (∀ k, json_find k settings =
             match ps !! k with
             | None => json_find k defaults
             | Some v =>
                 if is_null v then None
                 else Some (merge_patch (default JNull (json_find k defaults)) v)
             end) ∧
     (∀ k v, ps !! k = Some v → is_object v = false → is_null v = false →
             json_find k settings = Some v) ∧
     (ps = ∅ → settings = defaults) ∧
     (∀ n, ps = {[ "window_width" := JNum n ]} →
           ∀ k, json_find k settings =
                  if decide (k = "window_width") then Some (JNum n)
                  else json_find k defaults) ∧
     disk w' = disk w ∧
     Forall (λ e, e = EvLogWarn) (emitted _ConfigureSettings w)) ∧
  (∀ text,
     file_exists settingsPath (disk w) = false →
     dump defaults = Some text →
     is_directory dir (disk w)
       || negb (file_exists dir (disk w)) && is_directory appdata (disk w) = true →
     _ConfigureSettings w = (Some (), w') ∧
     settings = defaults ∧
     emitted _ConfigureSettings w =
       (aggregate JNull (_layers (app w))).2 ++
       (if file_exists dir (disk w) then [] else [EvCreateDirectory dir]) ++
       [EvWriteFile settingsPath text] ∧
     is_directory dir (disk w') = true ∧
     file_text settingsPath (disk w') = Some text ∧
     (∀ p, p ≠ settingsPath → p ≠ dir → files (disk w') !! p = files (disk w) !! p)).
Proof.
  intros Happ Hdef dir settingsPath w' settings. split.
  - intros text ps Hfile Hparse.
    pose proof (_ConfigureSettings_merge w appdata defaults text (JObj ps)
                  Happ Hdef Hfile Hparse) as Hcfg.
    assert (settings = merge_patch defaults (JObj ps)) as Hsettings.
    { subst settings w'. unfold exec. by rewrite Hcfg. }
    assert (∀ k, json_find k settings =
              match ps !! k with
              | None => json_find k defaults
              | Some v =>
                  if is_null v then None
                  else Some (merge_patch (default JNull (json_find k defaults)) v)
              end) as Hlookup.
    { intros k. rewrite Hsettings. unfold json_find. apply merge_patch_lookup. }
    split; [|split; [|split; [|split; [|split; [|split]]]]].
    + subst w'. unfold exec. by rewrite Hcfg.
    + done.
    + intros k v Hk Hobj Hnull. rewrite Hlookup, Hk, Hnull.
      by rewrite merge_patch_leaf.
    + intros ->. rewrite Hsettings.
      destruct (defaultAppSettings_window _ _ Hdef) as [Hobj _].
      destruct defaults; first [done | apply merge_patch_empty].
    + intros n -> k. rewrite Hlookup. case_decide as Hk.
      * subst k. by rewrite lookup_singleton_eq.
      * by rewrite lookup_singleton_ne.
    + subst w'. unfold exec. by rewrite Hcfg.
    + unfold emitted. rewrite Hcfg. unfold after. cbn [snd trace].
      rewrite drop_app_length. apply aggregate_logs.
  - intros text Hfile Hdump Hdir.
    assert (file_exists dir (disk w) || is_directory appdata (disk w) = true
            ∧ is_directory dir (disk w) || negb (file_exists dir (disk w)) = true)
      as [Hmake Hdir'].
    { destruct (is_directory dir (disk w)) eqn:Hd.
      - by rewrite (is_directory_exists dir) by (done || by apply path_append_nonempty).
      - cbn [orb] in Hdir. apply andb_true_iff in Hdir as [Hex Hparent].
        apply negb_true_iff in Hex. by rewrite Hex, Hparent. }
    pose proof (_ConfigureSettings_fresh w appdata defaults text
                  Happ Hdef Hfile Hdump Hmake) as Hcfg.
    fold dir in Hcfg.
    pose proof (written_settings appdata text (disk w) Hfile Hdir') as Htext.
    fold dir in Htext.
    assert (files (disk w) !! settingsPath = None) as Hnone.
    { unfold file_exists in Hfile. apply bool_decide_eq_false in Hfile.
      by apply eq_None_not_Some. }
    assert (dir ≠ settingsPath) as Hne by apply not_eq_sym, settingsPathOf_ne.
    subst settings w'. unfold exec, emitted. rewrite Hcfg.
    cbn [snd app disk trace _appSettings set_appSettings].
    split; [done|]. split; [done|]. split; [by rewrite drop_app_length|].
    split; [|split; [exact Htext|]].
    + unfold written.
      destruct (is_directory dir _ && _) eqn:Hopen.
      * apply andb_true_iff in Hopen as [Hopen _].
        unfold is_directory, withFile in *. cbn [files] in *.
        rewrite lookup_insert_ne by done. exact Hopen.
      * revert Htext. unfold written. rewrite Hopen. unfold file_text.
        destruct (file_exists dir (disk w)).
        -- fold settingsPath. by rewrite Hnone.
        -- unfold withFile. cbn [files].
           rewrite lookup_insert_ne by done. fold settingsPath. by rewrite Hnone.
    + intros p Hp Hpd. unfold written.
      destruct (is_directory dir _ && _);
        destruct (file_exists dir (disk w)); unfold withFile; cbn [files];
        by rewrite ?lookup_insert_ne by done.
Qed.

(** ** More on the dispatchers *)

Lemma StronglySorted_lt_NoDup (l : list nat) : StronglySorted lt l → NoDup l.
Proof.
  induction 1 as [|x l Hl IH Hx]; constructor; [|done].
  intros Hin. eapply Forall_forall in Hx; [|exact Hin]. lia.
Qed.

Lemma eligible_NoDup f ls : NoDup (eligible f ls).
Proof. apply StronglySorted_lt_NoDup, eligible_sorted. Qed.

Lemma hookCalls_awake g (o : option Scene) (t : nat) (target : option nat) :
  hookCalls g (match o with
               | Some s => [EvSceneAwake t (IsPlaying s) target]
               | None => []
               end) = [].
Proof. by destruct o. Qed.

Ltac solve_calls g :=
  let Hne := fresh "Hne" in
  destruct (decide (g = _)) as [->|Hne];
  [ rewrite ?decide_True by done;
    rewrite ?decide_False by (intros [? _]; done); done
  | rewrite ?decide_False by congruence; done ].

(** The calls of hook [g] a dispatcher makes: its own hook on the eligible
    layers (both scene hooks for the scene transition), no other. *)
Lemma dispatcher_calls f g size w :
  hookCalls g (emitted (dispatcher f size) w) =
    if decide (g = f) then
      (if decide (f = OnSceneUnload ∧ _currentScene (app w) = None) then []
       else if reverseOrder f then reverse (eligible f (_layers (app w)))
       else eligible f (_layers (app w)))
    else if sceneHook f && sceneHook g then
      (if decide (g = OnSceneUnload ∧ _currentScene (app w) = None) then []
       else if reverseOrder g then reverse (eligible g (_layers (app w)))
       else eligible g (_layers (app w)))
    else [].
Proof.
  destruct f; simpl.
  - erewrite emitted_after by apply _Load_eq.
    rewrite hookCalls_app, hookCalls_hookEvents, app_nil_r.
    solve_calls g.
  - erewrite emitted_after by apply _Unload_eq.
    rewrite hookCalls_app, hookCalls_hookEvents, app_nil_r, called_reverse_eligible.
    solve_calls g.
  - rewrite emitted_HandleSceneChange, !hookCalls_app.
    rewrite hookCalls_unloadEvents, hookCalls_loadEvents.
    rewrite hookCalls_awake.
    rewrite app_nil_r.
    destruct g; simpl; rewrite ?app_nil_r;
      repeat (first [case_decide | case_bool_decide]); try done; naive_solver.
  - rewrite emitted_HandleSceneChange, !hookCalls_app.
    rewrite hookCalls_unloadEvents, hookCalls_loadEvents.
    rewrite hookCalls_awake.
    rewrite app_nil_r.
    destruct g; simpl; rewrite ?app_nil_r;
      repeat (first [case_decide | case_bool_decide]); try done; naive_solver.
  - erewrite emitted_after by apply _Update_eq. rewrite hookCalls_hookEvents.
    solve_calls g.
  - erewrite emitted_after by apply _LateUpdate_eq. rewrite hookCalls_hookEvents.
    solve_calls g.
  - erewrite emitted_after by apply _PreRender_eq.
    rewrite hookCalls_app, hookCalls_hookEvents.
    solve_calls g.
  - erewrite emitted_after by apply _RenderScene_eq. rewrite hookCalls_renderEvents.
    solve_calls g.
  - erewrite emitted_after by apply _PostRender_eq.
    rewrite hookCalls_app, hookCalls_hookEvents, hookCalls_blitEvents, app_nil_r,
      called_reverse_eligible.
    solve_calls g.
  - erewrite emitted_after by apply _HandleWindowSizeChanged_eq.
    rewrite hookCalls_hookEvents.
    solve_calls g.
Qed.

(** X1. A dispatcher calls its hook at most once on each layer, and calls no
    hook of another kind; only the scene transition calls two kinds, the two
    scene hooks. *)
Theorem dispatch_once_and_own_hook_only f g size w :
  NoDup (hookCalls f (emitted (dispatcher f size) w)) ∧
  (g ≠ f → sceneHook f && sceneHook g = false →
   hookCalls g (emitted (dispatcher f size) w) = []).
Proof.
  split.
  - rewrite dispatcher_calls. rewrite decide_True by done.
    case_decide; [constructor|].
    destruct (reverseOrder f); rewrite ?reverse_Permutation; apply eligible_NoDup.
  - intros Hne Hscene. rewrite dispatcher_calls.
    rewrite decide_False by done. by rewrite Hscene.
Qed.

(** ** More on timing *)

Lemma timingAfter_same_counters ds (t0 : @Timing F) :
  _timeSinceSceneLoad t0 = _timeSinceAppLoad t0 →
  _unscaledTimeSinceSceneLoad t0 = _unscaledTimeSinceAppLoad t0 →
  _timeSinceSceneLoad (timingAfter ds t0) = _timeSinceAppLoad (timingAfter ds t0) ∧
  _unscaledTimeSinceSceneLoad (timingAfter ds t0)
    = _unscaledTimeSinceAppLoad (timingAfter ds t0).
Proof.
  intros H1 H2.
  rewrite timingAfter_timeSinceSceneLoad, timingAfter_timeSinceAppLoad,
    timingAfter_unscaledTimeSinceSceneLoad, timingAfter_unscaledTimeSinceAppLoad.
  by rewrite H1, H2.
Qed.

(** X2. The Application updates the counters "since scene load" and "since
    app load" by the same amounts and resets neither: if the two pairs agree
    before a run of frames, they agree after it, whatever scenes were loaded
    and even if the run stops half way. *)
Theorem scene_counters_track_app_counters inputs sw w :
  let t0 := timing w in
  let t := timing (exec (frames inputs sw) w) in
  _timeSinceSceneLoad t0 = _timeSinceAppLoad t0 →
  _unscaledTimeSinceSceneLoad t0 = _unscaledTimeSinceAppLoad t0 →
  _timeSinceSceneLoad t = _timeSinceAppLoad t ∧
  _unscaledTimeSinceSceneLoad t = _unscaledTimeSinceAppLoad t.
Proof.
  intros t0 t H1 H2. subst t.
  destruct (frames_timing inputs sw w) as (k & -> & _).
  by apply timingAfter_same_counters.
Qed.

(** ** More on loading a scene *)

(** X3. [LoadScene(path)] of an existing file marks the game as started and
    not paused before it loads anything: the three flags are set whether or
    not the scene can be loaded, and a load that fails also drops a scene
    that was staged before. With a missing file the flags and the staged
    scene stay as they were. *)
Theorem LoadScene_game_flags path w :
  let w' := exec (LoadScene path) w in
  (file_exists path (disk w) = true →
     isEscapePressed (app w') = false ∧ isGamePaused (app w') = false ∧
     isGameStarted (app w') = true ∧
     (sceneFiles (disk w) path = None →
        (LoadScene path w).1 = Some false ∧ _targetScene (app w') = None ∧
        scenes w' = scenes w)) ∧
  (file_exists path (disk w) = false →
     isEscapePressed (app w') = isEscapePressed (app w) ∧
     isGamePaused (app w') = isGamePaused (app w) ∧
     isGameStarted (app w') = isGameStarted (app w) ∧
     _targetScene (app w') = _targetScene (app w)).
Proof.
  intros w'. subst w'. unfold exec, LoadScene. rewrite bind_case. cbn [getDisk].
  split; intros Hex; rewrite Hex; [|done].
  rewrite !bind_case. cbn [modApp set_app disk]. rewrite !bind_case.
  cbn [getDisk set_app disk]. unfold Scene_Load, LoadScene_ptr.
  destruct (file_exists (stem path +:+ "-manifest.json") (disk w));
    destruct (sceneFiles (disk w) path) as [s|] eqn:Hs;
    run; rewrite ?Hs; run; by split_and!.
Qed.

(** ** Resizing the window *)

(** X4. [ResizeWindow(newSize)] calls [OnWindowResize] on the eligible layers
    in registration order, each with the size before the change and the new
    size; only then is the new size stored. Afterwards [GetWindowSize] is the
    new size and the primary viewport is the whole window, whatever it was
    set to before; for sizes that fit a signed 32-bit integer the rectangle
    the final output is blitted to is (0, 0, width, height). *)
Theorem ResizeWindow_size_and_viewport newSize w :
  let w' := exec (ResizeWindow newSize) w in
  ResizeWindow newSize w = (Some (), w') ∧
  emitted (ResizeWindow newSize) w =
    (λ i, EvHook OnWindowResize i (ResizeArgs (_windowSize (app w)) newSize)
            (_currentScene (app w)))
      <$> eligible OnWindowResize (_layers (app w)) ∧
  GetWindowSize w' = (Some newSize, w') ∧
  GetPrimaryViewport w' = (Some (0, 0, u32 newSize.1, u32 newSize.2), w') ∧
  (0 ≤ newSize.1 < 2 ^ 31 → 0 ≤ newSize.2 < 2 ^ 31 →
   viewportMinMax (_primaryViewport (app w')) = (0, 0, newSize.1, newSize.2)).
Proof.
  intros w'. subst w'. unfold exec, ResizeWindow.
  rewrite _HandleWindowSizeChanged_eq. cbn [snd].
  split_and!; try done.
  - erewrite emitted_after by apply _HandleWindowSizeChanged_eq.
    apply hookEvents_eligible.
  - intros H1 H2. cbn [app after _primaryViewport set_primaryViewport viewportMinMax].
    assert (2 ^ 32 = 2 * 2 ^ 31) as Hpow by done.
    rewrite (u32_small newSize.1), (u32_small newSize.2) by lia.
    rewrite !Z.add_0_l.
    rewrite (u32_small newSize.1), (u32_small newSize.2) by lia.
    rewrite (i32_small newSize.1), (i32_small newSize.2) by lia.
    by rewrite (i32_small 0) by lia.
Qed.

(** ** More on the default settings *)

Lemma aggregate_app result ls1 ls2 :
  aggregate result (ls1 ++ ls2) =
    match aggregate result ls1 with
    | (Some r1, evs1) => ((aggregate r1 ls2).1, evs1 ++ (aggregate r1 ls2).2)
    | (None, evs1) => (None, evs1)
    end.
Proof.
  revert result. induction ls1 as [|l ls1 IH]; intros result; simpl.
  - by destruct (aggregate result ls2).
  - destruct (negb (bool_decide (Name l = ""))).
    + destruct (json_set _ _ result) as [r|]; [apply IH|done].
    + rewrite IH.
      destruct (aggregate (merge_patch result (GetDefaultConfig l)) ls1) as [[r1|] evs1];
        done.
Qed.

Lemma aggregate_warnings result ls :
  Forall (λ e, e = EvLogWarn) (aggregate result ls).2 ∧
  (is_Some (aggregate result ls).1 →
   length (aggregate result ls).2 = length (unnamed ls)).
Proof.
  revert result. induction ls as [|l ls IH]; intros result; simpl.
  - by split.
  - unfold unnamed. rewrite filter_cons.
    destruct (bool_decide_reflect (Name l = "")) as [Hname|Hname]; simpl.
    + rewrite decide_True by done. specialize (IH (merge_patch result (GetDefaultConfig l))).
      destruct (aggregate (merge_patch result (GetDefaultConfig l)) ls) as [r evs].
      simpl in *. destruct IH as [IH1 IH2]. split; [by constructor|].
      intros Hsome. by rewrite IH2.
    + rewrite decide_False by done.
      destruct (json_set _ _ result) as [r|]; [apply IH|].
      split; [constructor|]. by intros [? ?].
Qed.

(** X5. [_GetDefaultAppSettings] leaves the Application and the files alone
    and logs nothing but one warning per unnamed layer. The document it
    returns is always an object that holds [window_width] = 1920 and
    [window_height] = 1080: the two keys are written last and win over
    whatever a layer put there. *)
Theorem default_settings_window_keys w :
  let r := _GetDefaultAppSettings w in
  app r.2 = app w ∧ disk r.2 = disk w ∧ scenes r.2 = scenes w ∧
  Forall (λ e, e = EvLogWarn) (emitted _GetDefaultAppSettings w) ∧
  (∀ defaults, r.1 = Some defaults →
     is_object defaults = true ∧
     json_find "window_width" defaults = Some (JNum 1920) ∧
     json_find "window_height" defaults = Some (JNum 1080) ∧
     length (emitted _GetDefaultAppSettings w) = length (unnamed (_layers (app w)))).
Proof.
  intros r. subst r. erewrite emitted_after by apply _GetDefaultAppSettings_eq.
  rewrite _GetDefaultAppSettings_eq. cbn [fst snd after app disk scenes].
  destruct (aggregate_warnings JNull (_layers (app w))) as [Hwarn Hlen].
  split_and!; try done.
  intros defaults Hdef.
  destruct (defaultAppSettings_window _ _ Hdef) as (Hobj & Hw & Hh).
  split_and!; try done. apply Hlen.
  unfold defaultAppSettings in Hdef.
  by destruct (aggregate JNull (_layers (app w))).1.
Qed.

Lemma foldl_insert_lookup (ls : list ApplicationLayer) (m0 : gmap string json) k :
  foldl (λ m l, <[Name l := GetDefaultConfig l]> m) m0 ls !! k
  = match lastNamed k ls with Some cfg => Some cfg | None => m0 !! k end.
Proof.
  induction ls as [|l ls IH] using rev_ind; [done|].
  rewrite foldl_app. simpl. unfold lastNamed in *. rewrite filter_app, filter_cons, filter_nil.
  destruct (decide (Name l = k)) as [<-|Hne].
  - by rewrite lookup_insert_eq, last_snoc.
  - by rewrite lookup_insert_ne, app_nil_r.
Qed.

Lemma aggregate_named ls (m0 : gmap string json) result :
  result = JNull ∧ m0 = ∅ ∨ result = JObj m0 →
  Forall (λ l, Name l ≠ "") ls →
  aggregate result ls =
    (Some (match ls with
           | [] => result
           | _ => JObj (foldl (λ m l, <[Name l := GetDefaultConfig l]> m) m0 ls)
           end), []).
Proof.
  intros Hres Hnamed. revert result m0 Hres.
  induction Hnamed as [|l ls Hl Hls IH]; intros result m0 Hres; [done|].
  simpl. rewrite bool_decide_false by done. simpl.
  assert (json_set (Name l) (GetDefaultConfig l) result
          = Some (JObj (<[Name l := GetDefaultConfig l]> m0))) as ->.
  { destruct Hres as [[-> ->]| ->]; [|done]. simpl. by rewrite insert_empty. }
  rewrite (IH _ (<[Name l := GetDefaultConfig l]> m0)) by by right.
  by destruct ls.
Qed.

(** X6. When every layer has a name, [_GetDefaultAppSettings] never throws
    and logs nothing, and the document holds exactly the two window keys and,
    under each layer name, the config of the last layer registered with that
    name: a later layer replaces an earlier one of the same name, and a layer
    named like a window key is shadowed by it. *)
Theorem default_settings_of_named_layers w :
  Forall (λ l, Name l ≠ "") (_layers (app w)) →
  ∃ defaults,
    _GetDefaultAppSettings w = (Some defaults, w) ∧
    ∀ k, json_find k defaults =
           if decide (k = "window_height") then Some (JNum 1080)
           else if decide (k = "window_width") then Some (JNum 1920)
           else lastNamed k (_layers (app w)).
Proof.
  intros Hnamed. rewrite _GetDefaultAppSettings_eq. unfold defaultAppSettings.
  rewrite (aggregate_named _ ∅ JNull) by auto. cbn [fst snd mbind option_bind].
  rewrite after_id.
  set (m := foldl (λ m l, <[Name l := GetDefaultConfig l]> m) ∅ (_layers (app w))).
  assert (∀ k, m !! k = lastNamed k (_layers (app w))) as Hm.
  { intros k. subst m. rewrite foldl_insert_lookup, lookup_empty.
    by destruct (lastNamed k _). }
  destruct (_layers (app w)) as [|l ls] eqn:Hls.
  - eexists. split; [reflexivity|]. intros k. unfold json_find. simpl.
    repeat case_decide; subst; simplify_map_eq; done.
  - eexists. split; [reflexivity|]. intros k. unfold json_find. simpl.
    rewrite <- Hm. repeat case_decide; subst; by simplify_map_eq.
Qed.

(** X7. An unnamed layer's config is merged into the root of the document.
    One whose config is null thereby resets the document: the defaults of
    all layers registered before it are lost. One whose config is neither an
    object nor null, as the last layer, makes the following write of
    [window_width] throw. *)
Theorem unnamed_layer_resets_defaults w ls1 ls2 layer :
  _layers (app w) = ls1 ++ layer :: ls2 →
  Name layer = "" →
  (GetDefaultConfig layer = JNull →
     is_Some (aggregate JNull ls1).1 →
     (_GetDefaultAppSettings w).1 = (_GetDefaultAppSettings (withLayers ls2 w)).1) ∧
  (is_object (GetDefaultConfig layer) = false →
     is_null (GetDefaultConfig layer) = false →
     ls2 = [] →
     (_GetDefaultAppSettings w).1 = None).
Proof.
  intros Hls Hname. rewrite !_GetDefaultAppSettings_eq. cbn [fst].
  unfold withLayers. cbn [app set_app _layers set_layers]. rewrite Hls.
  unfold defaultAppSettings. rewrite aggregate_app. split.
  - intros Hcfg [r1 Hr1].
    destruct (aggregate JNull ls1) as [[r|] evs1]; simplify_eq/=.
    rewrite bool_decide_true by done. simpl. rewrite Hcfg.
    assert (merge_patch r1 JNull = JNull) as -> by done.
    by destruct (aggregate JNull ls2).
  - intros Hobj Hnull ->.
    destruct (aggregate JNull ls1) as [[r|] evs1]; [|done]. simpl.
    rewrite bool_decide_true by done. simpl.
    rewrite (merge_patch_leaf r (GetDefaultConfig layer)) by done.
    by destruct (GetDefaultConfig layer).
Qed.

(** ** Saving and reloading the settings *)

Lemma list_ascii_of_string_app (s1 s2 : string) :
  String.list_ascii_of_string (s1 +:+ s2) =
    (String.list_ascii_of_string s1 ++ String.list_ascii_of_string s2)%list.
Proof.
  induction s1 as [|c s1 IH]; [done|].
  change (c :: String.list_ascii_of_string (s1 +:+ s2) =
          c :: (String.list_ascii_of_string s1 ++ String.list_ascii_of_string s2)%list).
  by f_equal.
Qed.

Lemma string_app_assoc (s1 s2 s3 : string) : (s1 +:+ s2) +:+ s3 = s1 +:+ s2 +:+ s3.
Proof.
  induction s1 as [|c s1 IH]; [done|].
  change (String c ((s1 +:+ s2) +:+ s3) = String c (s1 +:+ s2 +:+ s3)).
  by f_equal.
Qed.

(** The settings path below a directory whose name does not end with a
    separator. *)
Lemma settingsPathOf_plain appdata c :
  last (String.list_ascii_of_string appdata) = Some c →
  is_separator c || bool_decide (c = ":"%char) = false →
  settingsPathOf appdata = appdata +:+ "\Resonance\app-settings.json".
Proof.
  intros Hlast Hc. unfold settingsPathOf, path_append at 2. rewrite Hlast, Hc.
  unfold path_append.
  change (appdata +:+ "\" +:+ _applicationName) with (appdata +:+ "\Resonanc" +:+ "e").
  rewrite list_ascii_of_string_app, list_ascii_of_string_app.
  rewrite app_assoc.
  change (String.list_ascii_of_string "e") with ["e"%char].
  rewrite last_snoc.
  change (is_separator "e" || bool_decide ("e"%char = ":"%char)) with false.
  cbv iota. by rewrite !string_app_assoc.
Qed.

(** X8. [SaveSettings] leaves the Application alone and writes the text of
    the current settings to the settings file, the file
    [Resonance\app-settings.json] below the [APPDATA] directory. Where the
    directory of the application does not exist it is made first, which
    needs the [APPDATA] directory to be there; otherwise the call throws
    before anything is written. The write is the last thing it does, and
    saving a second time only writes the file again. Without [APPDATA] in
    the environment nothing is written. *)
Theorem SaveSettings_writes_settings w :
  let w' := exec SaveSettings w in
  (∀ appdata text,
     APPDATA (disk w) = Some appdata →
     dump (_appSettings (app w)) = Some text →
     let dir := path_append appdata _applicationName in
     let settingsPath := settingsPathOf appdata in
     is_directory dir (disk w)
       || negb (file_exists dir (disk w)) && is_directory appdata (disk w) = true →
     files (disk w) !! settingsPath ≠ Some Directory →
     SaveSettings w = (Some (), w') ∧
     app w' = app w ∧
     file_text settingsPath (disk w') = Some text ∧
     is_directory dir (disk w') = true ∧
     (∀ p, p ≠ settingsPath → p ≠ dir → files (disk w') !! p = files (disk w) !! p) ∧
     emitted SaveSettings w =
       (if file_exists dir (disk w) then [] else [EvCreateDirectory dir])
       ++ [EvWriteFile settingsPath text] ∧
     emitted SaveSettings w' = [EvWriteFile settingsPath text] ∧
     disk (exec SaveSettings w') = disk w') ∧
  (∀ appdata,
     APPDATA (disk w) = Some appdata →
     file_exists (path_append appdata _applicationName) (disk w) = false →
     is_directory appdata (disk w) = false →
     SaveSettings w = (None, w)) ∧
  (APPDATA (disk w) = None → SaveSettings w = (None, w)) ∧
  (∀ appdata c,
     last (String.list_ascii_of_string appdata) = Some c →
     is_separator c || bool_decide (c = ":"%char) = false →
     settingsPathOf appdata = appdata +:+ "\Resonance\app-settings.json").
Proof.
  intros w'. split; [|split; [|split]].
  - intros appdata text Happ Hdump dir settingsPath Hdir Hpath.
    assert (dir ≠ "") as Hdir0 by by apply path_append_nonempty.
    assert (dir ≠ settingsPath) as Hne by apply not_eq_sym, settingsPathOf_ne.
    assert (file_exists dir (disk w) || is_directory appdata (disk w) = true)
      as Hmake.
    { destruct (is_directory dir (disk w)) eqn:Hd.
      - by rewrite (is_directory_exists dir).
      - cbn [orb] in Hdir. apply andb_true_iff in Hdir as [Hex Hparent].
        apply negb_true_iff in Hex. by rewrite Hex, Hparent. }
    pose proof (SaveSettings_eq appdata text w Happ Hdump Hmake) as Hsave.
    fold dir settingsPath in Hsave.
    set (d1 := if file_exists dir (disk w) then disk w
               else withFile dir Directory (disk w)) in Hsave.
    assert (files d1 !! dir = Some Directory) as Hd1.
    { subst d1. destruct (file_exists dir (disk w)) eqn:Hex.
      - cbn [negb andb] in Hdir. rewrite orb_false_r in Hdir.
        unfold is_directory in Hdir. rewrite bool_decide_false in Hdir by done.
        by apply bool_decide_eq_true in Hdir.
      - unfold withFile. cbn [files]. by rewrite lookup_insert_eq. }
    assert (files d1 !! settingsPath ≠ Some Directory) as Hp1.
    { subst d1. destruct (file_exists dir (disk w)); [done|].
      unfold withFile. cbn [files]. by rewrite lookup_insert_ne. }
    assert (written dir "app-settings.json" text d1
            = withFile settingsPath (File text) d1) as Hwritten.
    { unfold written, is_directory. rewrite Hd1.
      rewrite (bool_decide_true (Some Directory = Some Directory)) by done.
      rewrite orb_true_r. cbn [andb].
      by rewrite (bool_decide_false (_ = Some Directory)). }
    rewrite Hwritten in Hsave.
    assert (w' = {| app := app w; timing := timing w; scenes := scenes w;
                    disk := withFile settingsPath (File text) d1;
                    trace := trace w ++
                      (if file_exists dir (disk w) then [] else [EvCreateDirectory dir])
                      ++ [EvWriteFile settingsPath text] |}) as Hw'.
    { subst w'. unfold exec. by rewrite Hsave. }
    assert (files (disk w') !! dir = Some Directory) as Hdir'.
    { rewrite Hw'. unfold withFile. cbn [disk files].
      by rewrite lookup_insert_ne. }
    assert (APPDATA (disk w') = Some appdata) as Happ'.
    { rewrite Hw'. unfold withFile. cbn [disk APPDATA].
      subst d1. by destruct (file_exists dir (disk w)). }
    assert (app w' = app w) as Happw by by rewrite Hw'.
    assert (file_exists dir (disk w') = true) as Hex'.
    { unfold file_exists. apply bool_decide_eq_true. by eexists. }
    assert (dump (_appSettings (app w')) = Some text) as Hdump'
      by by rewrite Happw.
    assert (file_exists dir (disk w') || is_directory appdata (disk w') = true)
      as Hmake' by by rewrite Hex'.
    pose proof (SaveSettings_eq appdata text w' Happ' Hdump' Hmake') as Hsave'.
    fold dir settingsPath in Hsave'. rewrite Hex' in Hsave'.
    assert (written dir "app-settings.json" text (disk w') = disk w') as Hagain.
    { unfold written, is_directory. rewrite Hdir'.
      rewrite (bool_decide_true (Some Directory = Some Directory)) by done.
      rewrite orb_true_r. cbn [andb].
      rewrite Hw'. unfold withFile. cbn [disk files APPDATA sceneFiles].
      change (path_append dir "app-settings.json") with settingsPath.
      rewrite lookup_insert_eq.
      rewrite (bool_decide_false (_ = Some Directory)) by done. cbn [negb].
      by rewrite insert_insert_eq. }
    rewrite Hagain in Hsave'.
    split; [by rewrite Hsave, Hw'|]. split; [done|].
    split; [|split; [|split; [|split; [|split]]]].
    + rewrite Hw'. unfold file_text, withFile. cbn [disk files].
      by rewrite lookup_insert_eq.
    + unfold is_directory. rewrite Hdir'.
      rewrite (bool_decide_true (Some Directory = Some Directory)) by done.
      apply orb_true_r.
    + intros p Hp Hpd. rewrite Hw'. unfold withFile. cbn [disk files].
      rewrite lookup_insert_ne by done. subst d1.
      destruct (file_exists dir (disk w)); [done|].
      unfold withFile. cbn [files]. by rewrite lookup_insert_ne.
    + unfold emitted. rewrite Hsave. cbn [snd trace]. by rewrite drop_app_length.
    + unfold emitted. rewrite Hsave'. cbn [snd trace]. by rewrite drop_app_length.
    + unfold exec at 1. by rewrite Hsave'.
  - intros appdata Happ Hdir Hparent. by apply (SaveSettings_throws appdata).
  - intros Happ. unfold SaveSettings. rewrite bind_case. cbn [getDisk].
    by rewrite Happ.
  - apply settingsPathOf_plain.
Qed.

(** Merging a null-free document into itself changes nothing. *)
Lemma merge_patch_self d : nullFree d → merge_patch d d = d.
Proof.
  induction 1 as [b|n|s|l|m Hm IH]; try done.
  change (JObj (members (merge_patch (JObj m) (JObj m))) = JObj m).
  f_equal. apply map_eq. intros k. rewrite merge_patch_lookup.
  cbn [members].
  destruct (m !! k) as [v|] eqn:Hv; [|done].
  specialize (Hm k v Hv). specialize (IH k v Hv).
  destruct Hm; cbn [is_null default option_map from_option id]; by rewrite ?IH.
Qed.

Lemma nullFree_obj_list m :
  Forall (λ kv, nullFree kv.2) (map_to_list m) → nullFree (JObj m).
Proof.
  intros Hall. constructor. intros k v Hkv.
  apply elem_of_map_to_list in Hkv. eapply Forall_forall in Hall; [|exact Hkv].
  exact Hall.
Qed.

(** X9. Starting twice. When no settings file exists and the directory of
    the application is there or can be made, the first [_ConfigureSettings]
    writes the text of the defaults. A second one, with the same layers,
    reads that text back and writes nothing: whatever document the parser
    makes of the text is merged over the defaults, and the files stay as
    they are. Where the parser gives back the defaults that were printed
    and these are free of null members, the second start ends with the
    defaults as the settings. *)
Theorem second_start_keeps_defaults w appdata defaults text :
  APPDATA (disk w) = Some appdata →
  defaultAppSettings (_layers (app w)) = Some defaults →
  file_exists (settingsPathOf appdata) (disk w) = false →
  dump defaults = Some text →
  let dir := path_append appdata _applicationName in
  is_directory dir (disk w)
    || negb (file_exists dir (disk w)) && is_directory appdata (disk w) = true →
  let w1 := exec _ConfigureSettings w in
  let w2 := exec _ConfigureSettings w1 in
  _ConfigureSettings w = (Some (), w1) ∧
  file_text (settingsPathOf appdata) (disk w1) = Some text ∧
  (∀ blob, parse text = Some blob →
     _ConfigureSettings w1 = (Some (), w2) ∧
     _appSettings (app w2) = merge_patch defaults blob ∧
     disk w2 = disk w1 ∧
     Forall (λ e, writesDisk e = false) (emitted _ConfigureSettings w1)) ∧
  (parse text = Some defaults → nullFree defaults →
     _appSettings (app w2) = defaults) ∧
  (parse text = None → (_ConfigureSettings w1).1 = None).
Proof.
  intros Happ Hdef Hfile Hdump dir Hdir w1 w2.
  assert (dir ≠ "") as Hdir0 by by apply path_append_nonempty.
  assert (file_exists dir (disk w) || is_directory appdata (disk w) = true
          ∧ is_directory dir (disk w) || negb (file_exists dir (disk w)) = true)
    as [Hmake Hdir'].
  { destruct (is_directory dir (disk w)) eqn:Hd.
    - by rewrite (is_directory_exists dir).
    - cbn [orb] in Hdir. apply andb_true_iff in Hdir as [Hex Hparent].
      apply negb_true_iff in Hex. by rewrite Hex, Hparent. }
  pose proof (_ConfigureSettings_fresh w appdata defaults text
                Happ Hdef Hfile Hdump Hmake) as H1.
  fold dir in H1.
  pose proof (written_settings appdata text (disk w) Hfile Hdir') as Htext.
  fold dir in Htext.
  assert (APPDATA (disk w1) = Some appdata) as Happ1.
  { subst w1. unfold exec. rewrite H1. cbn [snd disk]. unfold written.
    destruct (is_directory dir _ && _);
      by destruct (file_exists dir (disk w)). }
  assert (_layers (app w1) = _layers (app w)) as Hls
    by (subst w1; unfold exec; by rewrite H1).
  assert (file_text (settingsPathOf appdata) (disk w1) = Some text) as Hfile1.
  { subst w1. unfold exec. rewrite H1. exact Htext. }
  rewrite <- Hls in Hdef.
  assert (∀ blob, parse text = Some blob →
            _ConfigureSettings w1 =
              (Some (), after (set_appSettings (merge_patch defaults blob) (app w1))
                          (aggregate JNull (_layers (app w1))).2 w1)) as H2.
  { intros blob Hparse.
    exact (_ConfigureSettings_merge w1 appdata defaults text blob
             Happ1 Hdef Hfile1 Hparse). }
  split; [by rewrite H1; subst w1; unfold exec; rewrite H1|].
  split; [done|]. split; [|split].
  - intros blob Hparse. specialize (H2 blob Hparse).
    split; [by subst w2; unfold exec at 1; rewrite H2|].
    split; [by subst w2; unfold exec at 1; rewrite H2|].
    split; [by subst w2; unfold exec at 1; rewrite H2|].
    erewrite emitted_after by exact H2.
    eapply Forall_impl; [apply aggregate_warnings|]. by intros e ->.
  - intros Hparse Hnf. specialize (H2 defaults Hparse).
    subst w2. unfold exec at 1. rewrite H2. cbn [snd after app _appSettings set_appSettings].
    by apply merge_patch_self.
  - intros Hparse.
    by rewrite (_ConfigureSettings_unparsable w1 appdata defaults text).
Qed.

(** X10. The ways [_ConfigureSettings] goes wrong or loses the defaults. A
    settings file that does not parse stops the program (the exception of
    the parser is not caught) before anything is written, and so does a
    settings path that is a directory. A persisted document that is not an
    object (an array, a number, null) replaces the defaults whole: no key
    of the defaults is left in the settings. *)
Theorem configure_settings_bad_file w appdata defaults :
  APPDATA (disk w) = Some appdata →
  defaultAppSettings (_layers (app w)) = Some defaults →
  let w' := exec _ConfigureSettings w in
  (∀ text, file_text (settingsPathOf appdata) (disk w) = Some text →
     parse text = None →
     (_ConfigureSettings w).1 = None ∧ disk w' = disk w ∧
     Forall (λ e, writesDisk e = false) (emitted _ConfigureSettings w)) ∧
  (files (disk w) !! settingsPathOf appdata = Some Directory →
     (_ConfigureSettings w).1 = None ∧ disk w' = disk w ∧
     Forall (λ e, writesDisk e = false) (emitted _ConfigureSettings w)) ∧
  (∀ text blob, file_text (settingsPathOf appdata) (disk w) = Some text →
     parse text = Some blob →
     is_object blob = false →
     (_ConfigureSettings w).1 = Some () ∧
     _appSettings (app w') = blob ∧
     (∀ k, json_find k (_appSettings (app w')) = None)).
Proof.
  intros Happ Hdef w'. split; [|split].
  - intros text Hfile Hparse.
    pose proof (_ConfigureSettings_unparsable w appdata defaults text
                  Happ Hdef Hfile Hparse) as Hcfg.
    subst w'. unfold exec. rewrite (emitted_after _ _ _ _ _ Hcfg), Hcfg.
    split; [done|]. split; [done|].
    eapply Forall_impl; [apply aggregate_warnings|]. by intros e ->.
  - intros Hfile.
    assert (_ConfigureSettings w =
      (None, after (set_appSettings defaults (app w))
                   (aggregate JNull (_layers (app w))).2 w)) as Hcfg.
    { rewrite (_ConfigureSettings_start w appdata defaults) by done. cbn zeta.
      assert (file_exists (settingsPathOf appdata) (disk w) = true) as ->.
      { unfold file_exists. apply bool_decide_eq_true. by eexists. }
      unfold ReadFile. rewrite bind_case, bind_case. cbn [getDisk after disk].
      unfold file_text. by rewrite Hfile. }
    subst w'. unfold exec. rewrite (emitted_after _ _ _ _ _ Hcfg), Hcfg.
    split; [done|]. split; [done|].
    eapply Forall_impl; [apply aggregate_warnings|]. by intros e ->.
  - intros text blob Hfile Hparse Hobj.
    pose proof (_ConfigureSettings_merge w appdata defaults text blob
                  Happ Hdef Hfile Hparse) as Hcfg.
    assert (_appSettings (app w') = blob) as Hs.
    { subst w'. unfold exec. rewrite Hcfg.
      cbn [snd after app _appSettings set_appSettings]. by apply merge_patch_leaf. }
    rewrite Hs, Hcfg. split; [done|]. split; [done|].
    intros k. unfold json_find. by destruct blob.
Qed.

(** ** The phases of a frame *)

(** X11. The five phases of a frame see one scene. What follows the scene
    switching in an iteration never replaces the current scene or the
    layers, and every hook it calls is one of the five phase hooks, called
    with the scene that was current when the scene switching was done. So a
    scene that a hook stages with [LoadScene] in the middle of a frame is
    seen by no hook of that frame: every phase hook of a frame sees the
    scene that is still current when the frame ends. *)
Theorem frame_phases_see_one_scene inp sw w :
  let w1 := exec sceneSwitching w in
  let w' := exec (frame inp sw) w in
  (_currentScene (app (exec (frameRest inp sw) w1)) = _currentScene (app w1) ∧
   _layers (app (exec (frameRest inp sw) w1)) = _layers (app w1) ∧
   Forall (hookSeen isPhase (_currentScene (app w1))) (emitted (frameRest inp sw) w1)) ∧
  _layers (app w') = _layers (app w) ∧
  (∀ f i args scene,
     EvHook f i args scene ∈ emitted (frame inp sw) w →
     isPhase f = true → scene = _currentScene (app w')).
Proof.
  intros w1 w'.
  pose proof (steady_frameRest inp sw w1) as Hrest.
  pose proof (steady_sceneSwitching w) as Hsw.
  pose proof (steady_emitted _ _ _ _ Hrest) as Hevs.
  pose proof (steady_emitted _ _ _ _ Hsw) as Hevs0.
  destruct Hrest as [Hπ _]. destruct Hsw as [Hls _].
  unfold layersAndScene in Hπ. simpl in Hevs.
  injection Hπ as Hl Hc.
  split; [done|]. split.
  - subst w'. unfold exec at 1, frame. rewrite bind_case.
    fold (exec sceneSwitching w) in Hls. fold w1 in Hls.
    unfold exec in w1, Hl. subst w1.
    destruct (sceneSwitching w) as [[[]|] w1]; simpl in *; congruence.
  - intros f i args scene Hin Hphase. rewrite frame_emitted in Hin.
    apply elem_of_app in Hin as [Hin|Hin].
    + eapply Forall_forall in Hevs0; [|exact Hin]. simpl in Hevs0.
      by destruct f.
    + destruct (sceneSwitching w).1 as [[]|] eqn:Hok; [|by apply elem_of_nil in Hin].
      fold w1 in Hin. eapply Forall_forall in Hevs; [|exact Hin].
      simpl in Hevs. destruct Hevs as [_ ->].
      subst w'. rewrite exec_frame by done. by rewrite <- Hc.
Qed.

(** ** The run as a whole *)

Lemma bind_assoc_at {A B C} (m : M A) (k : A → M B) (h : B → M C) w :
  ((m ≫= k) ≫= h) w = (m ≫= (λ x, k x ≫= h)) w.
Proof. unfold mbind, M_bind. by destruct (m w) as [[x|] w1]. Qed.

Lemma bind_ext {A B} (m : M A) (k1 k2 : A → M B) w :
  (∀ x w', k1 x w' = k2 x w') → (m ≫= k1) w = (m ≫= k2) w.
Proof. intros Hk. unfold mbind, M_bind. by destruct (m w) as [[x|] w1]. Qed.

(** [_Run] is its start followed by the loop and the unloading. *)
Lemma _Run_unfold builtin inputs w :
  _Run builtin inputs w = (startup builtin ≫= λ _, loopAndUnload inputs) w.
Proof.
  unfold _Run, startup, register, configure, loopAndUnload. symmetry.
  repeat first
    [ rewrite bind_assoc_at
    | apply bind_ext; intros ? ?
    | reflexivity ].
Qed.

Lemma register_eq builtin w :
  register builtin w = (Some (), withLayers (registered builtin (app w)) w).
Proof.
  unfold register, registered, withLayers. rewrite bind_case. cbn [modApp].
  rewrite bind_case. cbn [getApp set_app app _isEditor set_layers].
  destruct (_isEditor (app w)) eqn:Hed.
  - unfold modApp, set_app, set_layers. cbn [app _layers]. by rewrite <- app_assoc.
  - by rewrite app_nil_r.
Qed.

Lemma steady_configure :
  preserves (@steady F _ layersAndScenes (λ _, hookOnly noHook)) configure.
Proof.
  unfold configure, _ConfigureSettings, _GetDefaultAppSettings, SaveSettings,
    create_directory, WriteContentsToFile, ReadFile, _RegisterClasses.
  steady_steps.
Qed.

Lemma steady_frame inp sw :
  preserves (@steady F _ _layers (λ _, hookOnly isLoopHook)) (frame inp sw).
Proof.
  unfold frame, sceneSwitching, _HandleSceneChange,
    frameRest, startScreen, pauseScreen, sceneReload, pollEvents, afterPoll,
    timingUpdate, coreUpdate, endFrame, setRenderEnabled, setPanelEnabled,
    onAudioManager, _Update, _LateUpdate, _PreRender, _RenderScene, _PostRender.
  steady_steps_using
    ltac:(apply steady_LoadScene; [done|done|by intros ? []])
    steady_side.
Qed.

Lemma steady_mainLoop inputs sw :
  preserves (@steady F _ _layers (λ _, hookOnly isLoopHook)) (mainLoop inputs sw).
Proof. apply preserves_mainLoop; [exact _|]. apply steady_frame. Qed.

Lemma hookOnly_hookEvents (ok : AppLayerFunctions → bool) f args cur xs :
  ok f = true → Forall (hookOnly ok) (hookEvents f args cur xs).
Proof. intros Hf. unfold hookEvents. apply Forall_fmap, Forall_true. by intros p. Qed.

Lemma hookOnly_noHook ok evs :
  Forall (hookOnly noHook) evs → Forall (hookOnly ok) evs.
Proof. intros H. eapply Forall_impl; [exact H|]. by intros []. Qed.

(** The shape of a run: the layers are registered, then either the settings
    stop the program, or the layers are loaded and the loop is entered. *)
Lemma run_shape builtin inputs w :
  let ls := registered builtin (app w) in
  ∃ rc wc evsC,
    configure (withLayers ls w) = (rc, wc) ∧
    _layers (app wc) = ls ∧
    _currentScene (app wc) = _currentScene (app w) ∧
    _targetScene (app wc) = _targetScene (app w) ∧
    trace wc = trace w ++ evsC ∧
    Forall (hookOnly noHook) evsC ∧
    match rc with
    | None => _Run builtin inputs w = (None, wc)
    | Some _ =>
        let wl := after (startedApp ls (app wc)) (appLoadEvents ls (app wc)) wc in
        startup builtin w = (Some (), wl) ∧
        _Run builtin inputs w = loopAndUnload inputs wl
    end.
Proof.
  intros ls.
  destruct (steady_configure (withLayers ls w)) as [Hπ (evsC & Ht & HP)].
  destruct (configure (withLayers ls w)) as [rc wc] eqn:Hcfg.
  cbn [snd] in Hπ, Ht. unfold layersAndScenes, withLayers in Hπ.
  cbn [app set_app set_layers _layers _currentScene _targetScene] in Hπ.
  injection Hπ as Hl Hc Hg.
  exists rc, wc, evsC. split_and!; try done.
  assert (startup builtin w =
    match rc with
    | Some _ => (Some (), after (startedApp ls (app wc)) (appLoadEvents ls (app wc)) wc)
    | None => (None, wc)
    end) as Hst.
  { unfold startup. rewrite bind_case, register_eq. fold ls.
    rewrite bind_case, Hcfg. destruct rc as [[]|]; [|done].
    rewrite bind_case, _Load_eq. rewrite Hl. reflexivity. }
  destruct rc as [[]|].
  - split; [done|]. by rewrite _Run_unfold, bind_case, Hst.
  - by rewrite _Run_unfold, bind_case, Hst.
Qed.

Lemma startedApp_layers ls a : _layers (startedApp ls a) = _layers a.
Proof. unfold startedApp. cbn [set_isRunning _layers]. apply applyApis_layers. Qed.

(** X12. The life cycle of the layers over a run of [_Run]. The events of
    the run fall into three parts in this order: up to the loop, where the
    only hook called is [OnAppLoad]; the loop, where neither [OnAppLoad] nor
    [OnAppUnload] is called; and the unloading, where the only hook called
    is [OnAppUnload]. If the run does not stop on an error, [OnAppLoad] was
    called once on every eligible layer, in registration order.
    [OnAppUnload] is called, in reverse order on every eligible layer, when
    the loop ends with the running flag cleared, and not at all otherwise.
    The layers never change after the registration. *)
Theorem run_lifecycle builtin inputs w :
  let ls := registered builtin (app w) in
  let r := (_Run builtin inputs w).1 in
  ∃ evs1 evs2 evs3,
    emitted (_Run builtin inputs) w = evs1 ++ evs2 ++ evs3 ∧
    Forall (hookOnly (isHook OnAppLoad)) evs1 ∧
    Forall (hookOnly isLoopHook) evs2 ∧
    Forall (hookOnly (isHook OnAppUnload)) evs3 ∧
    (is_Some r → hookCalls OnAppLoad evs1 = eligible OnAppLoad ls) ∧
    hookCalls OnAppUnload evs3 =
      match r with
      | Some Stopped => reverse (eligible OnAppUnload ls)
      | _ => []
      end ∧
    _layers (app (exec (_Run builtin inputs) w)) = ls.
Proof.
  intros ls r.
  destruct (run_shape builtin inputs w) as (rc & wc & evsC & _ & Hl & _ & _ & Ht & HP & Hrun).
  fold ls in Hl, Hrun. destruct rc as [[]|].
  - destruct Hrun as [_ Hrun].
    set (wl := after (startedApp ls (app wc)) (appLoadEvents ls (app wc)) wc) in *.
    assert (Forall (hookOnly (isHook OnAppLoad)) (evsC ++ appLoadEvents ls (app wc))) as H1.
    { apply Forall_app. split; [by apply hookOnly_noHook|].
      apply Forall_app. split; [by apply hookOnly_hookEvents|].
      by repeat constructor. }
    assert (hookCalls OnAppLoad (evsC ++ appLoadEvents ls (app wc))
            = eligible OnAppLoad ls) as H1c.
    { unfold appLoadEvents.
      rewrite !hookCalls_app, (hookCalls_other noHook), hookCalls_hookEvents by done.
      rewrite decide_True by done. by rewrite app_nil_r. }
    destruct (steady_mainLoop inputs false wl) as [Hl2 (evs2 & Ht2 & HP2)].
    unfold loopAndUnload in Hrun. rewrite bind_case in Hrun.
    destruct (mainLoop inputs false wl) as [[[]|] w2] eqn:Hloop;
      cbn [snd] in Hl2, Ht2.
    + rewrite bind_case, _Unload_eq in Hrun. unfold mret, M_ret in Hrun.
      rewrite Hl2 in Hrun.
      subst wl. cbn [app after] in Hrun, Hl2. rewrite startedApp_layers, Hl in Hrun.
      fold (appUnloadEvents ls (app w2)) in Hrun.
      exists (evsC ++ appLoadEvents ls (app wc)), evs2, (appUnloadEvents ls (app w2)).
      subst r. unfold exec, emitted. rewrite Hrun. cbn [fst snd after app trace].
      split_and!; try done.
      * rewrite Ht2. cbn [after trace]. rewrite Ht, <- !app_assoc.
        apply drop_app_length.
      * apply Forall_app. split; [by apply hookOnly_hookEvents|by repeat constructor].
      * unfold appUnloadEvents. rewrite hookCalls_app, hookCalls_hookEvents.
        rewrite decide_True by done. rewrite app_nil_r.
        apply called_reverse_eligible.
      * by rewrite applyApis_layers, Hl2, startedApp_layers.
    + unfold mret, M_ret in Hrun.
      exists (evsC ++ appLoadEvents ls (app wc)), evs2, [].
      subst r. unfold exec, emitted. rewrite Hrun. cbn [fst snd].
      subst wl. cbn [app after trace] in Ht2, Hl2.
      split_and!; try done.
      * rewrite Ht2, Ht, app_nil_r, <- !app_assoc. apply drop_app_length.
      * by rewrite Hl2, startedApp_layers.
    + exists (evsC ++ appLoadEvents ls (app wc)), evs2, [].
      subst r. unfold exec, emitted. rewrite Hrun. cbn [fst snd].
      subst wl. cbn [app after trace] in Ht2, Hl2.
      split_and!; try done.
      * rewrite Ht2, Ht, app_nil_r, <- !app_assoc. apply drop_app_length.
      * by rewrite Hl2, startedApp_layers.
  - exists evsC, [], []. subst r. unfold exec, emitted. rewrite Hrun. cbn [fst snd].
    split_and!; try done.
    + by rewrite Ht, !app_nil_r, drop_app_length.
    + by apply hookOnly_noHook.
Qed.

Lemma applyApis_not_staged cs a :
  Forall (λ c, ∀ s, c ≠ ApiLoadScene (Some s)) cs →
  _targetScene a = None → _targetScene (applyApis cs a) = None.
Proof.
  intros Hcs. revert a. induction Hcs as [|c cs Hc _ IH]; intros a Ha; [done|].
  apply IH. destruct c as [|[s|]]; try done. by destruct (Hc s).
Qed.

Lemma scripts_Forall (Q : ApiCall → Prop) f ls :
  Forall (λ l, Forall Q (Hooks l f)) ls → Forall Q (scripts f (indexed ls)).
Proof.
  intros Hls. unfold scripts. apply Forall_bind, Forall_forall.
  intros [i l] Hin. apply list_elem_of_filter in Hin as [_ Hin].
  unfold indexed in Hin. apply elem_of_lookup_imap in Hin as (j & y & [= -> ->] & Hy).
  eapply Forall_forall in Hls; [exact Hls|]. by eapply list_elem_of_lookup_2.
Qed.

(** X13. A run in which no scene is current or staged and no [OnAppLoad]
    hook stages one does not survive the first iteration of the loop: the
    start-screen test dereferences the null current scene before the guard
    of the core update is reached. Up to then only [OnAppLoad] hooks were
    called. *)
Theorem run_without_scene_stops builtin inp inputs w :
  _currentScene (app w) = None →
  _targetScene (app w) = None →
  Forall (λ l, ∀ s, ApiLoadScene (Some s) ∉ Hooks l OnAppLoad)
    (registered builtin (app w)) →
  (_Run builtin (inp :: inputs) w).1 = None ∧
  (∀ f, f ≠ OnAppLoad →
     hookCalls f (emitted (_Run builtin (inp :: inputs)) w) = []).
Proof.
  intros Hcur Htgt Hhooks.
  destruct (run_shape builtin (inp :: inputs) w)
    as (rc & wc & evsC & _ & Hl & Hc & Hg & Ht & HP & Hrun).
  set (ls := registered builtin (app w)) in *.
  destruct rc as [[]|].
  - destruct Hrun as [_ Hrun].
    set (wl := after (startedApp ls (app wc)) (appLoadEvents ls (app wc)) wc) in *.
    assert (_currentScene (app wl) = None) as Hcl.
    { subst wl. unfold startedApp. cbn [after app set_isRunning _currentScene].
      by rewrite applyApis_currentScene, Hc. }
    assert (_targetScene (app wl) = None) as Htl.
    { subst wl. unfold startedApp. cbn [after app set_isRunning _targetScene].
      apply applyApis_not_staged; [|by rewrite Hg].
      apply scripts_Forall. eapply Forall_impl; [exact Hhooks|].
      intros l Hl0. apply Forall_forall. intros c Hin s ->. by apply (Hl0 s). }
    assert (loopAndUnload (inp :: inputs) wl = (None, wl)) as Hloop.
    { unfold loopAndUnload. rewrite bind_case. cbn [mainLoop].
      assert (_isRunning (app wl) = true) as -> by done.
      unfold frame. rewrite bind_case, sceneSwitching_eq, Htl.
      rewrite bool_decide_false by (by intros []).
      by rewrite frameRest_null. }
    rewrite Hloop in Hrun. split; [by rewrite Hrun|].
    intros f Hf. unfold emitted. rewrite Hrun. subst wl. cbn [snd after trace].
    rewrite Ht, <- app_assoc, drop_app_length.
    apply (hookCalls_other (isHook OnAppLoad)).
    + unfold isHook. by rewrite bool_decide_false.
    + apply Forall_app. split; [by apply hookOnly_noHook|].
      apply Forall_app. split; [by apply hookOnly_hookEvents|by repeat constructor].
  - split; [by rewrite Hrun|].
    intros f Hf. unfold emitted. rewrite Hrun. cbn [snd].
    rewrite Ht, drop_app_length. by apply (hookCalls_other noHook).
Qed.

(** X14. A [Quit] during [OnAppLoad] is lost. When the start of [_Run]
    succeeds the running flag is set, whatever the hooks of the layers did,
    so the loop is entered; the current scene is still the one from before
    the run and the layers are the registered ones. *)
Theorem quit_while_loading_is_lost builtin inputs w :
  (startup builtin w).1 = Some () →
  let w1 := exec (startup builtin) w in
  _isRunning (app w1) = true ∧
  _currentScene (app w1) = _currentScene (app w) ∧
  _layers (app w1) = registered builtin (app w) ∧
  _Run builtin inputs w = loopAndUnload inputs w1.
Proof.
  intros Hok w1.
  destruct (run_shape builtin inputs w)
    as (rc & wc & evsC & Hcfg & Hl & Hc & _ & _ & _ & Hrun).
  destruct rc as [[]|].
  - destruct Hrun as [Hst Hrun]. subst w1. unfold exec. rewrite Hst.
    cbn [snd after app]. unfold startedApp at 1 2 3.
    cbn [set_isRunning _isRunning _currentScene _layers].
    by rewrite applyApis_currentScene, applyApis_layers.
  - exfalso. revert Hok. unfold startup.
    rewrite bind_case, register_eq, bind_case, Hcfg. done.
Qed.

(** ** Invariants of the game flags *)

Lemma keeps_preorder (I : Application → Prop) : PreOrder (@keeps F I).
Proof.
  split.
  - intros w H. exact H.
  - intros w1 w2 w3 H1 H2 H. apply H2, H1, H.
Qed.

#[local] Existing Instance keeps_preorder.

Section Keeps.
Context (I : Application → Prop).

Lemma keeps_modApp g : (∀ a, I a → I (g a)) → preserves (@keeps F I) (modApp g).
Proof. intros Hg w H. apply (Hg (app w)), H. Qed.

Lemma keeps_modDisk g : preserves (@keeps F I) (modDisk g).
Proof. intros w H. exact H. Qed.

Lemma keeps_modTiming g : preserves (@keeps F I) (modTiming g).
Proof. intros w H. exact H. Qed.

Lemma keeps_modScene p g : preserves (@keeps F I) (modScene p g).
Proof.
  intros w H. unfold modScene. destruct p as [n|]; [|exact H].
  destruct (scenes w !! n); exact H.
Qed.

Lemma keeps_emit e : preserves (@keeps F I) (emit e).
Proof. intros w H. exact H. Qed.

Lemma keeps_Scene_Load path : preserves (@keeps F I) (Scene_Load path).
Proof.
  intros w H. unfold Scene_Load. destruct (sceneFiles (disk w) path); exact H.
Qed.

Lemma keeps_invoke f args i layer :
  (∀ c a, I a → I (applyApi c a)) → preserves (@keeps F I) (invoke f args i layer).
Proof.
  intros Hc w. rewrite invoke_eq. unfold keeps. cbn [snd app].
  generalize (app w). induction (Hooks layer f) as [|c cs IH]; intros a Ha.
  - exact Ha.
  - apply IH, Hc, Ha.
Qed.
End Keeps.

Ltac keeps_steps_using known side :=
  repeat first
    [ match goal with |- PreOrder _ => exact _ end
    | known
    | apply keeps_modApp; side
    | apply keeps_modDisk | apply keeps_modScene | apply keeps_modTiming
    | apply keeps_emit | apply keeps_Scene_Load
    | apply keeps_invoke; side
    | apply preserves_JsonGet
    | apply preserves_getApp | apply preserves_getDisk | apply preserves_deref
    | apply preserves_ret | apply preserves_crash | apply preserves_orCrash
    | match goal with
      | |- preserves _ (mbind _ _) => apply preserves_bind; [exact _| |intros ?]
      | |- preserves _ (forEach _ _) => apply preserves_forEach; [exact _|intros [??]]
      | |- preserves _ (foldM _ _ _) => apply preserves_foldM; [exact _|intros ? [??]]
      | |- preserves _ (if ?b then _ else _) => destruct b
      | |- preserves _ (match ?o with Some _ => _ | None => _ end) => destruct o
      | |- preserves _ (match ?x with Stopped => _ | OutOfFrames => _ end) => destruct x
      | |- preserves _ (let '(_, _) := ?p in _) => destruct p
      end ].

(** Closes a condition on the three game flags by cases. *)
Ltac flags_side :=
  solve [ intros ? a; unfold pausedOnlyStarted; cbn;
          try destruct (isEscapePressed a); destruct (isGameStarted a);
          destruct (isGamePaused a); cbn; try done; try destruct 1; done
        | intros a; unfold pausedOnlyStarted; cbn;
          try destruct (isEscapePressed a); destruct (isGameStarted a);
          destruct (isGamePaused a); cbn; done
        | by intros [] ? ].

Lemma keeps_frame_paused inp sw :
  preserves (@keeps F pausedOnlyStarted) (frame inp sw).
Proof.
  unfold frame, sceneSwitching, _HandleSceneChange,
    frameRest, startScreen, pauseScreen, sceneReload, pollEvents, afterPoll,
    timingUpdate, coreUpdate, endFrame, setRenderEnabled, setPanelEnabled,
    onAudioManager, LoadScene, LoadScene_ptr,
    _Update, _LateUpdate, _PreRender, _RenderScene, _PostRender.
  keeps_steps_using fail flags_side.
Qed.

Lemma keeps_frame_started inp sw :
  preserves (@keeps F (λ a, isGameStarted a = true)) (frame inp sw).
Proof.
  unfold frame, sceneSwitching, _HandleSceneChange,
    frameRest, startScreen, pauseScreen, sceneReload, pollEvents, afterPoll,
    timingUpdate, coreUpdate, endFrame, setRenderEnabled, setPanelEnabled,
    onAudioManager, LoadScene, LoadScene_ptr,
    _Update, _LateUpdate, _PreRender, _RenderScene, _PostRender.
  keeps_steps_using fail ltac:(solve [by intros ? | by intros [] ?]).
Qed.

(** X15. Two invariants of the game flags over a whole run of [_Run]: the
    game is never paused before it has started, and once started it stays
    started. (Escape toggles the pause only when the game has started, and
    [LoadScene] starts the game unpaused.) *)
Theorem pause_needs_started_game builtin inputs w :
  let a' := app (exec (_Run builtin inputs) w) in
  (pausedOnlyStarted (app w) → pausedOnlyStarted a') ∧
  (isGameStarted (app w) = true → isGameStarted a' = true).
Proof.
  intros a'. split.
  - assert (preserves (@keeps F pausedOnlyStarted) (_Run builtin inputs)) as H.
    { unfold _Run, _ConfigureSettings, _GetDefaultAppSettings, SaveSettings,
        create_directory, WriteContentsToFile, ReadFile,
        _RegisterClasses, _Load, _Unload.
      keeps_steps_using
        ltac:(apply preserves_mainLoop; [exact _|apply keeps_frame_paused])
        flags_side. }
    apply H.
  - assert (preserves (@keeps F (λ a, isGameStarted a = true)) (_Run builtin inputs)) as H.
    { unfold _Run, _ConfigureSettings, _GetDefaultAppSettings, SaveSettings,
        create_directory, WriteContentsToFile, ReadFile,
        _RegisterClasses, _Load, _Unload.
      keeps_steps_using
        ltac:(apply preserves_mainLoop; [exact _|apply keeps_frame_started])
        ltac:(solve [by intros ? | by intros [] ?]). }
    apply H.
Qed.

(** ** The screens of the game *)

Lemma setPanelEnabled_eq i b w cur s o :
  _currentScene (app w) = Some cur → scenes w !! cur = Some s →
  Objects s !! i = Some o →
  setPanelEnabled i b w =
    match GuiPanel o with
    | Some _ =>
        (Some (), set_scenes (<[cur := withObjects
                   (<[i := withPanelEnabled b o]> (Objects s)) s]> (scenes w)) w)
    | None => (None, w)
    end.
Proof.
  intros Hcur Hs Ho. unfold setPanelEnabled.
  rewrite bind_case. cbn [getApp]. rewrite bind_case. unfold deref at 1.
  rewrite Hcur. cbn [mbind option_bind]. rewrite Hs.
  rewrite bind_case, Ho. cbn [orCrash]. unfold mret at 1, M_ret at 1.
  rewrite bind_case. destruct (GuiPanel o) as [p|]; [|done].
  cbn [orCrash]. unfold mret at 1, M_ret at 1. unfold modScene. by rewrite Hs.
Qed.

Lemma setRenderEnabled_eq name b w cur s i o :
  _currentScene (app w) = Some cur → scenes w !! cur = Some s →
  FindObjectByName name s = Some i → Objects s !! i = Some o →
  setRenderEnabled name b w =
    match RenderComponent o with
    | Some _ =>
        (Some (), set_scenes (<[cur := withObjects
                   (<[i := withRenderEnabled b o]> (Objects s)) s]> (scenes w)) w)
    | None => (None, w)
    end.
Proof.
  intros Hcur Hs Hi Ho. unfold setRenderEnabled.
  rewrite bind_case. cbn [getApp]. rewrite bind_case. unfold deref at 1.
  rewrite Hcur. cbn [mbind option_bind]. rewrite Hs.
  rewrite bind_case, Hi. cbn [orCrash]. unfold mret at 1, M_ret at 1.
  rewrite bind_case, Ho. cbn [orCrash]. unfold mret at 1, M_ret at 1.
  rewrite bind_case. destruct (RenderComponent o) as [p|]; [|done].
  cbn [orCrash]. unfold mret at 1, M_ret at 1. unfold modScene. by rewrite Hs.
Qed.

(** The Application after the flag update of [pauseScreen]. *)
Lemma pauseScreen_unfold inp w :
  let a := app w in
  let toggled := keyEscape inp && negb (isEscapePressed a) && isGameStarted a in
  let a0 := set_gameFlags (keyEscape inp) (xorb (isGamePaused a) toggled)
              (isGameStarted a) a in
  pauseScreen inp w =
    match _currentScene a ≫= (scenes w !!.) with
    | Some s =>
        match FindObjectByName "PauseScreen" s with
        | Some i => setPanelEnabled i (isGamePaused a0) (set_app a0 w)
        | None => (Some (), set_app a0 w)
        end
    | None => (None, set_app a0 w)
    end.
Proof.
  intros a toggled a0. unfold pauseScreen. rewrite bind_case.
  assert ((if keyEscape inp
           then modApp (λ a, set_gameFlags true
                  (if negb (isEscapePressed a) && isGameStarted a
                   then negb (isGamePaused a) else isGamePaused a)
                  (isGameStarted a) a)
           else modApp (λ a, set_gameFlags false (isGamePaused a) (isGameStarted a) a)) w
          = (Some (), set_app a0 w)) as ->.
  { subst a0 toggled a. destruct (keyEscape inp); unfold modApp; cbn [andb].
    - by destruct (isEscapePressed (app w)), (isGameStarted (app w)),
        (isGamePaused (app w)).
    - by destruct (isGamePaused (app w)). }
  rewrite bind_case. cbn [getApp]. rewrite bind_case. unfold deref at 1.
  cbn [app set_app scenes]. change (_currentScene a0) with (_currentScene a).
  destruct (_currentScene a ≫= _) as [s|]; [|done].
  by destruct (FindObjectByName "PauseScreen" s).
Qed.

(** X16. The pause screen of an iteration. The Escape flag records the key;
    the pause flag flips exactly when Escape is down now, was not down in the
    iteration before, and the game has started; and the panel of the object
    [PauseScreen] of the current scene, if there is one, is enabled exactly
    when the game is paused after the flip. An object [PauseScreen] without
    a panel, or no current scene, stops the program, after the flags were
    written. *)
Theorem pauseScreen_flags_and_panel inp w :
  let a := app w in
  let w' := exec (pauseScreen inp) w in
  let paused := xorb (isGamePaused a)
                  (keyEscape inp && negb (isEscapePressed a) && isGameStarted a) in
  (isEscapePressed (app w') = keyEscape inp ∧
   isGamePaused (app w') = paused ∧
   isGameStarted (app w') = isGameStarted a) ∧
  (∀ cur s, _currentScene a = Some cur → scenes w !! cur = Some s →
     match FindObjectByName "PauseScreen" s with
     | None => (pauseScreen inp w).1 = Some () ∧ scenes w' = scenes w
     | Some i =>
         ∀ o, Objects s !! i = Some o →
           match GuiPanel o with
           | None => (pauseScreen inp w).1 = None
           | Some _ =>
               (pauseScreen inp w).1 = Some () ∧
               scenes w' !! cur =
                 Some (withObjects (<[i := withPanelEnabled paused o]> (Objects s)) s)
           end
     end) ∧
  (_currentScene a ≫= (scenes w !!.) = None → (pauseScreen inp w).1 = None).
Proof.
  intros a w' paused. subst w'. unfold exec. rewrite pauseScreen_unfold.
  fold a. fold paused.
  set (a0 := set_gameFlags (keyEscape inp) paused (isGameStarted a) a).
  split; [|split].
  - destruct (_currentScene a ≫= _) as [s|] eqn:Hs; [|done].
    destruct (FindObjectByName "PauseScreen" s) as [i|]; [|done].
    assert (preserves (@steady F _ (λ a, a) (λ _ _, True))
              (setPanelEnabled i (isGamePaused a0))) as Hkeep.
    { unfold setPanelEnabled. steady_steps. }
    destruct (Hkeep (set_app a0 w)) as [-> _]. done.
  - intros cur s Hcur Hs. rewrite Hcur. cbn [mbind option_bind]. rewrite Hs.
    destruct (FindObjectByName "PauseScreen" s) as [i|]; [|done].
    intros o Ho.
    rewrite (setPanelEnabled_eq i _ (set_app a0 w) cur s o) by done.
    destruct (GuiPanel o); [|done]. split; [done|].
    cbn [snd set_scenes scenes set_app]. by rewrite lookup_insert_eq.
  - by intros ->.
Qed.

Lemma list_find_insert_same {A} (P : A → Prop) `{!∀ x, Decision (P x)}
    (l : list A) (i : nat) (x x' : A) :
  l !! i = Some x → (P x ↔ P x') →
  fst <$> list_find P (<[i := x']> l) = fst <$> list_find P l.
Proof.
  revert i. induction l as [|y l IH]; intros i Hi HP; [done|].
  destruct i as [|i]; simpl in *.
  - simplify_eq. destruct (decide (P x')), (decide (P x)); tauto || done.
  - destruct (decide (P y)); [done|].
    rewrite <- !option_fmap_compose.
    change (fst ∘ prod_map S id) with (S ∘ (@fst nat A)).
    rewrite !option_fmap_compose. f_equal. by apply IH.
Qed.

Lemma FindObjectByName_insert name s i o o' :
  Objects s !! i = Some o → goName o' = goName o →
  FindObjectByName name (withObjects (<[i := o']> (Objects s)) s)
  = FindObjectByName name s.
Proof.
  intros Ho Hname. unfold FindObjectByName, withObjects. cbn [Objects].
  apply list_find_insert_same with (x := o); [done|]. by rewrite Hname.
Qed.

Lemma FindObjectByName_Some name s i :
  FindObjectByName name s = Some i →
  ∃ o, Objects s !! i = Some o ∧ goName o = name.
Proof.
  unfold FindObjectByName. intros Hfind.
  destruct (list_find _ _) as [[j o]|] eqn:Hj; [|done].
  simpl in Hfind. simplify_eq. apply list_find_Some in Hj as (Ho & Hn & _).
  by exists o.
Qed.

(** The writes of the loop keep the shape of a scene. *)
Lemma shape_render s i o b :
  Objects s !! i = Some o → is_Some (RenderComponent o) →
  shape (withObjects (<[i := withRenderEnabled b o]> (Objects s)) s) = shape s.
Proof.
  intros Ho Hr. unfold shape. cbn [withObjects Objects audioManager requestSceneReload].
  rewrite list_fmap_insert. rewrite list_insert_id; [done|].
  rewrite list_lookup_fmap, Ho. cbn [fmap option_fmap option_map]. f_equal.
  unfold objectShape. cbn [withRenderEnabled goName RenderComponent GuiPanel AudioManager].
  by rewrite (bool_decide_true (is_Some (RenderComponent o))),
    (bool_decide_true (is_Some (Some b))) by done.
Qed.

Lemma shape_panel s i o b :
  Objects s !! i = Some o → is_Some (GuiPanel o) →
  shape (withObjects (<[i := withPanelEnabled b o]> (Objects s)) s) = shape s.
Proof.
  intros Ho Hr. unfold shape. cbn [withObjects Objects audioManager requestSceneReload].
  rewrite list_fmap_insert. rewrite list_insert_id; [done|].
  rewrite list_lookup_fmap, Ho. cbn [fmap option_fmap option_map]. f_equal.
  unfold objectShape. cbn [withPanelEnabled goName RenderComponent GuiPanel AudioManager].
  by rewrite (bool_decide_true (is_Some (GuiPanel o))),
    (bool_decide_true (is_Some (Some b))) by done.
Qed.

Lemma shape_lookup s s' i o :
  shape s' = shape s → Objects s !! i = Some o →
  ∃ o', Objects s' !! i = Some o' ∧ objectShape o' = objectShape o.
Proof.
  unfold shape. intros [= Hobjects _ _] Ho.
  assert ((objectShape <$> Objects s') !! i = Some (objectShape o)) as Hi
    by by rewrite Hobjects, list_lookup_fmap, Ho.
  rewrite list_lookup_fmap in Hi.
  destruct (Objects s' !! i) as [o'|]; [|done].
  exists o'. split; [done|]. cbn [fmap option_fmap option_map] in Hi. congruence.
Qed.

Lemma list_find_names (l l' : list GameObject) name :
  goName <$> l' = goName <$> l →
  fst <$> list_find (λ o, goName o = name) l'
  = fst <$> list_find (λ o, goName o = name) l.
Proof.
  revert l'. induction l as [|o l IH]; intros [|o' l'] Hnames; try done.
  injection Hnames as Hname Hrest. cbn [list_find]. rewrite Hname.
  destruct (decide (goName o = name)); [done|].
  rewrite <- !option_fmap_compose.
  change (fst ∘ prod_map S id) with (S ∘ (@fst nat GameObject)).
  rewrite !option_fmap_compose. f_equal. by apply IH.
Qed.

Lemma FindObjectByName_shape name s s' :
  shape s' = shape s → FindObjectByName name s' = FindObjectByName name s.
Proof.
  unfold shape. intros [= Hobjects _ _]. apply list_find_names.
  apply (f_equal (fmap (λ x : string * bool * bool * bool, x.1.1.1))) in Hobjects.
  by rewrite <- !list_fmap_compose in Hobjects.
Qed.

Lemma renderEnabled_shape name s s' :
  shape s' = shape s → is_Some (renderEnabled name s) → is_Some (renderEnabled name s').
Proof.
  intros Hshape [r Hr]. unfold renderEnabled in *.
  rewrite (FindObjectByName_shape name s s' Hshape).
  destruct (FindObjectByName name s) as [i|]; [|done]. cbn [mbind option_bind] in *.
  destruct (Objects s !! i) as [o|] eqn:Ho; [|done]. cbn [mbind option_bind] in Hr.
  destruct (shape_lookup s s' i o Hshape Ho) as (o' & -> & Ho').
  cbn [mbind option_bind]. unfold objectShape in Ho'. injection Ho' as _ Hrender _ _.
  rewrite Hr in Hrender. rewrite (bool_decide_true (is_Some (Some r))) in Hrender by done.
  by apply bool_decide_eq_true in Hrender.
Qed.

(** A scene on its start screen stays on it while its shape is kept. *)
Lemma onStartScreen_shape s s' : shape s' = shape s → onStartScreen s → onStartScreen s'.
Proof.
  intros Hshape ((Hstart & Hloading & am & Ham & Hmgr) & Hpause & Hreload).
  pose proof Hshape as Hshape'. unfold shape in Hshape'.
  injection Hshape' as _ Haudio Hrequest.
  split; [|split].
  - split; [by apply (renderEnabled_shape _ s)|].
    split; [by apply (renderEnabled_shape _ s)|].
    exists am. by rewrite Haudio.
  - intros i o' Hi Ho'. rewrite (FindObjectByName_shape _ s s' Hshape) in Hi.
    destruct (shape_lookup s' s i o' (eq_sym Hshape) Ho') as (o & Ho & Hoo').
    destruct (Hpause i o Hi Ho) as [p Hp].
    unfold objectShape in Hoo'. injection Hoo' as _ _ Hpanel _.
    rewrite Hp in Hpanel. rewrite (bool_decide_true (is_Some (Some p))) in Hpanel by done.
    symmetry in Hpanel. by apply bool_decide_eq_true in Hpanel.
  - by rewrite Hrequest.
Qed.

Lemma renderEnabled_panel name s i o b :
  Objects s !! i = Some o →
  renderEnabled name (withObjects (<[i := withPanelEnabled b o]> (Objects s)) s)
  = renderEnabled name s.
Proof.
  intros Ho. unfold renderEnabled.
  rewrite (FindObjectByName_insert name s i o) by done.
  destruct (FindObjectByName name s) as [j|]; [|done].
  cbn [mbind option_bind withObjects Objects].
  destruct (decide (j = i)) as [->|Hne].
  - rewrite list_lookup_insert_eq by (by eapply lookup_lt_Some). by rewrite Ho.
  - by rewrite list_lookup_insert_ne.
Qed.

(** Writing the flag of the render component of one object. *)
Lemma setRenderEnabled_spec name b w cur s :
  _currentScene (app w) = Some cur → scenes w !! cur = Some s →
  is_Some (renderEnabled name s) →
  ∃ s', setRenderEnabled name b w
          = (Some (), set_scenes (<[cur := s']> (scenes w)) w) ∧
        renderEnabled name s' = Some b ∧
        (∀ n, n ≠ name → renderEnabled n s' = renderEnabled n s) ∧
        audioManager s' = audioManager s ∧
        shape s' = shape s.
Proof.
  intros Hcur Hs [r Hr]. unfold renderEnabled in Hr.
  destruct (FindObjectByName name s) as [i|] eqn:Hi; [|done].
  cbn [mbind option_bind] in Hr.
  destruct (Objects s !! i) as [o|] eqn:Ho; [|done].
  cbn [mbind option_bind] in Hr.
  exists (withObjects (<[i := withRenderEnabled b o]> (Objects s)) s).
  split; [|split; [|split; [|split]]].
  - rewrite (setRenderEnabled_eq name b w cur s i o) by done. by rewrite Hr.
  - unfold renderEnabled. rewrite (FindObjectByName_insert name s i o) by done.
    rewrite Hi. cbn [mbind option_bind withObjects Objects].
    rewrite list_lookup_insert_eq by (by eapply lookup_lt_Some). done.
  - intros n Hn. unfold renderEnabled.
    rewrite (FindObjectByName_insert n s i o) by done.
    destruct (FindObjectByName n s) as [j|] eqn:Hj; [|done].
    cbn [mbind option_bind withObjects Objects].
    rewrite list_lookup_insert_ne; [done|]. intros ->.
    apply FindObjectByName_Some in Hi as (o1 & Ho1 & Hn1).
    apply FindObjectByName_Some in Hj as (o2 & Ho2 & Hn2). congruence.
  - done.
  - apply shape_render; [done|]. by rewrite Hr.
Qed.

Lemma onAudioManager_eq ev w cur s am :
  _currentScene (app w) = Some cur → scenes w !! cur = Some s →
  audioManager s = Some am → AudioManager am = true →
  onAudioManager ev w = (Some (), set_trace (trace w ++ [ev]) w).
Proof.
  intros Hcur Hs Ham Hmgr. unfold onAudioManager.
  rewrite bind_case. cbn [getApp]. rewrite bind_case. unfold deref at 1.
  rewrite Hcur. cbn [mbind option_bind]. rewrite Hs.
  rewrite bind_case, Ham. cbn [orCrash]. unfold mret at 1, M_ret at 1.
  by rewrite Hmgr.
Qed.

Lemma LoadScene_returns path w : is_Some (LoadScene path w).1.
Proof.
  unfold LoadScene. rewrite bind_case. cbn [getDisk].
  destruct (file_exists path (disk w)); [|by eexists].
  rewrite bind_case. unfold modApp at 1. rewrite bind_case. cbn [getDisk].
  rewrite bind_case.
  match goal with
  | |- context [(if ?c then emit ?e else mret ()) ?w0] =>
      assert (∃ w1, (if c then emit e else mret ()) w0 = (Some (), w1)) as [w1 ->]
        by (destruct c; by eexists)
  end.
  rewrite bind_case. unfold Scene_Load.
  destruct (sceneFiles (disk w1) path); rewrite bind_case; by eexists.
Qed.

(** [LoadScene] on a file that exists, in closed form. *)
Lemma LoadScene_exists path w :
  file_exists path (disk w) = true →
  let manifestPath := stem path +:+ "-manifest.json" in
  let p := fresh (dom (scenes w)) in
  let loaded := sceneFiles (disk w) path in
  LoadScene path w =
    (Some (bool_decide (loaded ≠ None)),
     {| app := set_targetScene (if loaded is Some _ then Some p else None)
                 (set_gameFlags false false true (app w));
        timing := timing w;
        scenes := if loaded is Some s then <[p := s]> (scenes w) else scenes w;
        disk := disk w;
        trace := trace w ++
                 (if file_exists manifestPath (disk w)
                  then [EvLoadManifest manifestPath] else []) ++
                 [EvSceneLoad path] |}).
Proof.
  intros Hex manifestPath p loaded. unfold LoadScene.
  rewrite !bind_case. cbn [getDisk]. rewrite Hex.
  rewrite !bind_case. cbn [modApp set_app disk]. rewrite !bind_case.
  cbn [getDisk set_app disk]. fold manifestPath.
  unfold Scene_Load, LoadScene_ptr. subst loaded p.
  destruct (file_exists manifestPath (disk w));
    destruct (sceneFiles (disk w) path) as [s|] eqn:Hs;
    run; rewrite ?Hs; run; by rewrite <- ?app_assoc.
Qed.

Lemma isGameStarted_applyApis cs a : isGameStarted (applyApis cs a) = isGameStarted a.
Proof.
  revert a. induction cs as [|c cs IH]; intros a; [done|].
  simpl. rewrite IH. by destruct c.
Qed.

(** What [LoadScene(path)] leaves of a world in which [cur] is a scene. *)
Lemma LoadScene_summary path w cur s :
  scenes w !! cur = Some s →
  let w' := exec (LoadScene path) w in
  is_Some (LoadScene path w).1 ∧
  _currentScene (app w') = _currentScene (app w) ∧
  _layers (app w') = _layers (app w) ∧
  _primaryViewport (app w') = _primaryViewport (app w) ∧
  scenes w' !! cur = Some s ∧
  disk w' = disk w ∧
  trace w' = trace w ++ loadSceneEvents path (disk w) ∧
  (file_exists path (disk w) = true →
     isGameStarted (app w') = true ∧
     ∀ level, sceneFiles (disk w) path = Some level →
       ∃ p, _targetScene (app w') = Some p ∧ p ≠ cur ∧ scenes w' !! p = Some level).
Proof.
  intros Hs w'. split; [apply LoadScene_returns|].
  subst w'. unfold exec, loadSceneEvents.
  destruct (file_exists path (disk w)) eqn:Hex.
  - rewrite (LoadScene_exists path w Hex). cbn [snd app timing scenes disk trace].
    assert (fresh (dom (scenes w)) ≠ cur) as Hne.
    { intros Heq. apply (is_fresh (dom (scenes w))). rewrite Heq.
      by apply elem_of_dom. }
    destruct (sceneFiles (disk w) path) as [level|] eqn:Hlevel.
    + rewrite lookup_insert_ne by done.
      split; [done|]. split; [done|]. split; [done|]. split; [done|].
      split; [done|]. split; [done|]. intros _. split; [done|].
      intros ? [= <-]. eexists. split; [done|]. split; [done|].
      by rewrite lookup_insert_eq.
    + split; [done|]. split; [done|]. split; [done|]. split; [done|].
      split; [done|]. split; [done|]. intros _. split; [done|]. done.
  - assert (LoadScene path w = (Some false, w)) as ->.
    { unfold LoadScene. rewrite bind_case. cbn [getDisk]. by rewrite Hex. }
    cbn [snd]. rewrite app_nil_r. by repeat split.
Qed.

(** The start screen of an iteration that is not yet swapping, with Space
    down. *)
Lemma startScreen_first inp w cur s :
  _currentScene (app w) = Some cur → scenes w !! cur = Some s →
  hasStartScreen s → keySpace inp = true →
  ∃ s', startScreen inp false w = (Some true, set_scenes (<[cur := s']> (scenes w)) w) ∧
        shape s' = shape s ∧
        renderEnabled "StartScreenPlane" s' = Some false ∧
        renderEnabled "LoadingScreenPlane" s' = Some true.
Proof.
  intros Hcur Hs (Hstart & Hloading & am & Ham & Hmgr) Hspace.
  destruct (setRenderEnabled_spec "StartScreenPlane" false w cur s Hcur Hs Hstart)
    as (sa & Ha & Hsa1 & Hsa2 & Hsa3 & Hsa4).
  set (wa := set_scenes (<[cur := sa]> (scenes w)) w) in *.
  assert (scenes wa !! cur = Some sa) as Hwa by apply lookup_insert_eq.
  assert (is_Some (renderEnabled "LoadingScreenPlane" sa)) as Hla
    by (by rewrite Hsa2).
  destruct (setRenderEnabled_spec "LoadingScreenPlane" true wa cur sa Hcur Hwa Hla)
    as (sb & Hb & Hsb1 & Hsb2 & Hsb3 & Hsb4).
  exists sb. split; [|split; [congruence|split; [by rewrite Hsb2|done]]].
  unfold startScreen. rewrite bind_case. cbn [getApp]. rewrite bind_case.
  unfold deref at 1. rewrite Hcur. cbn [mbind option_bind]. rewrite Hs.
  destruct Hstart as [r Hr]. unfold renderEnabled in Hr.
  destruct (FindObjectByName "StartScreenPlane" s) as [i|]; [|done].
  rewrite bool_decide_true by (by eexists). rewrite Hspace. cbn [andb orb].
  rewrite bind_case, Ha, bind_case, Hb. subst wa. unfold set_scenes.
  cbn [app timing scenes disk trace]. by rewrite insert_insert_eq.
Qed.

(** The start screen of an iteration that is swapping. *)
Lemma startScreen_second inp w cur s :
  _currentScene (app w) = Some cur → scenes w !! cur = Some s →
  hasStartScreen s →
  ∃ s', startScreen inp true w =
          (Some false,
           exec (LoadScene "level1.json")
             (set_trace (trace w ++ [EvUnloadSound "Title"; EvPlaySound "Transition"])
                (set_scenes (<[cur := s']> (scenes w)) w))) ∧
        shape s' = shape s ∧
        renderEnabled "StartScreenPlane" s' = Some false ∧
        renderEnabled "LoadingScreenPlane" s' = Some true.
Proof.
  intros Hcur Hs (Hstart & Hloading & am & Ham & Hmgr).
  destruct (setRenderEnabled_spec "StartScreenPlane" false w cur s Hcur Hs Hstart)
    as (sa & Ha & Hsa1 & Hsa2 & Hsa3 & Hsa4).
  set (wa := set_scenes (<[cur := sa]> (scenes w)) w) in *.
  assert (scenes wa !! cur = Some sa) as Hwa by apply lookup_insert_eq.
  assert (is_Some (renderEnabled "LoadingScreenPlane" sa)) as Hla
    by (by rewrite Hsa2).
  destruct (setRenderEnabled_spec "LoadingScreenPlane" true wa cur sa Hcur Hwa Hla)
    as (sb & Hb & Hsb1 & Hsb2 & Hsb3 & Hsb4).
  set (wb := set_scenes (<[cur := sb]> (scenes wa)) wa) in *.
  assert (scenes wb !! cur = Some sb) as Hwb by apply lookup_insert_eq.
  assert (audioManager sb = Some am) as Hamb by congruence.
  set (wc := set_trace (trace wb ++ [EvUnloadSound "Title"]) wb).
  set (wd := set_trace (trace wc ++ [EvPlaySound "Transition"]) wc).
  exists sb. split; [|split; [congruence|split; [by rewrite Hsb2|done]]].
  unfold startScreen. rewrite bind_case. cbn [getApp]. rewrite bind_case.
  unfold deref at 1. rewrite Hcur. cbn [mbind option_bind]. rewrite Hs.
  rewrite orb_true_r.
  rewrite bind_case, Ha, bind_case, Hb, bind_case.
  rewrite (onAudioManager_eq _ wb cur sb am) by done.
  rewrite bind_case. fold wc.
  rewrite (onAudioManager_eq _ wc cur sb am) by done.
  fold wd. rewrite bind_case.
  assert (wd = set_trace (trace w ++ [EvUnloadSound "Title"; EvPlaySound "Transition"])
                 (set_scenes (<[cur := sb]> (scenes w)) w)) as ->.
  { subst wd wc wb wa. unfold set_trace, set_scenes.
    cbn [app timing scenes disk trace].
    by rewrite insert_insert_eq, <- app_assoc. }
  unfold exec.
  destruct (LoadScene_returns "level1.json"
              (set_trace (trace w ++ [EvUnloadSound "Title"; EvPlaySound "Transition"])
                 (set_scenes (<[cur := sb]> (scenes w)) w))) as [b Hb'].
  by destruct (LoadScene "level1.json" _) as [[b'|] w3].
Qed.

(** The pause screen in a scene whose pause screen, if any, has its panel. *)
Lemma pauseScreen_ready inp w cur s :
  _currentScene (app w) = Some cur → scenes w !! cur = Some s → pauseOk s →
  let a := app w in
  let a0 := set_gameFlags (keyEscape inp)
              (xorb (isGamePaused a)
                 (keyEscape inp && negb (isEscapePressed a) && isGameStarted a))
              (isGameStarted a) a in
  ∃ s', pauseScreen inp w
          = (Some (), set_scenes (<[cur := s']> (scenes w)) (set_app a0 w)) ∧
        shape s' = shape s ∧
        ∀ name, renderEnabled name s' = renderEnabled name s.
Proof.
  intros Hcur Hs Hpause a a0. rewrite pauseScreen_unfold. fold a. fold a0.
  subst a. rewrite Hcur. cbn [mbind option_bind]. rewrite Hs.
  destruct (FindObjectByName "PauseScreen" s) as [i|] eqn:Hi.
  - destruct (FindObjectByName_Some _ _ _ Hi) as (o & Ho & _).
    destruct (Hpause i o Hi Ho) as [p Hp].
    exists (withObjects (<[i := withPanelEnabled (isGamePaused a0) o]> (Objects s)) s).
    split; [|split].
    + rewrite (setPanelEnabled_eq i _ (set_app a0 w) cur s o) by done.
      by rewrite Hp.
    + apply shape_panel; [done|]. by rewrite Hp.
    + intros name. by apply renderEnabled_panel.
  - exists s. split; [|done]. unfold set_scenes. cbn [app timing scenes disk trace set_app].
    by rewrite insert_id.
Qed.

(** Without the request of the scene nothing is reloaded. *)
Lemma sceneReload_idle inp w cur s :
  _currentScene (app w) = Some cur → scenes w !! cur = Some s →
  requestSceneReload s = false → sceneReload inp w = (Some (), w).
Proof.
  intros Hcur Hs Hreload. unfold sceneReload. rewrite bind_case. cbn [getApp].
  rewrite bind_case. unfold deref at 1. rewrite Hcur. cbn [mbind option_bind].
  by rewrite Hs, Hreload.
Qed.

(** From the start screen to the poll: the pause screen and the reload
    leave the scene on its start screen. *)
Lemma beforePoll_ready inp sw w cur s swapping w1 s1 :
  _targetScene (app w) = None →
  startScreen inp sw w = (Some swapping, w1) →
  _currentScene (app w1) = Some cur → scenes w1 !! cur = Some s1 →
  shape s1 = shape s → onStartScreen s →
  ∃ w4 s4,
    beforePoll inp sw w = (Some swapping, w4) ∧
    scenes w4 !! cur = Some s4 ∧ shape s4 = shape s ∧
    (∀ name, renderEnabled name s4 = renderEnabled name s1) ∧
    (∀ p, p ≠ cur → scenes w4 !! p = scenes w1 !! p) ∧
    trace w4 = trace w1 ∧ disk w4 = disk w1 ∧
    _currentScene (app w4) = Some cur ∧
    _targetScene (app w4) = _targetScene (app w1) ∧
    _layers (app w4) = _layers (app w1) ∧
    _primaryViewport (app w4) = _primaryViewport (app w1) ∧
    isGameStarted (app w4) = isGameStarted (app w1).
Proof.
  intros Htarget Hstart Hcur Hs1 Hshape Hready.
  pose proof (onStartScreen_shape s s1 Hshape Hready) as (_ & Hpause1 & _).
  destruct (pauseScreen_ready inp w1 cur s1 Hcur Hs1 Hpause1) as (s4 & Hp & Hshape4 & Hrender4).
  cbn zeta in Hp.
  set (a0 := set_gameFlags _ _ _ (app w1)) in Hp.
  set (w4 := set_scenes (<[cur := s4]> (scenes w1)) (set_app a0 w1)) in *.
  assert (scenes w4 !! cur = Some s4) as Hs4 by apply lookup_insert_eq.
  assert (shape s4 = shape s) as Hshape4' by congruence.
  pose proof (onStartScreen_shape s s4 Hshape4' Hready) as (_ & _ & Hreload4).
  exists w4, s4.
  split.
  { unfold beforePoll. rewrite bind_case, sceneSwitching_eq.
    rewrite bool_decide_false by (by rewrite Htarget; intros []).
    rewrite bind_case, Hstart, bind_case, Hp, bind_case.
    by rewrite (sceneReload_idle inp w4 cur s4). }
  split; [done|]. split; [done|]. split; [done|].
  split; [intros p Hne; subst w4; unfold set_scenes; cbn [scenes set_app];
          by rewrite lookup_insert_ne|].
  by repeat split.
Qed.

(** What the poll and the rest of the frame leave alone. *)
Lemma afterPoll_keeps inp w4 :
  let w' := exec (afterPoll inp) (exec (pollEvents inp) w4) in
  scenes w' = scenes w4 ∧ disk w' = disk w4 ∧
  _currentScene (app w') = _currentScene (app w4) ∧
  _layers (app w') = _layers (app w4) ∧
  _primaryViewport (app w') = _primaryViewport (app w4) ∧
  isGameStarted (app w') = isGameStarted (app w4) ∧
  (Forall (λ c, c = ApiQuit) (phaseScripts (_layers (app w4))) →
   _targetScene (app w') = _targetScene (app w4)).
Proof.
  intros w'. subst w'. unfold exec. rewrite pollEvents_eq. cbn [snd].
  rewrite afterPoll_eq. cbn [snd app scenes disk].
  set (a5 := if shouldClose inp then set_isRunning false (app w4) else app w4).
  assert (_currentScene a5 = _currentScene (app w4) ∧ _layers a5 = _layers (app w4) ∧
          _primaryViewport a5 = _primaryViewport (app w4) ∧
          isGameStarted a5 = isGameStarted (app w4) ∧
          _targetScene a5 = _targetScene (app w4)) as (H1 & H2 & H3 & H4 & H5)
    by (subst a5; by destruct (shouldClose inp)).
  destruct (bool_decide (_currentScene a5 ≠ None)); [|done].
  rewrite phaseApp_scripts.
  cbn [set_renderOutput _currentScene _layers _primaryViewport isGameStarted _targetScene].
  rewrite applyApis_currentScene, applyApis_layers, applyApis_primaryViewport,
    isGameStarted_applyApis.
  split; [done|]. split; [done|]. split; [done|]. split; [done|].
  split; [done|]. split; [done|].
  intros Hquit. rewrite applyApis_only_quit; [done|]. by rewrite H2.
Qed.


(** X18. The reload of the level. Without the request of the scene or
    without the key E nothing happens. With both, and the file of the level
    on disk, the level is loaded and staged as a new scene, distinct from the
    current one, and it is the current scene, the one about to be replaced,
    whose [IsPlaying] is set; the staged scene is stored as it was loaded. *)
Theorem sceneReload_marks_current_scene inp w cur s :
  _currentScene (app w) = Some cur →
  scenes w !! cur = Some s →
  let w' := exec (sceneReload inp) w in
  (requestSceneReload s && keyE inp = false → sceneReload inp w = (Some (), w)) ∧
  (requestSceneReload s && keyE inp = true →
   file_exists "Level1.json" (disk w) = true →
     (sceneReload inp w).1 = Some () ∧
     _currentScene (app w') = Some cur ∧
     scenes w' !! cur = Some (withIsPlaying true s) ∧
     ∀ level, sceneFiles (disk w) "Level1.json" = Some level →
       ∃ p, _targetScene (app w') = Some p ∧ p ≠ cur ∧ scenes w' !! p = Some level).
Proof.
  intros Hcur Hs w'.
  assert (sceneReload inp w =
    if requestSceneReload s && keyE inp
    then (LoadScene "Level1.json" ≫= λ _, modScene (Some cur) (withIsPlaying true)) w
    else (Some (), w)) as Hreload.
  { unfold sceneReload. rewrite bind_case. cbn [getApp]. rewrite bind_case.
    unfold deref at 1. rewrite Hcur. cbn [mbind option_bind]. rewrite Hs.
    by destruct (requestSceneReload s && keyE inp). }
  subst w'. unfold exec. rewrite Hreload. split.
  - by intros ->.
  - intros -> Hex. rewrite bind_case, (LoadScene_exists "Level1.json" w Hex).
    assert (fresh (dom (scenes w)) ≠ cur) as Hne.
    { intros Heq. apply (is_fresh (dom (scenes w))). rewrite Heq.
      by apply elem_of_dom. }
    unfold modScene. cbn [scenes].
    destruct (sceneFiles (disk w) "Level1.json") as [level|] eqn:Hlevel.
    + rewrite lookup_insert_ne, Hs by done. cbn [fst snd set_scenes scenes app].
      split_and!; [done|done|by rewrite lookup_insert_eq|].
      intros ? [= <-]. eexists. split_and!; [done|done|].
      rewrite lookup_insert_ne by done. by rewrite lookup_insert_eq.
    + rewrite Hs. cbn [fst snd set_scenes scenes app].
      split_and!; [done|done|by rewrite lookup_insert_eq|done].
Qed.

End Properties.

(** * The timing values in binary32 *)

(** ** Rounding *)

Lemma pow2_pos (n : Z) : 0 ≤ n → 0 < 2 ^ n.
Proof. intros Hn. by apply Z.pow_pos_nonneg. Qed.

Lemma pow2_add (a b : Z) : 0 ≤ a → 0 ≤ b → 2 ^ (a + b) = 2 ^ a * 2 ^ b.
Proof. intros Ha Hb. by apply Z.pow_add_r. Qed.

Lemma pow2_le (a b : Z) : 0 ≤ a → a ≤ b → 2 ^ a ≤ 2 ^ b.
Proof. intros Ha Hab. apply Z.pow_le_mono_r; lia. Qed.

Lemma pow2_lt (a b : Z) : 0 ≤ a → a < b → 2 ^ a < 2 ^ b.
Proof. intros Ha Hab. apply Z.pow_lt_mono_r; lia. Qed.

Lemma pow2_succ (a : Z) : 0 ≤ a → 2 ^ (a + 1) = 2 * 2 ^ a.
Proof. intros Ha. rewrite pow2_add by lia. lia. Qed.

Lemma digits2_pos_bounds (p : positive) :
  2 ^ (Z.pos (digits2_pos p) - 1) ≤ Z.pos p < 2 ^ Z.pos (digits2_pos p).
Proof.
  induction p as [p IH|p IH|]; cbn [digits2_pos].
  - rewrite Pos2Z.inj_succ.
    replace (Z.succ (Z.pos (digits2_pos p)) - 1) with (Z.pos (digits2_pos p) - 1 + 1) by lia.
    replace (Z.succ (Z.pos (digits2_pos p))) with (Z.pos (digits2_pos p) + 1) by lia.
    rewrite !pow2_succ by lia. lia.
  - rewrite Pos2Z.inj_succ.
    replace (Z.succ (Z.pos (digits2_pos p)) - 1) with (Z.pos (digits2_pos p) - 1 + 1) by lia.
    replace (Z.succ (Z.pos (digits2_pos p))) with (Z.pos (digits2_pos p) + 1) by lia.
    rewrite !pow2_succ by lia. lia.
  - done.
Qed.

Lemma iter_pos_inv {A} (f : A → A) (I : Z → A → Prop) :
  (∀ k x, 0 ≤ k → I k x → I (k + 1) (f x)) →
  ∀ p k x, 0 ≤ k → I k x → I (k + Z.pos p) (iter_pos f p x).
Proof.
  intros Hf. induction p as [p IH|p IH|]; intros k x Hk Hx; cbn [iter_pos].
  - replace (k + Z.pos p~1) with (k + 1 + Z.pos p + Z.pos p) by lia.
    apply IH; [lia|]. apply IH; [lia|]. by apply Hf.
  - replace (k + Z.pos p~0) with (k + Z.pos p + Z.pos p) by lia.
    apply IH; [lia|]. by apply IH.
  - by apply Hf.
Qed.

Lemma shifted_shr_1 m k mrs : 0 ≤ k → shifted m k mrs → shifted m (k + 1) (shr_1 mrs).
Proof.
  intros Hk (t & Ht & Hs & Hm & Heq). destruct mrs as [m' r s]. cbn in *.
  pose proof (pow2_pos k Hk) as Hpos.
  rewrite pow2_succ in Heq by lia.
  exists ((if r then 2 ^ k else 0) + t).
  rewrite !pow2_succ by lia.
  assert ((r || s = true) ↔ (if r then 2 ^ k else 0) + t ≠ 0) as Hrs.
  { destruct r; cbn; [split; [lia|done]|]. rewrite Hs. done. }
  destruct m' as [|[p|p|]|p]; cbn; try lia;
    (split; [destruct r; lia|]); (split; [exact Hrs|]); (split; [lia|]);
    destruct r; lia.
Qed.

Lemma shifted_iter m p :
  0 ≤ m → shifted m (Z.pos p) (iter_pos shr_1 p (Build_shr_record m false false)).
Proof.
  intros Hm.
  apply (iter_pos_inv shr_1 (shifted m) (shifted_shr_1 m) p 0); [done|].
  exists 0. cbn. split; [lia|]. split; [done|]. split; [done|]. lia.
Qed.

(** A right shift of [m] by [n] places, and the rounding to nearest even of
    what is left. *)
Lemma shr_round m e n :
  0 ≤ m →
  let mrs := (shr (Build_shr_record m false false) e n).1 in
  let e' := (shr (Build_shr_record m false false) e n).2 in
  let q := round_nearest_even (shr_m mrs) (loc_of_shr_record mrs) in
  let K := Z.max n 0 in
  e' = e + K ∧ 0 ≤ shr_m mrs ∧ shr_m mrs * 2 ^ K ≤ m ∧
  shr_m mrs ≤ q ≤ shr_m mrs + 1 ∧
  2 * Z.abs (q * 2 ^ K - m) ≤ 2 ^ K.
Proof.
  intros Hm. destruct n as [|p|p]; cbn [shr fst snd].
  - rewrite Z.max_r by lia. change (2 ^ 0) with 1. cbn. lia.
  - rewrite Z.max_l by lia.
    destruct (shifted_iter m p Hm) as (t & Ht & Hs & Hm' & Heq).
    destruct (iter_pos shr_1 p _) as [m' r s]. cbn in *.
    pose proof (pow2_pos (Z.pos p) ltac:(lia)) as Hpos.
    rewrite pow2_succ in Heq by lia.
    split; [done|]. split; [done|].
    destruct r, s; cbn.
    + assert (t ≠ 0) by by apply Hs. lia.
    + assert (t = 0) by (destruct (decide (t = 0)); [done|]; by apply Hs in n).
      destruct (Z.even m'); lia.
    + assert (t ≠ 0) by by apply Hs. lia.
    + assert (t = 0) by (destruct (decide (t = 0)); [done|]; by apply Hs in n).
      lia.
  - rewrite Z.max_r by lia. change (2 ^ 0) with 1. cbn. lia.
Qed.

Lemma fexp32 (e : Z) : fexp 24 128 e = Z.max (e - 24) (-149).
Proof. reflexivity. Qed.

Lemma scaled_error (q m Q P : Z) :
  0 ≤ P → 2 * Z.abs (q * Q - m) ≤ Q → 2 * Z.abs (q * (Q * P) - m * P) ≤ Q * P.
Proof.
  intros HP Herr. replace (q * (Q * P) - m * P) with ((q * Q - m) * P) by ring.
  rewrite Z.abs_mul, (Z.abs_eq P) by done. nia.
Qed.

(** Rounding the magnitude [mx * 2^ex] to binary32. *)
Lemma binary_round_aux_correct (s : bool) (mx : positive) (ex L : Z) :
  L ≤ ex → L ≤ -149 →
  rounds L (Z.pos mx * 2 ^ (ex - L)) s
    (binary_round_aux 24 128 s (Z.pos mx) ex loc_Exact).
Proof.
  intros HL HL'. unfold binary_round_aux, shr_fexp.
  change (shr_record_of_loc (Z.pos mx) loc_Exact)
    with (Build_shr_record (Z.pos mx) false false).
  change (Zdigits2 (Z.pos mx)) with (Z.pos (digits2_pos mx)).
  pose proof (digits2_pos_bounds mx) as Hd.
  set (d := Z.pos (digits2_pos mx)) in *.
  assert (1 ≤ d) as Hd1 by (subst d; lia).
  rewrite fexp32.
  set (n := Z.max (d + ex - 24) (-149) - ex).
  pose proof (shr_round (Z.pos mx) ex n ltac:(lia)) as Hshr. cbn zeta in Hshr.
  destruct (shr _ ex n) as [mrs' e'] eqn:Hshr_eq. cbn [fst snd] in Hshr.
  destruct Hshr as (He' & Hm' & Hle & Hq & Herr).
  set (q := round_nearest_even (shr_m mrs') (loc_of_shr_record mrs')) in *.
  set (K := Z.max n 0) in *.
  assert (0 ≤ K) as HK by lia.
  assert (d - 24 ≤ K) as HKd by lia.
  assert (-149 ≤ e') as He'min by lia.
  pose proof (pow2_pos K HK) as HQ.
  pose proof (pow2_pos (ex - L) ltac:(lia)) as HP.
  assert (2 ^ (e' - L) = 2 ^ K * 2 ^ (ex - L)) as Hpow.
  { replace (e' - L) with (K + (ex - L)) by lia. apply pow2_add; lia. }
  assert (shr_m mrs' < 2 ^ 24) as Hm24.
  { assert (2 ^ d ≤ 2 ^ (24 + K)) as Hle2 by (apply pow2_le; lia).
    rewrite pow2_add in Hle2 by lia. nia. }
  assert (0 ≤ q ≤ 2 ^ 24) as Hq24 by lia.
  change (shr_record_of_loc q loc_Exact) with (Build_shr_record q false false).
  rewrite fexp32.
  destruct q as [|qp|qp] eqn:Hqeq; [| |lia].
  - change (Zdigits2 0) with 0.
    destruct (Z.max (0 + e' - 24) (-149) - e') as [|p|p] eqn:Hn2; [|lia|];
      cbn [shr shr_m]; (split; [done|]).
    all: assert (n > 0) as Hn by (destruct (decide (n > 0)); [done|];
           assert (K = 0) as HK0 by lia; rewrite HK0 in Herr;
           change (2 ^ 0) with 1 in Herr; lia).
    all: assert (K = n) as HKn by lia.
    all: assert (e' = -149) as ->.
    1,3: destruct (decide (d + ex - 24 ≤ -149)) as [|Hbig]; [lia|];
         assert (K = d - 24) as HKd' by lia;
         assert (2 ^ (d - 24) < 2 ^ (d - 1)) as Hlt by (apply pow2_lt; lia);
         rewrite HKd' in Herr; lia.
    all: rewrite Hpow; replace (0 * 2 ^ K - Z.pos mx) with (- Z.pos mx) in Herr by lia;
         rewrite Z.abs_opp, Z.abs_eq in Herr by lia; nia.
  - change (Zdigits2 (Z.pos qp)) with (Z.pos (digits2_pos qp)).
    pose proof (digits2_pos_bounds qp) as Hdq.
    set (dq := Z.pos (digits2_pos qp)) in *.
    assert (dq ≤ 25) as Hdq25.
    { destruct (decide (dq ≤ 25)) as [|Hbig]; [done|].
      assert (2 ^ 25 ≤ 2 ^ (dq - 1)) by (apply pow2_le; lia).
      assert (2 ^ 24 < 2 ^ 25) by done. lia. }
    pose proof (scaled_error (Z.pos qp) (Z.pos mx) (2 ^ K) (2 ^ (ex - L))
                  ltac:(lia) Herr) as Hfin.
    destruct (Z.max (dq + e' - 24) (-149) - e') as [|p|p] eqn:Hn2.
    + cbn [shr shr_m]. destruct (e' <=? 128 - 24); [|done].
      split; [done|]. split; [done|]. by rewrite Hpow.
    + assert (p = 1%positive) as -> by lia.
      assert (dq = 25) as Hdq' by lia.
      assert (qp = 16777216%positive) as ->.
      { rewrite Hdq' in Hdq. change (2 ^ (25 - 1)) with 16777216 in Hdq.
        change (2 ^ 24) with 16777216 in Hq24. lia. }
      cbn [shr iter_pos shr_1 shr_m fst snd orb].
      destruct (e' + 1 <=? 128 - 24); [|done].
      split; [done|]. split; [lia|].
      replace (e' + 1 - L) with (e' - L + 1) by lia.
      rewrite pow2_succ by lia. rewrite Hpow.
      replace (Z.pos 8388608 * (2 * (2 ^ K * 2 ^ (ex - L))))
        with (Z.pos 16777216 * (2 ^ K * 2 ^ (ex - L))) by lia.
      lia.
    + cbn [shr shr_m]. destruct (e' <=? 128 - 24); [|done].
      split; [done|]. split; [done|]. by rewrite Hpow.
Qed.

Lemma Pos_iter_xO (m d : positive) : Z.pos (Pos.iter xO m d) = Z.pos m * 2 ^ Z.pos d.
Proof.
  induction d as [|d IH] using Pos.peano_ind.
  - cbn. lia.
  - rewrite Pos.iter_succ, Pos2Z.inj_succ, Pos2Z.inj_xO, IH.
    rewrite Z.pow_succ_r by lia. lia.
Qed.

(** [shl_align] brings a mantissa down to the smaller exponent without
    changing the value. *)
Lemma shl_align_spec (mx : positive) (ex ex' : Z) :
  (shl_align mx ex ex').2 = Z.min ex ex' ∧
  Z.pos (shl_align mx ex ex').1 = Z.pos mx * 2 ^ (ex - Z.min ex ex').
Proof.
  unfold shl_align. destruct (ex' - ex) as [|p|p] eqn:Hd; cbn [fst snd].
  - rewrite Z.min_l by lia. rewrite Z.sub_diag. change (2 ^ 0) with 1. lia.
  - rewrite Z.min_l by lia. rewrite Z.sub_diag. change (2 ^ 0) with 1. lia.
  - rewrite Z.min_r by lia. split; [done|].
    rewrite Pos_iter_xO. by replace (ex - ex') with (Z.pos p) by lia.
Qed.

Lemma binary_round_correct (s : bool) (m : positive) (e : Z) :
  -149 ≤ e →
  rounds (-149) (Z.pos m * 2 ^ (e + 149)) s (binary_round 24 128 s m e).
Proof.
  intros He. unfold binary_round. rewrite fexp32.
  pose proof (shl_align_spec m e (Z.max (Z.pos (digits2_pos m) + e - 24) (-149)))
    as [Hez Hmz].
  destruct (shl_align m e _) as [mz ez]. cbn [fst snd] in Hez, Hmz.
  pose proof (binary_round_aux_correct s mz ez (-149) ltac:(lia) ltac:(lia)) as Hr.
  replace (Z.pos mz * 2 ^ (ez - -149)) with (Z.pos m * 2 ^ (e + 149)) in Hr; [done|].
  rewrite Hmz, <- Hez, <- Z.mul_assoc, <- pow2_add by lia. f_equal. f_equal. lia.
Qed.

Lemma cond_Zopp_mul (s : bool) (a b : Z) : cond_Zopp s a * b = cond_Zopp s (a * b).
Proof. destruct s; cbn; lia. Qed.

Lemma SFadd_correct (x y : binary32) :
  finite32 x = true → finite32 y = true →
  is_finite (SFadd 24 128 x y) = true →
  finite32 (SFadd 24 128 x y) = true ∧
  2 * Z.abs (ticks (SFadd 24 128 x y) - (ticks x + ticks y))
    ≤ ulp (SFadd 24 128 x y).
Proof.
  destruct x as [sx|sx| |sx mx ex], y as [sy|sy| |sy my ey]; try done.
  - intros _ _ _. by destruct sx, sy.
  - intros _ Hy _. cbn [SFadd]. split; [done|].
    cbn [finite32] in Hy. apply bool_decide_eq_true in Hy.
    pose proof (pow2_pos (ey + 149) ltac:(lia)).
    cbn [ticks ulp]. replace (_ - _) with 0 by lia. cbn. lia.
  - intros Hx _ _. cbn [SFadd]. split; [done|].
    cbn [finite32] in Hx. apply bool_decide_eq_true in Hx.
    pose proof (pow2_pos (ex + 149) ltac:(lia)).
    cbn [ticks ulp]. replace (_ - _) with 0 by lia. cbn. lia.
  - intros Hx Hy. cbn [finite32] in Hx, Hy.
    apply bool_decide_eq_true in Hx. apply bool_decide_eq_true in Hy.
    cbn [SFadd ticks].
    set (ez := Z.min ex ey).
    pose proof (shl_align_spec mx ex ez) as [_ Hmx].
    pose proof (shl_align_spec my ey ez) as [_ Hmy].
    rewrite Z.min_r in Hmx by lia. rewrite Z.min_r in Hmy by lia.
    set (S := cond_Zopp sx (Z.pos (shl_align mx ex ez).1)
              + cond_Zopp sy (Z.pos (shl_align my ey ez).1)).
    assert (cond_Zopp sx (Z.pos mx * 2 ^ (ex + 149))
            + cond_Zopp sy (Z.pos my * 2 ^ (ey + 149)) = S * 2 ^ (ez + 149)) as ->.
    { subst S. rewrite Hmx, Hmy, Z.mul_add_distr_r, !cond_Zopp_mul.
      rewrite <- !Z.mul_assoc, <- !pow2_add by lia.
      by replace (ex - ez + (ez + 149)) with (ex + 149) by lia;
         replace (ey - ez + (ez + 149)) with (ey + 149) by lia. }
    clearbody S. unfold binary_normalize.
    pose proof (pow2_pos (ez + 149) ltac:(lia)) as Hpos.
    destruct S as [|m|m].
    + intros _. split; [done|]. cbn. lia.
    + pose proof (binary_round_correct false m ez ltac:(lia)) as Hr.
      destruct (binary_round 24 128 false m ez) as [s'|s'| |s' m' e']; try done.
      * intros _. split; [done|]. destruct Hr as [_ Hr]. cbn [ticks ulp].
        change (2 ^ (-149 - -149)) with 1 in Hr. lia.
      * intros _. destruct Hr as (-> & He' & Hr). split.
        { cbn. by apply bool_decide_eq_true. }
        cbn [ticks ulp cond_Zopp].
        by replace (e' - -149) with (e' + 149) in Hr by lia.
    + pose proof (binary_round_correct true m ez ltac:(lia)) as Hr.
      destruct (binary_round 24 128 true m ez) as [s'|s'| |s' m' e']; try done.
      * intros _. split; [done|]. destruct Hr as [_ Hr]. cbn [ticks ulp].
        change (2 ^ (-149 - -149)) with 1 in Hr. lia.
      * intros _. destruct Hr as (-> & He' & Hr). split.
        { cbn. by apply bool_decide_eq_true. }
        cbn [ticks ulp cond_Zopp].
        replace (e' - -149) with (e' + 149) in Hr by lia.
        replace (- (Z.pos m' * 2 ^ (e' + 149)) - Z.neg m * 2 ^ (ez + 149))
          with (- (Z.pos m' * 2 ^ (e' + 149) - Z.pos m * 2 ^ (ez + 149))) by lia.
        by rewrite Z.abs_opp.
Qed.

Lemma cond_Zopp_xorb (sx sy : bool) (a b : Z) :
  cond_Zopp sx a * cond_Zopp sy b = cond_Zopp (xorb sx sy) (a * b).
Proof. destruct sx, sy; cbn; lia. Qed.

Lemma cond_Zopp_abs (s : bool) (a b : Z) :
  Z.abs (cond_Zopp s a - cond_Zopp s b) = Z.abs (a - b).
Proof. destruct s; cbn; lia. Qed.

Lemma SFmul_correct (x y : binary32) :
  finite32 x = true → finite32 y = true →
  is_finite (SFmul 24 128 x y) = true →
  finite32 (SFmul 24 128 x y) = true ∧
  2 * Z.abs (2 ^ 149 * ticks (SFmul 24 128 x y) - ticks x * ticks y)
    ≤ 2 ^ 149 * ulp (SFmul 24 128 x y).
Proof.
  destruct x as [sx|sx| |sx mx ex], y as [sy|sy| |sy my ey]; try done.
  1: intros _ _ _; split; [done|]; cbn [SFmul ticks ulp];
       rewrite ?Z.mul_0_l, ?Z.mul_0_r; change (2 ^ 149 * 1) with (2 ^ 149);
       pose proof (pow2_pos 149 ltac:(lia)); cbn [Z.sub Z.abs Z.opp Z.add]; lia.
  - intros Hx Hy. cbn [finite32] in Hx, Hy.
    apply bool_decide_eq_true in Hx. apply bool_decide_eq_true in Hy.
    cbn [SFmul ticks]. rewrite cond_Zopp_xorb.
    pose proof (binary_round_aux_correct (xorb sx sy) (mx * my) (ex + ey) (-298)
                  ltac:(lia) ltac:(lia)) as Hr.
    assert (Z.pos mx * 2 ^ (ex + 149) * (Z.pos my * 2 ^ (ey + 149))
            = Z.pos (mx * my) * 2 ^ (ex + ey - -298)) as ->.
    { replace (ex + ey - -298) with ((ex + 149) + (ey + 149)) by lia.
      rewrite (pow2_add (ex + 149) (ey + 149)), Pos2Z.inj_mul by lia. ring. }
    set (v := Z.pos (mx * my) * 2 ^ (ex + ey - -298)) in *.
    assert (0 ≤ v) as Hv.
    { subst v. pose proof (pow2_pos (ex + ey - -298) ltac:(lia)). lia. }
    clearbody v.
    destruct (binary_round_aux 24 128 _ _ _ _) as [s'|s'| |s' m' e']; try done.
    + intros _. split; [done|]. destruct Hr as [-> Hr]. cbn [ticks ulp].
      change (2 ^ (-149 - -298)) with (2 ^ 149) in Hr.
      destruct (xorb sx sy); cbn; lia.
    + intros _. destruct Hr as (-> & He' & Hr). split.
      { cbn. by apply bool_decide_eq_true. }
      cbn [ticks ulp].
      replace (2 ^ 149 * cond_Zopp (xorb sx sy) (Z.pos m' * 2 ^ (e' + 149)))
        with (cond_Zopp (xorb sx sy) (Z.pos m' * 2 ^ (e' - -298))).
      { rewrite cond_Zopp_abs.
        replace (2 ^ 149 * 2 ^ (e' + 149)) with (2 ^ (e' - -298)); [done|].
        replace (e' - -298) with (149 + (e' + 149)) by lia.
        by rewrite pow2_add by lia. }
      replace (e' - -298) with (149 + (e' + 149)) by lia.
      rewrite pow2_add by lia. destruct (xorb sx sy); cbn; lia.
Qed.

Lemma SFadd_finite (x y : binary32) :
  is_finite (SFadd 24 128 x y) = true → is_finite x = true ∧ is_finite y = true.
Proof.
  destruct x as [sx|sx| |sx mx ex], y as [sy|sy| |sy my ey]; try done;
    destruct sx, sy; done.
Qed.

Lemma SFmul_finite (x y : binary32) :
  is_finite (SFmul 24 128 x y) = true → is_finite x = true ∧ is_finite y = true.
Proof.
  destruct x as [sx|sx| |sx mx ex], y as [sy|sy| |sy my ey]; done.
Qed.

(** ** Running sums *)

Lemma total_cons (x : Z) (xs : list Z) : total (x :: xs) = x + total xs.
Proof. reflexivity. Qed.

Lemma total_ulp_bound (U : Z) (xs : list binary32) :
  Forall (λ x, ulp x ≤ U) xs → total (ulp <$> xs) ≤ Z.of_nat (length xs) * U.
Proof.
  induction 1 as [|x xs Hx _ IH]; [done|].
  rewrite fmap_cons, total_cons. cbn [length]. lia.
Qed.

Lemma length_sumSteps (acc : binary32) (ds : list binary32) :
  length (sumSteps acc ds) = length ds.
Proof.
  revert acc. induction ds as [|d ds IH]; intros acc; [done|].
  cbn [sumSteps length]. by rewrite IH.
Qed.

Lemma length_scaledSteps (s acc : binary32) (ds : list binary32) :
  length (scaledSteps s acc ds) = (2 * length ds)%nat.
Proof.
  revert acc. induction ds as [|d ds IH]; intros acc; [done|].
  cbn [scaledSteps length]. rewrite IH. lia.
Qed.

(** A sum that ends finite was finite all the way. *)
Lemma fsum_finite (ds : list binary32) (acc : binary32) :
  is_finite (fsum acc ds) = true → is_finite acc = true.
Proof.
  revert acc. induction ds as [|d ds IH]; intros acc Hfin; [done|].
  apply (IH (fadd acc d)) in Hfin. by apply (SFadd_finite acc d) in Hfin as [? _].
Qed.

Lemma fsumScaled_finite (s : binary32) (ds : list binary32) (acc : binary32) :
  is_finite (fsumScaled s acc ds) = true → is_finite acc = true.
Proof.
  revert acc. induction ds as [|d ds IH]; intros acc Hfin; [done|].
  apply (IH (fadd acc (fmul d s))) in Hfin.
  by apply (SFadd_finite acc (fmul d s)) in Hfin as [? _].
Qed.

(** The running sum of [ds] is within half a unit in the last place of
    each partial sum of the exact sum. *)
Lemma fsum_error (ds : list binary32) (acc : binary32) :
  finite32 acc = true → Forall (λ d, finite32 d = true) ds →
  is_finite (fsum acc ds) = true →
  Forall (λ x, finite32 x = true) (sumSteps acc ds) ∧
  finite32 (fsum acc ds) = true ∧
  2 * Z.abs (ticks (fsum acc ds) - (ticks acc + total (ticks <$> ds)))
    ≤ total (ulp <$> sumSteps acc ds).
Proof.
  intros Hacc Hds. revert acc Hacc.
  induction Hds as [|d ds Hd Hds IH]; intros acc Hacc Hfin.
  - split; [constructor|]. split; [done|].
    change (fsum acc []) with acc. change (total (ticks <$> [])) with 0.
    replace (ticks acc - (ticks acc + 0)) with 0 by lia. done.
  - change (fsum acc (d :: ds)) with (fsum (fadd acc d) ds) in *.
    pose proof (fsum_finite ds _ Hfin) as Hstep.
    destruct (SFadd_correct acc d Hacc Hd Hstep) as [Hacc' Herr].
    pose proof (IH (fadd acc d) Hacc' Hfin) as (Hall & Hres & Herr').
    split; [by constructor|]. split; [done|].
    cbn [sumSteps]. rewrite !fmap_cons, !total_cons.
    change (SFadd 24 128 acc d) with (fadd acc d) in Herr. lia.
Qed.

(** The running sum of the products [d * s], each rounded on its own, is
    within half a unit in the last place of each product and each partial
    sum of the exact value, counted in units of [2^-298]. *)
Lemma fsumScaled_error (s : binary32) (ds : list binary32) (acc : binary32) :
  finite32 s = true → finite32 acc = true → Forall (λ d, finite32 d = true) ds →
  is_finite (fsumScaled s acc ds) = true →
  Forall (λ x, finite32 x = true) (scaledSteps s acc ds) ∧
  finite32 (fsumScaled s acc ds) = true ∧
  2 * Z.abs (2 ^ 149 * ticks (fsumScaled s acc ds)
             - (2 ^ 149 * ticks acc + total (ticks <$> ds) * ticks s))
    ≤ 2 ^ 149 * total (ulp <$> scaledSteps s acc ds).
Proof.
  intros Hs Hacc Hds. revert acc Hacc.
  induction Hds as [|d ds Hd Hds IH]; intros acc Hacc Hfin.
  - split; [constructor|]. split; [done|].
    change (fsumScaled s acc []) with acc. change (total (ticks <$> [])) with 0.
    change (total (ulp <$> scaledSteps s acc [])) with 0.
    replace (2 ^ 149 * ticks acc - (2 ^ 149 * ticks acc + 0 * ticks s)) with 0 by lia.
    done.
  - change (fsumScaled s acc (d :: ds))
      with (fsumScaled s (fadd acc (fmul d s)) ds) in *.
    pose proof (fsumScaled_finite s ds _ Hfin) as Hstep.
    destruct (SFadd_finite acc (fmul d s) Hstep) as [_ Hprod].
    destruct (SFmul_correct d s Hd Hs Hprod) as [Hp Herrp].
    pose proof (SFadd_correct acc (fmul d s) Hacc Hp Hstep) as [Hacc' Herr].
    pose proof (IH (fadd acc (fmul d s)) Hacc' Hfin) as (Hall & Hres & Herr').
    split; [by repeat constructor|]. split; [done|].
    cbn [scaledSteps]. rewrite !fmap_cons, !total_cons.
    change (SFadd 24 128 acc (fmul d s)) with (fadd acc (fmul d s)) in Herr.
    change (SFmul 24 128 d s) with (fmul d s) in Herrp, Herr.
    pose proof (pow2_pos 149 ltac:(lia)) as Hpos.
    set (P := 2 ^ 149) in *. clearbody P.
    set (A := ticks (fsumScaled s (fadd acc (fmul d s)) ds)) in *.
    set (A' := ticks (fadd acc (fmul d s))) in *.
    set (p := ticks (fmul d s)) in *.
    set (u1 := ulp (fmul d s)) in *. set (u2 := ulp (fadd acc (fmul d s))) in *.
    set (T := total (ticks <$> ds)) in *.
    set (R := total (ulp <$> scaledSteps s (fadd acc (fmul d s)) ds)) in *.
    nia.
Qed.

Section Binary32.
Context {FL : FlagLayout} {JT : JsonText}.

(** C5. After a run of [N] frames with the unscaled deltas [ds] and the
    fixed time scale [s], in the binary32 arithmetic of the program:
    after every frame [deltaTime] is [unscaledDeltaTime * timeScale], the
    product as the arithmetic rounds it. [unscaledTimeSinceAppLoad] is the
    running sum of the [ds] and [timeSinceAppLoad] the running sum of the
    products [d * s]. These equal [sum(ds)] and [sum(ds) * s] up to
    rounding: each addition and each multiplication is off by at most half
    a unit in the last place of its result, so [unscaledTimeSinceAppLoad]
    is within [N] times, and [timeSinceAppLoad] within [2 N] times, half
    the largest unit in the last place met on the way. The values are
    counted in units of [2^-149], the products of two of them in units of
    [2^-298]; the deltas, the scale and the counters at the start are
    finite numbers, and the counters at the end have not overflowed. *)
Theorem timing_within_tolerance (inputs : list (@FrameInput binary32)) (sw : bool)
    (w : @World binary32) :
  is_Some (frames inputs sw w).1 →
  let t0 := timing w in
  let t := timing (exec (frames inputs sw) w) in
  let ds := dt <$> inputs in
  let s := _timeScale t0 in
  let N := Z.of_nat (length inputs) in
  finite32 s = true →
  Forall (λ d, finite32 d = true) ds →
  finite32 (_timeSinceAppLoad t0) = true →
  finite32 (_unscaledTimeSinceAppLoad t0) = true →
  is_finite (_timeSinceAppLoad t) = true →
  is_finite (_unscaledTimeSinceAppLoad t) = true →
  (∀ k, (0 < k ≤ length inputs)%nat →
     let tk := timing (exec (frames (take k inputs) sw) w) in
     _timeScale tk = s ∧ _deltaTime tk = fmul (_unscaledDeltaTime tk) s) ∧
  _unscaledTimeSinceAppLoad t = fsum (_unscaledTimeSinceAppLoad t0) ds ∧
  _timeSinceAppLoad t = fsumScaled s (_timeSinceAppLoad t0) ds ∧
  2 * Z.abs (ticks (_unscaledTimeSinceAppLoad t)
             - (ticks (_unscaledTimeSinceAppLoad t0) + total (ticks <$> ds)))
    ≤ total (ulp <$> sumSteps (_unscaledTimeSinceAppLoad t0) ds) ∧
  2 * Z.abs (2 ^ 149 * ticks (_timeSinceAppLoad t)
             - (2 ^ 149 * ticks (_timeSinceAppLoad t0)
                + total (ticks <$> ds) * ticks s))
    ≤ 2 ^ 149 * total (ulp <$> scaledSteps s (_timeSinceAppLoad t0) ds) ∧
  (∀ U, Forall (λ x, ulp x ≤ U) (sumSteps (_unscaledTimeSinceAppLoad t0) ds) →
     2 * Z.abs (ticks (_unscaledTimeSinceAppLoad t)
                - (ticks (_unscaledTimeSinceAppLoad t0) + total (ticks <$> ds)))
       ≤ N * U) ∧
  (∀ U, Forall (λ x, ulp x ≤ U) (scaledSteps s (_timeSinceAppLoad t0) ds) →
     Z.abs (2 ^ 149 * ticks (_timeSinceAppLoad t)
            - (2 ^ 149 * ticks (_timeSinceAppLoad t0)
               + total (ticks <$> ds) * ticks s))
       ≤ 2 ^ 149 * (N * U)).
Proof.
  intros Hsome t0 t ds s N Hs Hds Ha0 Hu0 Ha Hu.
  destruct (frames_timing_sums inputs sw w Hsome) as (Hscale & Hscaled & Hsum & _).
  fold t0 t ds s in Hscale, Hscaled, Hsum.
  rewrite Hsum in Hu. rewrite Hscaled in Ha.
  destruct (fsum_error ds _ Hu0 Hds Hu) as (_ & _ & Herr1).
  destruct (fsumScaled_error s ds _ Hs Ha0 Hds Ha) as (_ & _ & Herr2).
  rewrite <- Hsum in Herr1. rewrite <- Hscaled in Herr2.
  split.
  { intros k Hk tk.
    pose proof (frames_take inputs sw w k Hsome) as Hsomek.
    destruct (frames_timing_sums (take k inputs) sw w Hsomek)
      as (Hscalek & _ & _ & Hdelta & _).
    fold tk t0 s in Hscalek, Hdelta. split; [done|].
    rewrite <- Hscalek. apply Hdelta.
    intros Hnil. apply (f_equal length) in Hnil.
    rewrite length_take in Hnil. cbn in Hnil. lia. }
  split; [done|]. split; [done|]. split; [done|]. split; [done|].
  split.
  - intros U HU.
    apply total_ulp_bound in HU. rewrite length_sumSteps in HU.
    subst N ds. rewrite length_fmap in HU. lia.
  - intros U HU.
    apply total_ulp_bound in HU. rewrite length_scaledSteps in HU.
    subst N ds. rewrite length_fmap in HU.
    pose proof (pow2_pos 149 ltac:(lia)) as Hpos.
    set (P := 2 ^ 149) in *. clearbody P. nia.
Qed.
End Binary32.

(** * The properties on the small instance *)

#[local] Existing Instance demoLayout.
#[local] Existing Instance Z_arith.
#[local] Existing Instance demoText.

Lemma dispatch_iff_witness :
  2%nat ∈ hookCalls OnSceneUnload (emitted (dispatcher OnSceneUnload (0, 0)) demoWorld) ↔
  ∃ layer, _layers (app demoWorld) !! 2%nat = Some layer ∧ Enabled layer = true ∧
           Z.testbit (Overrides layer) (Z.of_N (bitOf OnSceneUnload)) = true.
Proof.
  apply (dispatch_iff_enabled_and_overridden OnSceneUnload (0, 0) demoWorld 2).
  intros _. vm_compute. discriminate.
Defined.

Lemma dispatch_order_witness :
  hookCalls OnSceneUnload (emitted (dispatcher OnSceneUnload (0, 0)) demoWorld)
  = [2%nat; 0%nat].
Proof.
  destruct (dispatch_order OnSceneUnload (0, 0) demoWorld) as [_ Hrev].
  - intros _. vm_compute. discriminate.
  - destruct Hrev as [-> _].
    + apply elem_of_cons. right. apply elem_of_cons. by left.
    + vm_compute. reflexivity.
Defined.

Lemma scene_transition_witness :
  _currentScene (app (exec sceneSwitching stagedWorld)) = Some 1%nat ∧
  _targetScene (app (exec sceneSwitching stagedWorld)) = None ∧
  IsPlaying <$> scenes (exec sceneSwitching stagedWorld) !! 1%nat = Some true ∧
  awakes (emitted (frame (demoInput half) false) stagedWorld) = [1%nat] ∧
  hookCalls OnUpdate
    (unloadEvents (app stagedWorld) ++ loadEvents (Some 1%nat) (app stagedWorld) ++
     [EvSceneAwake 1 false None]) = [] ∧
  ∃ s', scenes (exec (frame (demoInput half) false) stagedWorld) !! 1%nat = Some s' ∧
        awakeCalls <$> Objects s' = [1%nat; 1%nat].
Proof.
  assert (_targetScene (app stagedWorld) ≠ None) as H1
    by (vm_compute; discriminate).
  assert (_targetScene (unloadedApp (app stagedWorld)) = Some 1%nat) as H2
    by (vm_compute; reflexivity).
  assert (scenes stagedWorld !! 1%nat = Some demoScene) as H3
    by (vm_compute; reflexivity).
  destruct (scene_transition_sequence (demoInput half) false stagedWorld 1 demoScene
              H1 H2 H3)
    as (_ & _ & _ & _ & Hcur & _ & Hplaying & Htarget & Hawake & Hphases & _ & Hcalls).
  split; [exact Hcur|]. split; [exact Htarget|]. split; [exact Hplaying|].
  split; [exact Hawake|]. split; [|exact Hcalls].
  apply (Hphases OnUpdate). apply elem_of_cons. by left.
Defined.

Lemma render_output_carry_witness :
  _renderOutput (app (exec _RenderScene carryWorld)) = Some demoBuffer ∧
  blits (emitted _PostRender (exec _RenderScene carryWorld)) =
    [((0, 0, 640, 480), (0, 0, 1920, 1080))].
Proof.
  destruct (render_output_carry carryWorld) as (_ & _ & _ & HA & _ & Hblit).
  split.
  - apply HA. vm_compute. reflexivity.
  - destruct (Hblit demoBuffer 0 0 1920 1080) as [_ Hrect];
      [vm_compute; reflexivity|reflexivity|].
    apply Hrect; cbn; lia.
Defined.

(** With the time scale 1/10 and the deltas 1 and 6, binary32 gives a
    [timeSinceAppLoad] that differs from [sum(ds) * s], rounded, in the last
    place; it is within the tolerance. *)
Lemma timing_within_tolerance_witness :
  let t0 := timing slowWorld in
  let t := timing (exec (frames [demoInput one; demoInput six] false) slowWorld) in
  _timeSinceAppLoad t = b32 11744052 (-24) ∧
  fmul (fsum fzero [one; six]) tenth = b32 11744051 (-24) ∧
  2 * Z.abs (2 ^ 149 * ticks (_timeSinceAppLoad t)
             - (2 ^ 149 * ticks (_timeSinceAppLoad t0)
                + total (ticks <$> [one; six]) * ticks tenth))
    ≤ 2 ^ 149 * total (ulp <$> scaledSteps tenth (_timeSinceAppLoad t0) [one; six]).
Proof.
  intros t0 t.
  split; [vm_compute; reflexivity|]. split; [vm_compute; reflexivity|].
  assert (is_Some (frames [demoInput one; demoInput six] false slowWorld).1) as Hsome
    by (vm_compute; eexists; reflexivity).
  destruct (timing_within_tolerance [demoInput one; demoInput six] false slowWorld Hsome)
    as (_ & _ & _ & _ & Herr & _).
  - vm_compute. reflexivity.
  - repeat constructor.
  - vm_compute. reflexivity.
  - vm_compute. reflexivity.
  - vm_compute. reflexivity.
  - vm_compute. reflexivity.
  - exact Herr.
Defined.

Lemma settings_resolution_witness :
  _appSettings (app (exec _ConfigureSettings demoWorld)) = demoDefaults ∧
  file_text "C:\Users\me\AppData\Resonance\app-settings.json"
    (disk (exec _ConfigureSettings demoWorld)) = Some (show demoDefaults) ∧
  emitted _ConfigureSettings demoWorld =
    [EvCreateDirectory "C:\Users\me\AppData\Resonance";
     EvWriteFile "C:\Users\me\AppData\Resonance\app-settings.json" (show demoDefaults)].
Proof.
  assert (APPDATA (disk demoWorld) = Some "C:\Users\me\AppData") as H1 by reflexivity.
  assert (defaultAppSettings (_layers (app demoWorld)) = Some demoDefaults) as H2
    by (vm_compute; reflexivity).
  destruct (settings_resolution demoWorld "C:\Users\me\AppData" demoDefaults H1 H2)
    as [_ Hfresh].
  destruct (Hfresh (show demoDefaults)) as (_ & Hsettings & Hevents & _ & Hfile & _).
  - vm_compute. reflexivity.
  - reflexivity.
  - vm_compute. reflexivity.
  - split; [exact Hsettings|]. split; [exact Hfile|]. rewrite Hevents. reflexivity.
Defined.

Lemma stop_request_witness :
  let inp := withShouldClose true (demoInput half) in
  let w' := exec (frame inp false) demoWorld in
  frame inp false demoWorld = (Some false, w') ∧
  hookCalls OnUpdate (emitted (frame inp false) demoWorld) = [0%nat; 1%nat] ∧
  hookCalls OnPostRender (emitted (frame inp false) demoWorld) = [2%nat; 0%nat] ∧
  timing w' = updateTiming half (timing demoWorld) ∧
  _isRunning (app w') = false ∧
  mainLoop [inp; demoInput half] false demoWorld = (Some Stopped, w').
Proof.
  intros inp w'.
  destruct (stop_request_completes_frame inp false demoWorld)
    as (_ & _ & _ & _ & _ & _ & _ & _ & _ & _ & _ & Hframe).
  destruct (Hframe false (beforePoll inp false demoWorld).2)
    as (Hres & _ & Hcalls & Htiming & Hstop).
  - vm_compute. reflexivity.
  - destruct Hstop as [Hflag Hloop]; [by left|].
    split; [exact Hres|].
    split; [rewrite Hcalls; [reflexivity|apply elem_of_cons; by left|done]|].
    split.
    { rewrite Hcalls; [reflexivity| |done].
      do 4 (apply elem_of_cons; right). apply elem_of_cons. by left. }
    split; [exact Htiming|]. split; [exact Hflag|].
    apply Hloop. reflexivity.
Defined.

Lemma LoadScene_witness :
  LoadScene "missing.json" demoWorld = (Some false, demoWorld) ∧
  emitted (LoadScene "level1.json") demoWorld = [EvSceneLoad "level1.json"].
Proof.
  split.
  - destruct (LoadScene_missing_or_staged "missing.json" demoWorld) as [Hmiss _].
    apply Hmiss. vm_compute. reflexivity.
  - destruct (LoadScene_missing_or_staged "level1.json" demoWorld) as [_ Hex].
    destruct Hex as (_ & -> & _); vm_compute; reflexivity.
Defined.

Lemma no_phase_without_scene_witness :
  hookCalls OnUpdate (emitted (frame (demoInput half) false) emptyWorld) = [].
Proof.
  apply (no_phase_without_scene (demoInput half) false emptyWorld OnUpdate).
  - apply elem_of_cons. by left.
  - vm_compute. reflexivity.
Defined.

(** C6. The counters "since scene load" are not reset when a staged scene
    becomes current. In the frame that makes scene 1 current, one second
    after scene 0 was loaded and with a delta of half a second,
    [timeSinceSceneLoad] and [unscaledTimeSinceSceneLoad] go from 1 to 1.5
    like the counters "since app load"; they are neither zero nor the
    delta of the frame. *)
Lemma scene_load_keeps_counters :
  let w' := exec (frame (demoInput half) false) stagedWorld in
  (frame (demoInput half) false stagedWorld).1 = Some false ∧
  _currentScene (app stagedWorld) = Some 0%nat ∧
  _targetScene (app stagedWorld) = Some 1%nat ∧
  _currentScene (app w') = Some 1%nat ∧
  _targetScene (app w') = None ∧
  _timeSinceSceneLoad (timing stagedWorld) = one ∧
  _timeSinceSceneLoad (timing w') = b32 3 (-1) ∧
  _timeSinceSceneLoad (timing w') ≠ half ∧
  _timeSinceSceneLoad (timing w') ≠ fzero ∧
  _unscaledTimeSinceSceneLoad (timing w') = b32 3 (-1) ∧
  _timeSinceAppLoad (timing w') = b32 3 (-1).
Proof.
  vm_compute. split_and!; try reflexivity; discriminate.
Qed.

(** A persisted document with [window_width] set to null: the key is
    present in the document, and the settings end up without it. And a
    disk without the directory that [APPDATA] names: no persisted document
    exists, the directory of the application cannot be made, and nothing
    is written. *)
Lemma null_member_counterexample :
  let settings := _appSettings (app (exec _ConfigureSettings persistedWorld)) in
  ((_ConfigureSettings persistedWorld).1 = Some () ∧
   nullWidth !! "window_width" = Some JNull ∧
   json_find "window_width" settings = None ∧
   ¬ (∀ k v, nullWidth !! k = Some v → json_find k settings = Some v)) ∧
  (file_exists (settingsPathOf "C:\Users\me\AppData") (disk bareWorld) = false ∧
   (_ConfigureSettings bareWorld).1 = None ∧
   emitted _ConfigureSettings bareWorld = [] ∧
   disk (exec _ConfigureSettings bareWorld) = disk bareWorld).
Proof.
  assert (json_find "window_width"
            (_appSettings (app (exec _ConfigureSettings persistedWorld))) = None) as Hnone
    by (vm_compute; reflexivity).
  assert (nullWidth !! "window_width" = Some JNull) as Hnull
    by (vm_compute; reflexivity).
  split.
  - split; [vm_compute; reflexivity|].
    split; [exact Hnull|].
    split; [exact Hnone|].
    intros Hall. specialize (Hall "window_width" JNull Hnull).
    rewrite Hnone in Hall. discriminate Hall.
  - vm_compute. split_and!; reflexivity.
Qed.

(** * More properties on the small instance *)

Lemma scene_counters_witness :
  let t := timing (exec (frames [keysDown false false; keysDown false true] false)
                     menuWorld) in
  _timeSinceSceneLoad t = _timeSinceAppLoad t ∧
  _unscaledTimeSinceSceneLoad t = _unscaledTimeSinceAppLoad t.
Proof.
  apply (scene_counters_track_app_counters
           [keysDown false false; keysDown false true] false menuWorld);
    reflexivity.
Defined.

Lemma default_settings_witness :
  ∃ defaults,
    _GetDefaultAppSettings tickWorld = (Some defaults, tickWorld) ∧
    ∀ k, json_find k defaults =
           if decide (k = "window_height") then Some (JNum 1080)
           else if decide (k = "window_width") then Some (JNum 1920)
           else lastNamed k demoLayers.
Proof.
  apply (default_settings_of_named_layers tickWorld).
  repeat constructor; discriminate.
Defined.

Lemma unnamed_layer_witness :
  (_GetDefaultAppSettings anonymousWorld).1
  = (_GetDefaultAppSettings (withLayers [renderLayer] anonymousWorld)).1.
Proof.
  destruct (unnamed_layer_resets_defaults anonymousWorld
              [sceneLayer] [renderLayer] anonymousLayer eq_refl eq_refl) as [Hreset _].
  apply Hreset; [reflexivity|]. vm_compute. eexists. reflexivity.
Defined.

Lemma SaveSettings_witness :
  let w' := exec SaveSettings tickWorld in
  SaveSettings tickWorld = (Some (), w') ∧
  file_text "C:\Users\me\AppData\Resonance\app-settings.json" (disk w')
    = Some "null" ∧
  emitted SaveSettings tickWorld =
    [EvCreateDirectory "C:\Users\me\AppData\Resonance";
     EvWriteFile "C:\Users\me\AppData\Resonance\app-settings.json" "null"] ∧
  emitted SaveSettings w' =
    [EvWriteFile "C:\Users\me\AppData\Resonance\app-settings.json" "null"] ∧
  SaveSettings (set_disk (disk bareWorld) tickWorld)
    = (None, set_disk (disk bareWorld) tickWorld).
Proof.
  intros w'.
  destruct (SaveSettings_writes_settings tickWorld) as (Hsave & _ & _ & _).
  destruct (Hsave "C:\Users\me\AppData" "null")
    as (Hres & _ & Hfile & _ & _ & Hevents & Hagain & _).
  - reflexivity.
  - reflexivity.
  - vm_compute. reflexivity.
  - vm_compute. discriminate.
  - split; [exact Hres|]. split; [exact Hfile|].
    split; [rewrite Hevents; reflexivity|]. split; [exact Hagain|].
    destruct (SaveSettings_writes_settings (set_disk (disk bareWorld) tickWorld))
      as (_ & Hthrow & _).
    apply (Hthrow "C:\Users\me\AppData"); vm_compute; reflexivity.
Defined.

Lemma second_start_witness :
  let w1 := exec _ConfigureSettings tickWorld in
  let w2 := exec _ConfigureSettings w1 in
  _ConfigureSettings tickWorld = (Some (), w1) ∧
  file_text "C:\Users\me\AppData\Resonance\app-settings.json" (disk w1)
    = Some (show demoDefaults) ∧
  _ConfigureSettings w1 = (Some (), w2) ∧
  _appSettings (app w2) = demoDefaults ∧
  disk w2 = disk w1 ∧
  Forall (λ e, writesDisk e = false) (emitted _ConfigureSettings w1).
Proof.
  intros w1 w2.
  destruct (second_start_keeps_defaults tickWorld "C:\Users\me\AppData" demoDefaults
              (show demoDefaults))
    as (Hfirst & Hfile & Hsecond & Hsame & _).
  - reflexivity.
  - vm_compute. reflexivity.
  - vm_compute. reflexivity.
  - reflexivity.
  - vm_compute. reflexivity.
  - destruct (Hsecond demoDefaults) as (Hres & _ & Hdisk & Hquiet).
    { vm_compute. reflexivity. }
    split; [exact Hfirst|]. split; [exact Hfile|]. split; [exact Hres|].
    split; [|by split].
    apply Hsame; [vm_compute; reflexivity|].
    vm_compute.
    repeat first [ apply nullFree_obj_list; vm_compute | constructor ].
Defined.

Lemma configure_settings_bad_file_witness :
  (_ConfigureSettings corruptWorld).1 = None ∧
  disk (exec _ConfigureSettings corruptWorld) = disk corruptWorld ∧
  Forall (λ e, writesDisk e = false) (emitted _ConfigureSettings corruptWorld).
Proof.
  assert (defaultAppSettings (_layers (app corruptWorld)) = Some demoDefaults) as Hdef
    by (vm_compute; reflexivity).
  destruct (configure_settings_bad_file corruptWorld "C:\Users\me\AppData"
              demoDefaults eq_refl Hdef) as [Hbad _].
  apply (Hbad "{"); vm_compute; reflexivity.
Defined.

Lemma run_without_scene_witness :
  (_Run demoBuiltin [keysDown false false] freshWorld).1 = None ∧
  (∀ f, f ≠ OnAppLoad →
     hookCalls f (emitted (_Run demoBuiltin [keysDown false false]) freshWorld) = []).
Proof.
  apply (run_without_scene_stops demoBuiltin (keysDown false false) [] freshWorld).
  - reflexivity.
  - reflexivity.
  - apply Forall_forall. intros l Hl s Hin.
    repeat (apply elem_of_cons in Hl as [->|Hl];
            [vm_compute in Hin; repeat (apply elem_of_cons in Hin as [Hin|Hin];
               [discriminate Hin|]); by apply elem_of_nil in Hin|]).
    by apply elem_of_nil in Hl.
Defined.

Lemma quit_while_loading_witness :
  let w1 := exec (startup demoBuiltin) freshWorld in
  _isRunning (app w1) = true ∧
  _currentScene (app w1) = _currentScene (app freshWorld) ∧
  _layers (app w1) = registered demoBuiltin (app freshWorld) ∧
  _Run demoBuiltin [keysDown false false] freshWorld
  = loopAndUnload [keysDown false false] w1.
Proof.
  apply (quit_while_loading_is_lost demoBuiltin [keysDown false false] freshWorld).
  vm_compute. reflexivity.
Defined.


Lemma sceneReload_witness :
  let w' := exec (sceneReload keyEDown) reloadWorld in
  (sceneReload keyEDown reloadWorld).1 = Some () ∧
  _currentScene (app w') = Some 0%nat ∧
  scenes w' !! 0%nat = Some (withIsPlaying true reloadScene) ∧
  ∀ level, sceneFiles (disk reloadWorld) "Level1.json" = Some level →
    ∃ p, _targetScene (app w') = Some p ∧ p ≠ 0%nat ∧ scenes w' !! p = Some level.
Proof.
  destruct (sceneReload_marks_current_scene keyEDown reloadWorld 0%nat reloadScene
              eq_refl eq_refl) as [_ Hreload].
  apply Hreload.
  - reflexivity.
  - vm_compute. reflexivity.
Defined.
